(** * InfoSocialEpidemics: the simulation kernel

    A shallow embedding of [src/isepi.py] (the agent state machine and the
    metric functions) and of [src/grahamscheduler.py] (the partitioned
    scheduler), with the properties stated about them.

    Conventions.
    - Python exceptions are values of [exn]; a call either returns ([Ok]) or
      raises ([Raise]).
    - Python floats are IEEE binary64 numbers: Rocq's primitive [float].
    - Agent objects live in a store (the scheduler's registry, in insertion
      order) and are referred to by [unique_id]; the grid holds ids.
    - [model.random] (the seeded [random.Random] of the model) and the
      process-global NumPy generator behind [scipy.stats] are two separate
      streams of draws. *)

From Stdlib Require Import ZArith List String Bool Lia Floats Permutation.
Import ListNotations.
Local Open Scope string_scope.
Local Open Scope list_scope.
Local Open Scope Z_scope.

Set Implicit Arguments.
Set Warnings "-inexact-float".

(* ================================================================== *)
(** ** Exceptions and the state-and-error monad *)

Inductive exn : Type :=
| AttributeError (name : string)
| KeyError (key : Z)
| ValueError (msg : string)
| IndexError (msg : string)
| ZeroDivisionError (msg : string)
| SystemExit (msg : string).

Inductive result (A : Type) : Type :=
| Ok (a : A)
| Raise (e : exn).
Arguments Ok {A} a.
Arguments Raise {A} e.

(** A computation over a state [S] that may raise. *)
Definition M (S A : Type) : Type := S -> result (A * S).

Definition ret {S A} (a : A) : M S A := fun s => Ok (a, s).

Definition bind {S A B} (c : M S A) (k : A -> M S B) : M S B :=
  fun s => match c s with
           | Ok (a, s') => k a s'
           | Raise e => Raise e
           end.

Definition raise {S A} (e : exn) : M S A := fun _ => Raise e.
Definition gets {S A} (f : S -> A) : M S A := fun s => Ok (f s, s).
Definition modify {S} (f : S -> S) : M S unit := fun s => Ok (tt, f s).
Definition lift {S A} (r : result A) : M S A :=
  fun s => match r with Ok a => Ok (a, s) | Raise e => Raise e end.

Declare Scope monad_scope.
Delimit Scope monad_scope with monad.
Notation "x <- c ;; k" := (bind c (fun x => k))
  (at level 61, c at next level, right associativity) : monad_scope.
Notation "c ;; k" := (bind c (fun _ => k))
  (at level 61, right associativity) : monad_scope.
Local Open Scope monad_scope.

(** Python's [if c: body] with no [else]. *)
Definition when {S} (c : bool) (body : M S unit) : M S unit :=
  if c then body else ret tt.

(* ================================================================== *)
(** ** The two random sources *)

(** [model.random]: the k-th raw output of the seeded generator. *)
Record Random : Type := mkRandom {
  raw : nat -> nat;
  consumed : nat
}.

(** [_randbelow(n)]: the next raw output reduced below [n]. *)
Definition randbelow (n : nat) (r : Random) : nat * Random :=
  (Nat.modulo (raw r (consumed r)) n, mkRandom (raw r) (S (consumed r))).

(** One request to the NumPy generator: the uniform variate a Bernoulli
    request compares with its parameter, and the count a Poisson request
    receives. *)
Record Draw : Type := mkDraw {
  uniform : float;
  count : Z
}.

(** The process-global NumPy [RandomState] used by [scipy.stats]. *)
Record RandomState : Type := mkRandomState {
  variates : nat -> Draw;
  requests : nat
}.

Definition next_draw (g : RandomState) : Draw * RandomState :=
  (variates g (requests g), mkRandomState (variates g) (S (requests g))).

(* ================================================================== *)
(** ** Stage (isepi.py, lines 27-31) *)

Inductive Stage : Type := SUSCEPTIBLE | INFECTED | RECOVERED | DECEASED.

Definition Stage_value (s : Stage) : Z :=
  match s with
  | SUSCEPTIBLE => 1
  | INFECTED => 2
  | RECOVERED => 3
  | DECEASED => 4
  end.

Definition Stage_eqb (a b : Stage) : bool := Stage_value a =? Stage_value b.

(** The members of the enumeration, by name. *)
Definition Stage_members : list (string * Stage) :=
  [("SUSCEPTIBLE", SUSCEPTIBLE); ("INFECTED", INFECTED);
   ("RECOVERED", RECOVERED); ("DECEASED", DECEASED)].

Fixpoint assoc_string {A} (name : string) (l : list (string * A)) : option A :=
  match l with
  | [] => None
  | (n, v) :: rest => if String.eqb n name then Some v else assoc_string name rest
  end.

(** The attribute access [Stage.<name>]: a member, or [AttributeError]. *)
Definition Stage_attr (name : string) : result Stage :=
  match assoc_string name Stage_members with
  | Some s => Ok s
  | None => Raise (AttributeError name)
  end.

Definition all_stages : list Stage := map snd Stage_members.

(* ================================================================== *)
(** ** Agent objects (isepi.py, lines 51-70)

    The attributes of an [ISEpiAgent].  [isolated],
    [isolated_but_inefficient], [astep], [earmark] and [pos] are read by the
    methods below although [__init__] does not set them: the objects handed
    to the methods carry them. *)

Module Agent.
Record t : Type := mk {
  unique_id : nat;
  stage : Stage;
  incubation_time : Z;
  dwelling_time : Z;
  recovery_time : Z;
  prob_contagion : float;
  mortality_value : float;
  severity_value : float;
  curr_dwelling : Z;
  curr_incubation : Z;
  curr_recovery : Z;
  isolated : bool;
  isolated_but_inefficient : bool;
  astep : Z;
  earmark : Z;
  pos : Z * Z
}.

Definition set_stage (v : Stage) (a : t) : t :=
  mk (unique_id a) v (incubation_time a) (dwelling_time a) (recovery_time a)
     (prob_contagion a) (mortality_value a) (severity_value a)
     (curr_dwelling a) (curr_incubation a) (curr_recovery a)
     (isolated a) (isolated_but_inefficient a) (astep a) (earmark a) (pos a).

Definition set_curr_dwelling (v : Z) (a : t) : t :=
  mk (unique_id a) (stage a) (incubation_time a) (dwelling_time a) (recovery_time a)
     (prob_contagion a) (mortality_value a) (severity_value a)
     v (curr_incubation a) (curr_recovery a)
     (isolated a) (isolated_but_inefficient a) (astep a) (earmark a) (pos a).

Definition set_curr_recovery (v : Z) (a : t) : t :=
  mk (unique_id a) (stage a) (incubation_time a) (dwelling_time a) (recovery_time a)
     (prob_contagion a) (mortality_value a) (severity_value a)
     (curr_dwelling a) (curr_incubation a) v
     (isolated a) (isolated_but_inefficient a) (astep a) (earmark a) (pos a).

Definition set_isolated_but_inefficient (v : bool) (a : t) : t :=
  mk (unique_id a) (stage a) (incubation_time a) (dwelling_time a) (recovery_time a)
     (prob_contagion a) (mortality_value a) (severity_value a)
     (curr_dwelling a) (curr_incubation a) (curr_recovery a)
     (isolated a) v (astep a) (earmark a) (pos a).

Definition set_astep (v : Z) (a : t) : t :=
  mk (unique_id a) (stage a) (incubation_time a) (dwelling_time a) (recovery_time a)
     (prob_contagion a) (mortality_value a) (severity_value a)
     (curr_dwelling a) (curr_incubation a) (curr_recovery a)
     (isolated a) (isolated_but_inefficient a) v (earmark a) (pos a).

(** The plain attribute store [agent.earmark = v]: the class defines no
    property or [__setattr__], so the store always succeeds. *)
Definition set_earmark (v : Z) (a : t) : t :=
  mk (unique_id a) (stage a) (incubation_time a) (dwelling_time a) (recovery_time a)
     (prob_contagion a) (mortality_value a) (severity_value a)
     (curr_dwelling a) (curr_incubation a) (curr_recovery a)
     (isolated a) (isolated_but_inefficient a) (astep a) v (pos a).

Definition set_pos (v : Z * Z) (a : t) : t :=
  mk (unique_id a) (stage a) (incubation_time a) (dwelling_time a) (recovery_time a)
     (prob_contagion a) (mortality_value a) (severity_value a)
     (curr_dwelling a) (curr_incubation a) (curr_recovery a)
     (isolated a) (isolated_but_inefficient a) (astep a) (earmark a) v.
End Agent.

(* ================================================================== *)
(** ** The grid (mesa's toroidal [MultiGrid], as the agent methods use it) *)

Module MultiGrid.
Definition Pos : Type := (Z * Z)%type.

Definition pos_eqb (p q : Pos) : bool :=
  (fst p =? fst q) && (snd p =? snd q).

(** Each listed cell holds the ids of its occupants in order of arrival;
    a cell that is not listed is empty. *)
Record t : Type := mk {
  width : Z;
  height : Z;
  cells : list (Pos * list nat)
}.

Fixpoint cell (p : Pos) (cs : list (Pos * list nat)) : list nat :=
  match cs with
  | [] => []
  | (q, ids) :: rest => if pos_eqb q p then ids else cell p rest
  end.

Fixpoint set_cell (p : Pos) (ids : list nat) (cs : list (Pos * list nat))
  : list (Pos * list nat) :=
  match cs with
  | [] => [(p, ids)]
  | (q, old) :: rest =>
      if pos_eqb q p then (q, ids) :: rest else (q, old) :: set_cell p ids rest
  end.

(** [get_cell_list_contents([pos])]. *)
Definition get_cell_list_contents (g : t) (p : Pos) : list nat := cell p (cells g).

Definition torus_adj (g : t) (p : Pos) : Pos :=
  (fst p mod width g, snd p mod height g).

Fixpoint dedup (seen : list Pos) (l : list Pos) : list Pos :=
  match l with
  | [] => []
  | p :: rest =>
      if existsb (pos_eqb p) seen then dedup seen rest
      else p :: dedup (p :: seen) rest
  end.

(** [get_neighborhood(pos, moore=True, include_center=False)]: rows
    [dy = -1, 0, 1], in each row [dx = -1, 0, 1], the centre skipped,
    coordinates wrapped, a coordinate reported once. *)
Definition get_neighborhood (g : t) (p : Pos) : list Pos :=
  let offsets := [(-1, -1); (0, -1); (1, -1); (-1, 0); (1, 0); (-1, 1); (0, 1); (1, 1)] in
  dedup [] (map (fun d => torus_adj g (fst p + fst d, snd p + snd d)) offsets).

Fixpoint remove_first (id : nat) (ids : list nat) : option (list nat) :=
  match ids with
  | [] => None
  | x :: rest =>
      if Nat.eqb x id then Some rest
      else match remove_first id rest with
           | Some rest' => Some (x :: rest')
           | None => None
           end
  end.

(** The grid side of [move_agent(agent, pos)]: the id leaves the list of
    its old cell ([list.remove], which raises when it is absent) and is
    appended to the new one. *)
Definition move_agent (g : t) (id : nat) (old new : Pos) : result t :=
  match remove_first id (cell old (cells g)) with
  | None => Raise (ValueError "list.remove(x): x not in list")
  | Some ids =>
      let cs := set_cell old ids (cells g) in
      Ok (mk (width g) (height g) (set_cell new (cell new cs ++ [id]) cs))
  end.
End MultiGrid.

(* ================================================================== *)
(** ** The model object, as the agent methods and the metrics read it

    [grid], [rate_inbound], [prob_isolation_effective] and [num_agents] are
    read through [self.model] or [model] by the code below; [np_random] is
    the state of the process-global NumPy generator, carried with the model
    because the agent methods are its only users. *)

Module Model.
Record t : Type := mk {
  agents : list Agent.t;          (* schedule.agents, in insertion order *)
  grid : MultiGrid.t;
  np_random : RandomState;        (* the global generator behind scipy.stats *)
  prob_contagion : float;
  rate_inbound : float;
  prob_isolation_effective : float;
  avg_dwell : float;
  num_agents : Z;
  stepno : Z
}.

Definition set_agents (v : list Agent.t) (m : t) : t :=
  mk v (grid m) (np_random m) (prob_contagion m) (rate_inbound m)
     (prob_isolation_effective m) (avg_dwell m) (num_agents m) (stepno m).

Definition set_grid (v : MultiGrid.t) (m : t) : t :=
  mk (agents m) v (np_random m) (prob_contagion m) (rate_inbound m)
     (prob_isolation_effective m) (avg_dwell m) (num_agents m) (stepno m).

Definition set_np_random (v : RandomState) (m : t) : t :=
  mk (agents m) (grid m) v (prob_contagion m) (rate_inbound m)
     (prob_isolation_effective m) (avg_dwell m) (num_agents m) (stepno m).

Definition set_stepno (v : Z) (m : t) : t :=
  mk (agents m) (grid m) (np_random m) (prob_contagion m) (rate_inbound m)
     (prob_isolation_effective m) (avg_dwell m) (num_agents m) v.
End Model.

(** What one agent update acts on: [model.random] and the model. *)
Definition World : Type := (Random * Model.t)%type.

(** *** The store of agent objects *)

Fixpoint find_agent (id : nat) (l : list Agent.t) : option Agent.t :=
  match l with
  | [] => None
  | a :: rest => if Nat.eqb (Agent.unique_id a) id then Some a else find_agent id rest
  end.

Fixpoint update_agent (id : nat) (f : Agent.t -> Agent.t) (l : list Agent.t)
  : list Agent.t :=
  match l with
  | [] => []
  | a :: rest =>
      if Nat.eqb (Agent.unique_id a) id then f a :: rest
      else a :: update_agent id f rest
  end.

(** Reading the object with the given id ([_agents[unique_id]]). *)
Definition get_agent (id : nat) : M World Agent.t :=
  fun w => match find_agent id (Model.agents (snd w)) with
           | Some a => Ok (a, w)
           | None => Raise (KeyError (Z.of_nat id))
           end.

(** An attribute store on the object with the given id. *)
Definition setattr (id : nat) (f : Agent.t -> Agent.t) : M World unit :=
  modify (fun w : World =>
            (fst w, Model.set_agents (update_agent id f (Model.agents (snd w))) (snd w))).

Definition model {A} (f : Model.t -> A) : M World A := gets (fun w : World => f (snd w)).

(** *** Sampling *)

Definition in_unit_interval (p : float) : bool :=
  (PrimFloat.leb 0 p && PrimFloat.leb p 1)%bool.

(** [bernoulli.rvs(p)], used only as a condition: the next request to the
    global generator, true when its uniform variate falls below [p]. *)
Definition bernoulli_rvs (p : float) : M World bool :=
  fun w =>
    if in_unit_interval p then
      let (d, g) := next_draw (Model.np_random (snd w)) in
      Ok (PrimFloat.ltb (uniform d) p, (fst w, Model.set_np_random g (snd w)))
    else Raise (ValueError "Domain error in arguments.").

(** [poisson.rvs(mu)]: the count of the next request to the global generator. *)
Definition poisson_rvs (mu : float) : M World Z :=
  fun w =>
    if PrimFloat.leb 0 mu then
      let (d, g) := next_draw (Model.np_random (snd w)) in
      Ok (count d, (fst w, Model.set_np_random g (snd w)))
    else Raise (ValueError "Domain error in arguments.").

(** [self.random.choice(seq)], on [model.random]. *)
Definition random_choice {A} (seq : list A) : M World A :=
  fun w =>
    match seq with
    | [] => Raise (IndexError "Cannot choose from an empty sequence")
    | x :: _ =>
        let (i, r) := randbelow (List.length seq) (fst w) in
        Ok (nth i seq x, (r, snd w))
    end.

(* ================================================================== *)
(** ** Python arithmetic used by the metrics *)

(** [float(n)] for an integer magnitude below [2^63] (counts and Poisson
    samples are far below [2^53], where the conversion is exact). *)
Definition float_of_Z (z : Z) : float :=
  if z <? 0 then PrimFloat.opp (PrimFloat.of_uint63 (Uint63.of_Z (- z)))
  else PrimFloat.of_uint63 (Uint63.of_Z z).

(** [a / b] on two floats: Python raises on a zero divisor. *)
Definition float_truediv (a b : float) : result float :=
  if PrimFloat.eqb b 0 then Raise (ZeroDivisionError "float division by zero")
  else Ok (PrimFloat.div a b).

(** [a / b] on two ints (true division). *)
Definition int_truediv (a b : Z) : result float :=
  if b =? 0 then Raise (ZeroDivisionError "division by zero")
  else Ok (PrimFloat.div (float_of_Z a) (float_of_Z b)).

Definition rbind {A B} (r : result A) (k : A -> result B) : result B :=
  match r with
  | Ok a => k a
  | Raise e => Raise e
  end.

(* ================================================================== *)
(** ** ISEpiAgent methods (isepi.py, lines 75-162) *)

Module ISEpiAgent.

(** Lines 75-76.  [Stage.EXPOSED] is looked up before the comparison, and
    [Stage.ASYMPTOMATIC] only when the first comparison is false. *)
Definition is_contagious (self : Agent.t) : result bool :=
  rbind (Stage_attr "EXPOSED") (fun exposed =>
    if Stage_eqb (Agent.stage self) exposed then Ok true
    else rbind (Stage_attr "ASYMPTOMATIC") (fun asymptomatic =>
           Ok (Stage_eqb (Agent.stage self) asymptomatic))).

(** [c.add_contact_trace(self)]: neither [ISEpiAgent] nor mesa's [Agent]
    defines the method, so the attribute lookup raises. *)
Definition add_contact_trace (c self : nat) : M World unit :=
  raise (AttributeError "add_contact_trace").

(** The objects of a cell, resolved from the ids the grid holds. *)
Fixpoint resolve (ids : list nat) (store : list Agent.t) : result (list Agent.t) :=
  match ids with
  | [] => Ok []
  | id :: rest =>
      match find_agent id store with
      | None => Raise (KeyError (Z.of_nat id))
      | Some a => rbind (resolve rest store) (fun l => Ok (a :: l))
      end
  end.

Definition cellmates_of (m : Model.t) (p : Z * Z) : result (list Agent.t) :=
  resolve (MultiGrid.get_cell_list_contents (Model.grid m) p) (Model.agents m).

(** Lines 83-86: the loop of [interactants]. *)
Fixpoint interactants_loop (self : Agent.t) (cell : list Agent.t) (count : Z) : Z :=
  match cell with
  | [] => count
  | agent :: rest =>
      if negb (Nat.eqb (Agent.unique_id agent) (Agent.unique_id self)) then
        if (negb (Agent.isolated agent) || Agent.isolated_but_inefficient self)%bool
        then interactants_loop self rest (count + 1)
        else interactants_loop self rest count
      else interactants_loop self rest count
  end.

(** Lines 79-88. *)
Definition interactants (self : Agent.t) (m : Model.t) : result Z :=
  if (negb (Stage_eqb (Agent.stage self) DECEASED)
      && negb (Stage_eqb (Agent.stage self) RECOVERED))%bool
  then rbind (cellmates_of m (Agent.pos self)) (fun cell =>
         Ok (interactants_loop self cell 0))
  else Ok 0.

(** Lines 147-162. *)
Definition move (self : nat) : M World unit :=
  a <- get_agent self ;;
  if Agent.curr_dwelling a >? 0 then
    setattr self (Agent.set_curr_dwelling (Agent.curr_dwelling a - 1))
  else
    g <- model Model.grid ;;
    new_position <- random_choice (MultiGrid.get_neighborhood g (Agent.pos a)) ;;
    g' <- lift (MultiGrid.move_agent g self (Agent.pos a)
                  (MultiGrid.torus_adj g new_position)) ;;
    modify (fun w : World => (fst w, Model.set_grid g' (snd w))) ;;
    setattr self (Agent.set_pos (MultiGrid.torus_adj g new_position)) ;;
    mu <- model Model.avg_dwell ;;
    k <- poisson_rvs mu ;;
    setattr self (Agent.set_curr_dwelling k).

(** Lines 105-114: the scan over the cell, which leaves at the first
    occupant found contagious. *)
Fixpoint scan (self : nat) (cellmates : list nat) : M World bool :=
  match cellmates with
  | [] => ret false
  | c :: rest =>
      co <- get_agent c ;;
      contagious <- lift (is_contagious co) ;;
      if contagious then
        add_contact_trace c self ;;
        a <- get_agent self ;;
        if Agent.isolated a then
          pe <- model Model.prob_isolation_effective ;;
          failed <- bernoulli_rvs (PrimFloat.sub 1 pe) ;;
          if failed then
            setattr self (Agent.set_isolated_but_inefficient true) ;;
            ret true
          else ret true
        else ret true
      else scan self rest
  end.

(** Lines 100-118: the contact scan and, on a counted contact, the
    contagion trial. *)
Definition exposure (self : nat) : M World unit :=
a <- get_agent self ;;
g <- model Model.grid ;;
infected_contact <- scan self (MultiGrid.get_cell_list_contents g (Agent.pos a)) ;;
when infected_contact
  (a <- get_agent self ;;
   infect <- bernoulli_rvs (Agent.prob_contagion a) ;;
   when infect (setattr self (Agent.set_stage INFECTED))).

(** Lines 97-124: the branch of an agent that is SUSCEPTIBLE after the
    returning-traveller trial. *)
Definition step_susceptible (self : nat) : M World unit :=
exposure self ;;
a <- get_agent self ;;
when (negb (Agent.isolated a)) (move self).

(** Lines 125-132. *)
Definition step_infected (self : nat) : M World unit :=
  a <- get_agent self ;;
  if Agent.curr_incubation a + Agent.curr_recovery a
     <? Agent.incubation_time a + Agent.recovery_time a
  then
    setattr self (Agent.set_curr_recovery (Agent.curr_recovery a + 1)) ;;
    severe <- bernoulli_rvs (Agent.severity_value a) ;;
    when severe
      (s <- lift (Stage_attr "SEVERE") ;;
       setattr self (Agent.set_stage s))
  else setattr self (Agent.set_stage RECOVERED).

(** Lines 133-138. *)
Definition step_recovered (self : nat) : M World unit :=
  a <- get_agent self ;;
  _ <- model (fun m => MultiGrid.get_cell_list_contents (Model.grid m) (Agent.pos a)) ;;
  setattr self (Agent.set_curr_recovery 0) ;;
  move self.

(** Lines 90-145. *)
Definition step (self : nat) : M World unit :=
  a <- get_agent self ;;
  when (Stage_eqb (Agent.stage a) SUSCEPTIBLE)
    (rate <- model Model.rate_inbound ;;
     inbound <- bernoulli_rvs rate ;;
     when inbound (setattr self (Agent.set_stage INFECTED))) ;;
  a <- get_agent self ;;
  (if Stage_eqb (Agent.stage a) SUSCEPTIBLE then step_susceptible self
   else if Stage_eqb (Agent.stage a) INFECTED then step_infected self
   else if Stage_eqb (Agent.stage a) RECOVERED then step_recovered self
   else if Stage_eqb (Agent.stage a) DECEASED then ret tt
   else raise (SystemExit "Unknown stage: aborting.")) ;;
  a <- get_agent self ;;
  setattr self (Agent.set_astep (Agent.astep a + 1)).

End ISEpiAgent.

(* ================================================================== *)
(** ** Metrics (isepi.py, lines 164-240) *)

(** Lines 176-183. *)
Fixpoint count_type_loop (l : list Agent.t) (stage : Stage) (count : Z) : Z :=
  match l with
  | [] => count
  | agent :: rest =>
      if Stage_eqb (Agent.stage agent) stage
      then count_type_loop rest stage (count + 1)
      else count_type_loop rest stage count
  end.

Definition count_type (m : Model.t) (stage : Stage) : Z :=
  count_type_loop (Model.agents m) stage 0.

Definition compute_susceptible (m : Model.t) : result float :=
  int_truediv (count_type m SUSCEPTIBLE) (Model.num_agents m).
Definition compute_infected (m : Model.t) : result float :=
  int_truediv (count_type m INFECTED) (Model.num_agents m).
Definition compute_recovered (m : Model.t) : result float :=
  int_truediv (count_type m RECOVERED) (Model.num_agents m).
Definition compute_deceased (m : Model.t) : result float :=
  int_truediv (count_type m DECEASED) (Model.num_agents m).

(** Lines 212-218. *)
Fixpoint compute_contacts_loop (l : list Agent.t) (m : Model.t) (count : Z) : result Z :=
  match l with
  | [] => Ok count
  | agent :: rest =>
      rbind (ISEpiAgent.interactants agent m) (fun n =>
        compute_contacts_loop rest m (count + n))
  end.

Definition compute_contacts (m : Model.t) : result float :=
  rbind (compute_contacts_loop (Model.agents m) m 0) (fun count =>
    int_truediv count (Z.of_nat (List.length (Model.agents m)))).

Definition compute_stepno (m : Model.t) : Z := Model.stepno m.

(** Lines 228-234: the loop of [compute_eff_reprod_number], carrying
    [(infected, infected_time)]. *)
Fixpoint eff_reprod_loop (l : list Agent.t) (infected infected_time : float)
  : float * float :=
  match l with
  | [] => (infected, infected_time)
  | agent :: rest =>
      if Stage_eqb (Agent.stage agent) INFECTED
      then eff_reprod_loop rest (PrimFloat.add infected 1)
             (PrimFloat.add infected_time (float_of_Z (Agent.incubation_time agent)))
      else eff_reprod_loop rest infected infected_time
  end.

(** Lines 223-237. *)
Definition compute_eff_reprod_number (m : Model.t) : result float :=
  let prob_contagion := Model.prob_contagion m in
  let (infected, infected_time) := eff_reprod_loop (Model.agents m) 0%float 0%float in
  rbind (compute_contacts m) (fun avg_contacts =>
    rbind (float_truediv infected_time infected) (fun ratio =>
      Ok (PrimFloat.mul (PrimFloat.mul prob_contagion avg_contacts) ratio))).

Definition compute_num_agents (m : Model.t) : Z := Model.num_agents m.

(* ================================================================== *)
(** ** Python containers used by the schedulers *)

(** [range(0, n)]. *)
Definition range (n : Z) : list Z := map Z.of_nat (seq 0 (Z.to_nat n)).

(** A [dict] with integer keys, in insertion order. *)
Definition dict (V : Type) : Type := list (Z * V).

Fixpoint dict_get {V} (k : Z) (d : dict V) : option V :=
  match d with
  | [] => None
  | (k', v) :: rest => if k' =? k then Some v else dict_get k rest
  end.

(** [d[k] = v]: an existing key keeps its place, a new one goes last. *)
Fixpoint dict_set {V} (k : Z) (v : V) (d : dict V) : dict V :=
  match d with
  | [] => [(k, v)]
  | (k', v') :: rest =>
      if k' =? k then (k', v) :: rest else (k', v') :: dict_set k v rest
  end.

Definition keys {V} (d : dict V) : list Z := map fst d.

Fixpoint list_set {A} (i : nat) (v : A) (l : list A) : list A :=
  match l, i with
  | [], _ => []
  | _ :: rest, O => v :: rest
  | x :: rest, S i' => x :: list_set i' v rest
  end.

(** [x[i], x[j] = x[j], x[i]]. *)
Definition swap {A} (i j : nat) (x : list A) : list A :=
  match nth_error x i, nth_error x j with
  | Some a, Some b => list_set i b (list_set j a x)
  | _, _ => x
  end.

(** [random.shuffle(x)]: for [i] from [len(x) - 1] down to [1], exchange
    [x[i]] with [x[randbelow(i + 1)]]. *)
Fixpoint shuffle_loop {A} (i : nat) (x : list A) (r : Random) : list A * Random :=
  match i with
  | O => (x, r)
  | S i' =>
      let (j, r') := randbelow (S i) r in
      shuffle_loop i' (swap i j x) r'
  end.

Definition shuffle {A} (x : list A) (r : Random) : list A * Random :=
  shuffle_loop (List.length x - 1) x r.

(* ================================================================== *)
(** ** The schedulers

    A scheduler is generic in the agents it activates: [Env] is whatever
    the agents' [step()] acts on besides [model.random], [registered] reads
    the [(unique_id, earmark)] of the objects in [_agents] (in insertion
    order), and [agent_step] is the [step()] of the object with a given id. *)

Section Schedulers.
Variable Env : Type.
Variable registered : Env -> list (nat * Z).
Variable agent_step : nat -> M (Random * Env) unit.

(** [model.random.shuffle(x)] *)
Definition model_shuffle (x : list nat) : M (Random * Env) (list nat) :=
  fun w => let (x', r) := shuffle x (fst w) in Ok (x', (r, snd w)).

(** [for unique_id in ids: self._agents[unique_id].step()] *)
Fixpoint activate (ids : list nat) : M (Random * Env) unit :=
  match ids with
  | [] => ret tt
  | unique_id :: rest => agent_step unique_id ;; activate rest
  end.

(** *** GrahamActivation (grahamscheduler.py) *)

Record GrahamActivation : Type := mkGraham {
  stages : dict (list nat);
  partitions : Z;
  steps : Z;
  time : Z
}.

(** Lines 17-26. *)
Definition GrahamActivation_init (partitions : Z) : GrahamActivation :=
  mkGraham [] partitions 0 0.

(** Lines 34-35. *)
Fixpoint reset_stages (ps : list Z) (st : dict (list nat)) : dict (list nat) :=
  match ps with
  | [] => st
  | p :: rest => reset_stages rest (dict_set p [] st)
  end.

(** Lines 37-38. *)
Fixpoint fill_stages (agents : list (nat * Z)) (st : dict (list nat))
  : result (dict (list nat)) :=
  match agents with
  | [] => Ok st
  | (unique_id, earmark) :: rest =>
      match dict_get earmark st with
      | None => Raise (KeyError earmark)
      | Some bucket => fill_stages rest (dict_set earmark (bucket ++ [unique_id]) st)
      end
  end.

(** Lines 40-44. *)
Fixpoint run_stages (ks : list Z) (st : dict (list nat))
  : M (Random * Env) (dict (list nat)) :=
  match ks with
  | [] => ret st
  | earmark :: rest =>
      match dict_get earmark st with
      | None => raise (KeyError earmark)
      | Some bucket =>
          shuffled <- model_shuffle bucket ;;
          activate shuffled ;;
          run_stages rest (dict_set earmark shuffled st)
      end
  end.

(** Lines 29-47. *)
Definition GrahamActivation_step (self : GrahamActivation)
  : M (Random * Env) GrahamActivation :=
  let st0 := reset_stages (range (partitions self)) (stages self) in
  agents <- gets (fun w : Random * Env => registered (snd w)) ;;
  st1 <- lift (fill_stages agents st0) ;;
  st2 <- run_stages (keys st1) st1 ;;
  ret (mkGraham st2 (partitions self) (steps self + 1) (time self + 1)).

(** *** RandomActivation (mesa.time): one shuffle of all keys *)

Record RandomActivation : Type := mkUniform {
  usteps : Z;
  utime : Z
}.

Definition RandomActivation_step (self : RandomActivation)
  : M (Random * Env) RandomActivation :=
  agents <- gets (fun w : Random * Env => registered (snd w)) ;;
  shuffled <- model_shuffle (map fst agents) ;;
  activate shuffled ;;
  ret (mkUniform (usteps self + 1) (utime self + 1)).

Inductive Schedule : Type :=
| Graham (s : GrahamActivation)
| Uniform (s : RandomActivation).

Definition schedule_step (s : Schedule) : M (Random * Env) Schedule :=
  match s with
  | Graham g => g' <- GrahamActivation_step g ;; ret (Graham g')
  | Uniform u => u' <- RandomActivation_step u ;; ret (Uniform u')
  end.
End Schedulers.

Arguments mkGraham stages partitions steps time : clear implicits.

(* ================================================================== *)
(** ** ISEpiModel.step (isepi.py, lines 327-334) *)

Definition registry (m : Model.t) : list (nat * Z) :=
  map (fun a => (Agent.unique_id a, Agent.earmark a)) (Model.agents m).

(** Modelled from the spec: [datacollection.DataCollector] is imported by
    isepi.py but is not among the sources.  [collect] evaluates each model
    reporter on the model, a read-only scan; a reporter that raises aborts
    the step. *)
Fixpoint collect (reporters : list (Model.t -> result float)) (m : Model.t)
  : result (list float) :=
  match reporters with
  | [] => Ok []
  | f :: rest => rbind (f m) (fun v => rbind (collect rest m) (fun vs => Ok (v :: vs)))
  end.

Definition ISEpiModel_step (reporters : list (Model.t -> result float))
  (s : Schedule) : M World Schedule :=
  _ <- (fun w : World => lift (collect reporters (snd w)) w) ;;
  s' <- schedule_step registry ISEpiAgent.step s ;;
  modify (fun w : World => (fst w, Model.set_stepno (Model.stepno (snd w) + 1) (snd w))) ;;
  ret s'.

(** The stages of the population, in registry order. *)
Definition stages_of (m : Model.t) : list Stage := map Agent.stage (Model.agents m).

(** A run of [n] steps: the stage of every agent after each step. *)
Fixpoint run (reporters : list (Model.t -> result float)) (n : nat)
  (s : Schedule) (w : World) : result (list (list Stage)) :=
  match n with
  | O => Ok []
  | S n' =>
      match ISEpiModel_step reporters s w with
      | Raise e => Raise e
      | Ok (s', w') =>
          rbind (run reporters n' s' w') (fun rest => Ok (stages_of (snd w') :: rest))
      end
  end.

(* ================================================================== *)
(** ** Concrete populations used by the examples *)

(** An agent standing on cell [(0, 0)]. *)
Definition person (id : nat) (s : Stage) (incubation : Z) (isolated : bool)
  (dwell : Z) : Agent.t :=
  Agent.mk id s incubation 5 20 0.03%float 0.001%float 0.001%float
           dwell 0 0 isolated false 0 0 (0, 0).

Definition seeded (l : list nat) : Random := mkRandom (fun k => nth k l O) 0.

(** A generator whose Bernoulli variates are those of [l], then [1]. *)
Definition numpy (l : list float) : RandomState :=
  mkRandomState (fun k => mkDraw (nth k l 1%float) 3) 0.

(** A 5 x 5 town whose cell [(0, 0)] lists [cell]. *)
Definition town (population : list Agent.t) (cell : list nat) (g : RandomState)
  : Model.t :=
  Model.mk population (MultiGrid.mk 5 5 [((0, 0), cell)]) g
           0.03%float 0.5%float 0.9%float 5%float
           (Z.of_nat (List.length population)) 0.

(* ================================================================== *)
(** ** Stage counts *)

Lemma Stage_eqb_eq : forall a b, Stage_eqb a b = true <-> a = b.
Proof.
  intros a b; split.
  - destruct a, b; simpl; intro H; try reflexivity; discriminate H.
  - intros ->. destruct b; reflexivity.
Qed.

Lemma count_type_loop_acc :
  forall l s c, count_type_loop l s c = c + count_type_loop l s 0.
Proof.
  induction l as [|a l IH]; intros s c; simpl.
  - lia.
  - destruct (Stage_eqb (Agent.stage a) s).
    + rewrite IH, (IH s 1). lia.
    + apply IH.
Qed.

Lemma count_type_loop_filter :
  forall l s,
    count_type_loop l s 0
    = Z.of_nat (List.length (filter (fun a => Stage_eqb (Agent.stage a) s) l)).
Proof.
  induction l as [|a l IH]; intro s; simpl; [reflexivity|].
  destruct (Stage_eqb (Agent.stage a) s); simpl.
  - rewrite (count_type_loop_acc l s 1), IH. lia.
  - apply IH.
Qed.

Definition sumZ (l : list Z) : Z := fold_right Z.add 0 l.

Lemma stage_counts_cons :
  forall a l,
    sumZ (map (fun s => count_type_loop (a :: l) s 0) all_stages)
    = 1 + sumZ (map (fun s => count_type_loop l s 0) all_stages).
Proof.
  intros a l. unfold all_stages, sumZ. cbn -[Z.add].
  destruct (Agent.stage a); cbn -[Z.add];
    rewrite (count_type_loop_acc l _ (0 + 1)); lia.
Qed.

(** C5. For every population, the per-stage counts returned by [count_type],
    summed over the stages of the enumeration, equal the number of agents:
    the stages are pairwise distinct (no agent is counted twice) and every
    agent's stage is one of them (no agent is left out). *)
Theorem stage_counts_total :
  forall m,
    sumZ (map (count_type m) all_stages) = Z.of_nat (List.length (Model.agents m))
    /\ NoDup all_stages
    /\ forall s : Stage, In s all_stages.
Proof.
  intro m. split; [|split].
  - unfold count_type. induction (Model.agents m) as [|a l IH].
    + reflexivity.
    + rewrite stage_counts_cons, IH. simpl List.length. lia.
  - unfold all_stages; simpl. repeat constructor; simpl; intuition discriminate.
  - intros []; unfold all_stages; simpl; auto.
Qed.

(* ================================================================== *)
(** ** The effective reproduction number *)

(** The formula in the words of the specification: the INFECTED agents,
    their number and the sum of their incubation times, as floats. *)
Definition infected_agents (m : Model.t) : list Agent.t :=
  filter (fun a => Stage_eqb (Agent.stage a) INFECTED) (Model.agents m).

Definition float_sum (l : list float) : float := fold_left PrimFloat.add l 0%float.

Definition infected_count (m : Model.t) : float :=
  float_sum (map (fun _ => 1%float) (infected_agents m)).

Definition incubation_sum (m : Model.t) : float :=
  float_sum (map (fun a => float_of_Z (Agent.incubation_time a)) (infected_agents m)).

Definition reproduction_formula (m : Model.t) (average_contacts : float) : float :=
  (Model.prob_contagion m * average_contacts
   * (incubation_sum m / infected_count m))%float.

(** The single pass of the code computes both folds at once. *)
Lemma eff_reprod_loop_folds :
  forall l infected infected_time,
    eff_reprod_loop l infected infected_time
    = (fold_left PrimFloat.add
         (map (fun _ => 1%float)
              (filter (fun a => Stage_eqb (Agent.stage a) INFECTED) l)) infected,
       fold_left PrimFloat.add
         (map (fun a => float_of_Z (Agent.incubation_time a))
              (filter (fun a => Stage_eqb (Agent.stage a) INFECTED) l)) infected_time).
Proof.
  induction l as [|a l IH]; intros infected infected_time; simpl.
  - reflexivity.
  - case (Stage_eqb (Agent.stage a) INFECTED); simpl; apply IH.
Qed.

Lemma compute_eff_reprod_number_unfold :
  forall m,
    compute_eff_reprod_number m
    = rbind (compute_contacts m) (fun avg_contacts =>
        rbind (float_truediv (incubation_sum m) (infected_count m)) (fun ratio =>
          Ok (Model.prob_contagion m * avg_contacts * ratio)%float)).
Proof.
  intro m. unfold compute_eff_reprod_number.
  rewrite eff_reprod_loop_folds. reflexivity.
Qed.

Lemma no_infected_agents :
  forall m, count_type m INFECTED = 0 -> infected_agents m = [].
Proof.
  intros m H. unfold count_type in H. rewrite count_type_loop_filter in H.
  unfold infected_agents.
  destruct (filter _ (Model.agents m)) as [|a l]; [reflexivity|].
  simpl in H. lia.
Qed.

(** C1. With no INFECTED agent the function never returns a value: it
    raises, and when the average contacts can be computed it reaches its
    division with a zero divisor and raises [ZeroDivisionError].  There is
    no guard and no NaN value. *)
Theorem eff_reprod_number_zero_infected :
  forall m,
    count_type m INFECTED = 0 ->
    (exists e, compute_eff_reprod_number m = Raise e)
    /\ (forall avg_contacts,
           compute_contacts m = Ok avg_contacts ->
           compute_eff_reprod_number m
           = Raise (ZeroDivisionError "float division by zero")).
Proof.
  intros m Hzero.
  assert (Hdiv : forall c, compute_contacts m = Ok c ->
            compute_eff_reprod_number m
            = Raise (ZeroDivisionError "float division by zero")).
  { intros c Hc. rewrite compute_eff_reprod_number_unfold, Hc.
    unfold infected_count, incubation_sum.
    rewrite (no_infected_agents m Hzero). reflexivity. }
  split; [|exact Hdiv].
  destruct (compute_contacts m) as [c|e] eqn:Hc.
  - eexists. now apply (Hdiv c).
  - exists e. rewrite compute_eff_reprod_number_unfold, Hc. reflexivity.
Qed.

Definition one_susceptible : Model.t :=
  town [person 0 SUSCEPTIBLE 10 false 0] [0%nat] (numpy []).

Lemma eff_reprod_number_zero_infected_witness :
  count_type one_susceptible INFECTED = 0
  /\ compute_contacts one_susceptible = Ok 0%float
  /\ compute_eff_reprod_number one_susceptible
     = Raise (ZeroDivisionError "float division by zero").
Proof.
  split; [reflexivity|split; [reflexivity|]].
  apply (proj2 (@eff_reprod_number_zero_infected one_susceptible eq_refl) 0%float).
  reflexivity.
Defined.

(** The float counter of the code against the number of INFECTED agents:
    adding [1.0] that many times never comes back to zero.  The check runs
    the additions for every count up to the bound. *)
Fixpoint count_stays_nonzero (n : nat) (acc : float) : bool :=
  match n with
  | O => true
  | S n' =>
      let acc' := PrimFloat.add acc 1 in
      (negb (PrimFloat.eqb acc' 0) && count_stays_nonzero n' acc')%bool
  end.

Definition population_bound : Z := 100000.

Lemma count_stays_nonzero_sound :
  forall (A : Type) n acc (l : list A),
    count_stays_nonzero n acc = true ->
    (1 <= List.length l <= n)%nat ->
    PrimFloat.eqb (fold_left PrimFloat.add (map (fun _ => 1%float) l) acc) 0 = false.
Proof.
  intros A n. induction n as [|n IH]; intros acc l Hcheck Hlen; [lia|].
  destruct l as [|x l]; [simpl in Hlen; lia|].
  simpl in Hcheck. apply andb_prop in Hcheck as [Hnz Hrest].
  destruct l as [|y l].
  - simpl. now apply negb_true_iff in Hnz.
  - apply (IH (PrimFloat.add acc 1) (y :: l) Hrest). simpl in *. lia.
Qed.

Lemma count_stays_nonzero_bound :
  count_stays_nonzero (Z.to_nat population_bound) 0 = true.
Proof. vm_compute. reflexivity. Qed.

Lemma infected_count_nonzero :
  forall m,
    0 < count_type m INFECTED <= population_bound ->
    PrimFloat.eqb (infected_count m) 0 = false.
Proof.
  intros m H. unfold count_type in H. rewrite count_type_loop_filter in H.
  fold (infected_agents m) in H. unfold infected_count, float_sum.
  apply count_stays_nonzero_sound with (n := Z.to_nat population_bound).
  - exact count_stays_nonzero_bound.
  - lia.
Qed.

(** C6. When the INFECTED count is nonzero (the float the function
    accumulates is nonzero, which is the case for every count from one up
    to [population_bound]) and the average contacts are [avg_contacts], the
    result is [prob_contagion * avg_contacts * (sum of incubation times /
    count)]; with incubation times 10, 12, 14, [prob_contagion = 0.03] and
    [avg_contacts = 2.0] it is [0.72]. *)
Theorem eff_reprod_number_formula :
  forall m avg_contacts,
    compute_contacts m = Ok avg_contacts ->
    (PrimFloat.eqb (infected_count m) 0 = false ->
     compute_eff_reprod_number m = Ok (reproduction_formula m avg_contacts))
    /\ (0 < count_type m INFECTED <= population_bound ->
        compute_eff_reprod_number m = Ok (reproduction_formula m avg_contacts))
    /\ (Model.prob_contagion m = 0.03%float ->
        avg_contacts = 2%float ->
        map Agent.incubation_time (infected_agents m) = [10; 12; 14] ->
        compute_eff_reprod_number m = Ok 0.72%float).
Proof.
  intros m c Hc.
  rewrite compute_eff_reprod_number_unfold, Hc. simpl rbind.
  assert (Hgen : PrimFloat.eqb (infected_count m) 0 = false ->
                 rbind (float_truediv (incubation_sum m) (infected_count m))
                   (fun ratio => Ok (Model.prob_contagion m * c * ratio)%float)
                 = Ok (reproduction_formula m c)).
  { intro Hnz. unfold float_truediv. rewrite Hnz. reflexivity. }
  split; [exact Hgen|split].
  - intro Hcount. apply Hgen. now apply infected_count_nonzero.
  - intros Hp -> Htimes.
    unfold infected_count, incubation_sum.
    rewrite <- (map_map Agent.incubation_time float_of_Z), Htimes.
    destruct (infected_agents m) as [|a1 [|a2 [|a3 [|a4 rest]]]]; try discriminate Htimes.
    rewrite Hp. vm_compute. reflexivity.
Qed.

Definition three_infected : Model.t :=
  town [person 0 INFECTED 10 false 0; person 1 INFECTED 12 false 0;
        person 2 INFECTED 14 false 0] [0; 1; 2]%nat (numpy []).

Lemma eff_reprod_number_formula_witness :
  compute_contacts three_infected = Ok 2%float
  /\ count_type three_infected INFECTED = 3
  /\ compute_eff_reprod_number three_infected
     = Ok (reproduction_formula three_infected 2)
  /\ compute_eff_reprod_number three_infected = Ok 0.72%float.
Proof.
  pose proof (@eff_reprod_number_formula three_infected 2%float eq_refl)
    as [_ [Hgen Hex]].
  split; [reflexivity|split; [reflexivity|split]].
  - apply Hgen. change (0 < 3 <= 100000). lia.
  - apply Hex; reflexivity.
Defined.

(* ================================================================== *)
(** ** Average contacts *)

(** The metric in the words of the specification, for a given notion of
    which occupants of the cell count for [self]: live agents contribute
    the number of occupants kept, the others zero, and the total is
    divided by the population size. *)
Definition is_live (a : Agent.t) : bool :=
  (negb (Stage_eqb (Agent.stage a) DECEASED)
   && negb (Stage_eqb (Agent.stage a) RECOVERED))%bool.

Definition occupants_kept (keep : Agent.t -> Agent.t -> bool) (m : Model.t)
  (self : Agent.t) : result Z :=
  if is_live self
  then rbind (ISEpiAgent.cellmates_of m (Agent.pos self)) (fun cell =>
         Ok (Z.of_nat (List.length (filter (keep self) cell))))
  else Ok 0.

Fixpoint total (l : list (result Z)) : result Z :=
  match l with
  | [] => Ok 0
  | r :: rest => rbind r (fun n => rbind (total rest) (fun t => Ok (n + t)))
  end.

Definition average_kept (keep : Agent.t -> Agent.t -> bool) (m : Model.t)
  : result float :=
  rbind (total (map (occupants_kept keep m) (Model.agents m))) (fun t =>
    int_truediv t (Z.of_nat (List.length (Model.agents m)))).

(** Every occupant other than [self]. *)
Definition other_occupant (self agent : Agent.t) : bool :=
  negb (Nat.eqb (Agent.unique_id agent) (Agent.unique_id self)).

(** An occupant other than [self] that is not isolated, or any other
    occupant when [self] is flagged [isolated_but_inefficient]. *)
Definition effective_interactant (self agent : Agent.t) : bool :=
  (other_occupant self agent
   && (negb (Agent.isolated agent) || Agent.isolated_but_inefficient self))%bool.

Lemma interactants_loop_filter :
  forall self cell count,
    ISEpiAgent.interactants_loop self cell count
    = count + Z.of_nat (List.length (filter (effective_interactant self) cell)).
Proof.
  intros self cell. induction cell as [|agent rest IH]; intro count; simpl.
  - lia.
  - unfold effective_interactant at 1, other_occupant.
    destruct (negb (Nat.eqb (Agent.unique_id agent) (Agent.unique_id self)));
      [destruct (negb (Agent.isolated agent) || Agent.isolated_but_inefficient self)%bool|];
      simpl; rewrite IH; lia.
Qed.

Lemma interactants_kept :
  forall self m,
    ISEpiAgent.interactants self m = occupants_kept effective_interactant m self.
Proof.
  intros self m. unfold ISEpiAgent.interactants, occupants_kept, is_live.
  destruct (negb (Stage_eqb (Agent.stage self) DECEASED)
            && negb (Stage_eqb (Agent.stage self) RECOVERED))%bool; [|reflexivity].
  destruct (ISEpiAgent.cellmates_of m (Agent.pos self)) as [cell|e]; simpl.
  - now rewrite interactants_loop_filter.
  - reflexivity.
Qed.

Lemma compute_contacts_loop_total :
  forall l m count,
    compute_contacts_loop l m count
    = rbind (total (map (occupants_kept effective_interactant m) l))
            (fun t => Ok (count + t)).
Proof.
  induction l as [|a l IH]; intros m count; simpl.
  - f_equal. lia.
  - rewrite interactants_kept.
    destruct (occupants_kept effective_interactant m a) as [n|e]; simpl; [|reflexivity].
    rewrite IH.
    destruct (total (map (occupants_kept effective_interactant m) l)); simpl;
      [f_equal; lia | reflexivity].
Qed.

(** C8, amended. The average-contacts metric sums, over every live agent,
    the occupants of its cell other than itself that are not isolated (all
    other occupants when the agent itself is flagged
    [isolated_but_inefficient]), and divides by the population size. *)
Theorem compute_contacts_effective :
  forall m, compute_contacts m = average_kept effective_interactant m.
Proof.
  intro m. unfold compute_contacts, average_kept.
  rewrite compute_contacts_loop_total.
  destruct (total _) as [t|e]; reflexivity.
Qed.

Definition isolated_neighbour : Model.t :=
  town [person 0 SUSCEPTIBLE 10 false 0; person 1 SUSCEPTIBLE 10 true 0]
       [0; 1]%nat (numpy []).

(** C8 as stated fails: two live agents share a cell and one is isolated;
    counting every other occupant gives 2/2, the code returns 1/2. *)
Lemma compute_contacts_filters_isolated :
  average_kept other_occupant isolated_neighbour = Ok 1%float
  /\ compute_contacts isolated_neighbour = Ok 0.5%float.
Proof. split; reflexivity. Qed.

(* ================================================================== *)
(** ** Shuffling permutes *)

Lemma list_set_extract :
  forall (A : Type) (l : list A) i a v,
    nth_error l i = Some a -> Permutation (v :: l) (a :: list_set i v l).
Proof.
  intros A l. induction l as [|x l IH]; intros i a v H.
  - destruct i; discriminate H.
  - destruct i as [|i]; simpl in *.
    + injection H as ->. apply perm_swap.
    + specialize (IH i a v H).
      transitivity (x :: v :: l); [apply perm_swap|].
      transitivity (x :: a :: list_set i v l); [now apply perm_skip|apply perm_swap].
Qed.

Lemma nth_error_list_set_same :
  forall (A : Type) (l : list A) i a v,
    nth_error l i = Some a -> nth_error (list_set i v l) i = Some v.
Proof.
  intros A l. induction l as [|x l IH]; intros i a v H.
  - destruct i; discriminate H.
  - destruct i as [|i]; simpl in *; [reflexivity|eauto].
Qed.

Lemma nth_error_list_set_other :
  forall (A : Type) (l : list A) i j v,
    i <> j -> nth_error (list_set j v l) i = nth_error l i.
Proof.
  intros A l. induction l as [|x l IH]; intros i j v H.
  - destruct j; reflexivity.
  - destruct i as [|i], j as [|j]; simpl; try reflexivity.
    + contradiction H; reflexivity.
    + apply IH. intro E. apply H. now f_equal.
Qed.

Lemma swap_Permutation :
  forall (A : Type) i j (x : list A), Permutation (swap i j x) x.
Proof.
  intros A i j x. unfold swap.
  destruct (nth_error x i) as [a|] eqn:Hi; [|reflexivity].
  destruct (nth_error x j) as [b|] eqn:Hj; [|reflexivity].
  apply Permutation_cons_inv with (a := a).
  assert (Hi' : nth_error (list_set j a x) i = Some a).
  { destruct (Nat.eq_dec i j) as [->|Hne].
    - eapply nth_error_list_set_same; eassumption.
    - rewrite nth_error_list_set_other; assumption. }
  symmetry.
  transitivity (b :: list_set j a x).
  - now apply list_set_extract.
  - now apply list_set_extract.
Qed.

Lemma shuffle_loop_Permutation :
  forall (A : Type) i (x : list A) r, Permutation (fst (shuffle_loop i x r)) x.
Proof.
  intros A i. induction i as [|i IH]; intros x r; simpl.
  - reflexivity.
  - rewrite IH. apply swap_Permutation.
Qed.

Lemma shuffle_Permutation :
  forall (A : Type) (x : list A) r, Permutation (fst (shuffle x r)) x.
Proof. intros; apply shuffle_loop_Permutation. Qed.

(* ================================================================== *)
(** ** Dictionaries and ranges *)

Lemma range_In : forall n k, In k (range n) <-> 0 <= k < n.
Proof.
  intros n k. unfold range. rewrite in_map_iff. split.
  - intros [i [<- Hi]]. apply in_seq in Hi. lia.
  - intros H. exists (Z.to_nat k). split; [lia|]. apply in_seq. lia.
Qed.

Lemma range_NoDup : forall n, NoDup (range n).
Proof.
  intro n. unfold range. apply Finite.Injective_map_NoDup.
  - intros a b H. lia.
  - apply seq_NoDup.
Qed.

(** The keys of [range n] come in ascending order. *)
Inductive ascending : list Z -> Prop :=
| ascending_nil : ascending []
| ascending_cons : forall k ks,
    (forall k', In k' ks -> k < k') -> ascending ks -> ascending (k :: ks).

Lemma ascending_map_seq :
  forall len start, ascending (map Z.of_nat (seq start len)).
Proof.
  induction len as [|len IH]; intro start; simpl; constructor.
  - intros k' Hk'. apply in_map_iff in Hk' as [i [<- Hi]].
    apply in_seq in Hi. lia.
  - apply IH.
Qed.

Lemma range_ascending : forall n, ascending (range n).
Proof. intro n. apply ascending_map_seq. Qed.

(** A dictionary whose keys are [ks] and whose value at [k] is [f k]. *)
Definition table {V} (ks : list Z) (f : Z -> V) : dict V := map (fun k => (k, f k)) ks.

Lemma keys_table : forall V ks (f : Z -> V), keys (table ks f) = ks.
Proof.
  intros V ks f. unfold keys, table. rewrite map_map. simpl. apply map_id.
Qed.

Lemma dict_get_table :
  forall V ks (f : Z -> V) k, In k ks -> dict_get k (table ks f) = Some (f k).
Proof.
  intros V ks f k. induction ks as [|k' ks IH]; simpl; intro H; [contradiction|].
  destruct (Z.eqb_spec k' k) as [->|Hne]; [reflexivity|].
  destruct H as [H|H]; [contradiction|auto].
Qed.

Lemma dict_get_table_absent :
  forall V ks (f : Z -> V) k, ~ In k ks -> dict_get k (table ks f) = None.
Proof.
  intros V ks f k. induction ks as [|k' ks IH]; simpl; intro H; [reflexivity|].
  destruct (Z.eqb_spec k' k) as [->|Hne].
  - exfalso. apply H. now left.
  - apply IH. intro Hin. apply H. now right.
Qed.

Definition override {V} (f : Z -> V) (k : Z) (v : V) : Z -> V :=
  fun k' => if k' =? k then v else f k'.

Lemma table_ext :
  forall V ks (f g : Z -> V),
    (forall k, In k ks -> f k = g k) -> table ks f = table ks g.
Proof.
  intros V ks f g H. unfold table. apply map_ext_in.
  intros k Hk. now rewrite H.
Qed.

Lemma dict_set_table :
  forall V ks (f : Z -> V) k v,
    NoDup ks -> In k ks -> dict_set k v (table ks f) = table ks (override f k v).
Proof.
  intros V ks f k v. induction ks as [|k' ks IH]; simpl; intros Hnd Hin; [contradiction|].
  inversion Hnd as [|? ? Hnotin Hnd']; subst.
  unfold override at 1.
  destruct (Z.eqb_spec k' k) as [->|Hne].
  - f_equal. apply table_ext. intros k'' Hk''. unfold override.
    destruct (Z.eqb_spec k'' k) as [->|]; [contradiction|reflexivity].
  - f_equal. destruct Hin as [Hin|Hin]; [contradiction|]. now apply IH.
Qed.

Lemma dict_set_append :
  forall V (d : dict V) k v,
    ~ In k (keys d) -> dict_set k v d = d ++ [(k, v)].
Proof.
  intros V d k v. induction d as [|[k' v'] d IH]; simpl; intro H; [reflexivity|].
  destruct (Z.eqb_spec k' k) as [->|Hne].
  - exfalso. apply H. now left.
  - f_equal. apply IH. intro Hin. apply H. now right.
Qed.

(** A dictionary with distinct keys is the table of its own lookups. *)
Lemma dict_as_table :
  forall V (d : dict V) (dflt : V),
    NoDup (keys d) ->
    d = table (keys d) (fun k => match dict_get k d with Some v => v | None => dflt end).
Proof.
  intros V d dflt. induction d as [|[k v] d IH]; simpl; intro Hnd; [reflexivity|].
  inversion Hnd as [|? ? Hnotin Hnd']; subst.
  rewrite Z.eqb_refl. f_equal.
  rewrite (IH Hnd') at 1. apply table_ext.
  intros k' Hk'. destruct (Z.eqb_spec k k') as [->|]; [contradiction|reflexivity].
Qed.

(* ================================================================== *)
(** ** The buckets of the partitioned scheduler *)

Definition no_bucket : Z -> list nat := fun _ => [].

Lemma reset_stages_fresh :
  forall ps done,
    NoDup (done ++ ps) ->
    reset_stages ps (table done no_bucket) = table (done ++ ps) no_bucket.
Proof.
  induction ps as [|p ps IH]; intros done Hnd; simpl.
  - now rewrite app_nil_r.
  - rewrite dict_set_append.
    + change (table done no_bucket ++ [(p, [])]) with
        (table done no_bucket ++ table [p] no_bucket).
      unfold table at 1 2. rewrite <- map_app. fold (table (done ++ [p]) no_bucket).
      rewrite IH by (rewrite <- app_assoc; exact Hnd).
      now rewrite <- app_assoc.
    + rewrite keys_table. intro Hin.
      apply NoDup_remove_2 in Hnd. apply Hnd, in_or_app. now left.
Qed.

Lemma reset_stages_existing :
  forall ps ks (g : Z -> list nat),
    NoDup ks -> incl ps ks ->
    exists g',
      reset_stages ps (table ks g) = table ks g'
      /\ (forall k, In k ps -> g' k = [])
      /\ (forall k, ~ In k ps -> g' k = g k).
Proof.
  induction ps as [|p ps IH]; intros ks g Hnd Hincl; simpl.
  - exists g. split; [reflexivity|split; [intros k []|reflexivity]].
  - rewrite dict_set_table by (auto; apply Hincl; now left).
    destruct (IH ks (override g p []) Hnd) as [g' [Heq [Hin Hout]]].
    { intros k Hk. apply Hincl. now right. }
    exists g'. split; [exact Heq|split].
    + intros k [->|Hk].
      * destruct (in_dec Z.eq_dec k ps) as [Hk|Hk]; [now apply Hin|].
        rewrite (Hout k Hk). unfold override. now rewrite Z.eqb_refl.
      * now apply Hin.
    + intros k Hk. rewrite Hout by (intro; apply Hk; now right).
      unfold override. destruct (Z.eqb_spec k p) as [->|]; [|reflexivity].
      exfalso. apply Hk. now left.
Qed.

(** The first loop of [step] leaves one empty bucket per partition, in
    ascending order, whatever the buckets held before. *)
Lemma reset_stages_range :
  forall n (st : dict (list nat)),
    st = [] \/ keys st = range n ->
    reset_stages (range n) st = table (range n) no_bucket.
Proof.
  intros n st [->|Hkeys].
  - apply (reset_stages_fresh (range n) []). simpl. apply range_NoDup.
  - assert (Hnd : NoDup (keys st)) by (rewrite Hkeys; apply range_NoDup).
    rewrite (dict_as_table st [] Hnd), Hkeys.
    destruct (@reset_stages_existing (range n) (range n)
                (fun k => match dict_get k st with Some v => v | None => [] end))
      as [g' [Heq [Hin _]]]; [apply range_NoDup|apply incl_refl|].
    rewrite Heq. apply table_ext. intros k Hk. now apply Hin.
Qed.

(** The ids registered with earmark [k], in registry order. *)
Definition ids_with (k : Z) (agents : list (nat * Z)) : list nat :=
  map fst (filter (fun a => snd a =? k) agents).

Lemma fill_stages_table :
  forall agents ks (f : Z -> list nat),
    NoDup ks ->
    (forall a, In a agents -> In (snd a) ks) ->
    fill_stages agents (table ks f) = Ok (table ks (fun k => f k ++ ids_with k agents)).
Proof.
  induction agents as [|[id e] rest IH]; intros ks f Hnd Hin; simpl.
  - f_equal. apply table_ext. intros k _. now rewrite app_nil_r.
  - assert (He : In e ks) by (apply (Hin (id, e)); now left).
    rewrite dict_get_table by exact He. cbv iota beta.
    rewrite dict_set_table by assumption.
    rewrite IH by (auto; intros a Ha; apply Hin; now right).
    f_equal. apply table_ext. intros k Hk. unfold override, ids_with. simpl.
    rewrite (Z.eqb_sym e k).
    destruct (Z.eqb_spec k e) as [->|]; simpl; [now rewrite <- app_assoc|reflexivity].
Qed.

Lemma fill_stages_KeyError :
  forall pre id e post ks (f : Z -> list nat),
    NoDup ks ->
    (forall a, In a pre -> In (snd a) ks) ->
    ~ In e ks ->
    fill_stages (pre ++ (id, e) :: post) (table ks f) = Raise (KeyError e).
Proof.
  induction pre as [|[id' e'] pre IH]; intros id e post ks f Hnd Hpre He; simpl.
  - now rewrite dict_get_table_absent.
  - assert (He' : In e' ks) by (apply (Hpre (id', e')); now left).
    rewrite dict_get_table by exact He'. cbv iota beta.
    rewrite dict_set_table by assumption.
    apply IH; auto. intros a Ha. apply Hpre. now right.
Qed.

(** The buckets, taken in key order, hold every registered id once. *)
Lemma buckets_Permutation :
  forall ks agents,
    NoDup ks ->
    (forall a, In a agents -> In (snd a) ks) ->
    Permutation (List.concat (map (fun k => ids_with k agents) ks)) (map fst agents).
Proof.
  intros ks agents Hnd. induction agents as [|[id e] rest IH]; intro Hin.
  - unfold ids_with; simpl. clear Hnd Hin.
    induction ks as [|k ks IHks]; simpl; [constructor|exact IHks].
  - assert (He : In e ks) by (apply (Hin (id, e)); now left).
    assert (IH' := IH (fun a Ha => Hin a (or_intror Ha))). clear IH.
    apply in_split in He as [k1 [k2 ->]].
    apply NoDup_remove_2 in Hnd.
    rewrite map_app, concat_app in *. simpl map in *. simpl List.concat in *.
    assert (Hother : forall k l, ~ In e l -> In k l ->
              ids_with k ((id, e) :: rest) = ids_with k rest).
    { intros k l Hl Hk. unfold ids_with. simpl.
      destruct (Z.eqb_spec e k) as [->|]; [contradiction|reflexivity]. }
    rewrite (map_ext_in _ (fun k => ids_with k rest) k1)
      by (intros k Hk; apply (Hother k k1); auto; intro; apply Hnd, in_or_app; now left).
    rewrite (map_ext_in _ (fun k => ids_with k rest) k2)
      by (intros k Hk; apply (Hother k k2); auto; intro; apply Hnd, in_or_app; now right).
    unfold ids_with at 2. simpl. rewrite Z.eqb_refl. simpl.
    fold (ids_with e rest).
    apply Permutation_sym, Permutation_cons_app, Permutation_sym. exact IH'.
Qed.

(* ================================================================== *)
(** ** Order of activation in the partitioned scheduler *)

(** [a] is activated, and done, before [b] starts. *)
Definition precedes (a b : nat) (order : list nat) : Prop :=
  exists l1 l2 l3, order = l1 ++ a :: l2 ++ b :: l3.

Lemma Forall2_weaken_In :
  forall (A B : Type) (P Q : A -> B -> Prop) l1 l2,
    Forall2 P l1 l2 ->
    (forall a b, In b l2 -> P a b -> Q a b) ->
    Forall2 Q l1 l2.
Proof.
  intros A B P Q l1 l2 H. induction H as [|a b l1 l2 Hab H IH]; intro Himp.
  - constructor.
  - constructor.
    + apply Himp; [now left|exact Hab].
    + apply IH. intros a' b' Hb'. apply Himp. now right.
Qed.

Lemma concat_blocks_Permutation :
  forall (g : Z -> list nat) blocks ks,
    Forall2 (fun blk k => Permutation blk (g k)) blocks ks ->
    Permutation (List.concat blocks) (List.concat (map g ks)).
Proof.
  intros g blocks ks H. induction H; simpl.
  - constructor.
  - now apply Permutation_app.
Qed.

Lemma ids_with_In :
  forall k agents x, In x (ids_with k agents) -> In (x, k) agents.
Proof.
  intros k agents x H. unfold ids_with in H.
  apply in_map_iff in H as [[x' k'] [Hx Hf]]. simpl in Hx. subst x'.
  apply filter_In in Hf as [Hin Hk]. simpl in Hk.
  apply Z.eqb_eq in Hk. now subst k'.
Qed.

Lemma registry_functional :
  forall (agents : list (nat * Z)) x p q,
    NoDup (map fst agents) -> In (x, p) agents -> In (x, q) agents -> p = q.
Proof.
  induction agents as [|[y e] rest IH]; intros x p q Hnd Hp Hq; [contradiction|].
  simpl in Hnd. inversion Hnd as [|? ? Hnotin Hnd']; subst.
  destruct Hp as [Hp|Hp], Hq as [Hq|Hq].
  - congruence.
  - injection Hp as -> ->. exfalso. apply Hnotin.
    change x with (fst (x, q)). now apply in_map.
  - injection Hq as -> ->. exfalso. apply Hnotin.
    change x with (fst (x, p)). now apply in_map.
  - eauto.
Qed.

Lemma precedes_app_l :
  forall a b pre l, precedes a b l -> precedes a b (pre ++ l).
Proof.
  intros a b pre l [l1 [l2 [l3 ->]]].
  exists (pre ++ l1), l2, l3. now rewrite <- app_assoc.
Qed.

Lemma block_keys :
  forall (agents : list (nat * Z)) blocks ks,
    Forall2 (fun blk k => forall x, In x blk -> In (x, k) agents) blocks ks ->
    forall x, In x (List.concat blocks) -> exists k, In k ks /\ In (x, k) agents.
Proof.
  intros agents blocks ks H. induction H as [|blk k blocks ks Hblk H IH]; intros x Hx.
  - contradiction.
  - simpl in Hx. apply in_app_or in Hx as [Hx|Hx].
    + exists k. split; [now left|now apply Hblk].
    + destruct (IH x Hx) as [k' [Hk' Hxk']]. exists k'. split; [now right|exact Hxk'].
Qed.

Lemma concat_precedes :
  forall (agents : list (nat * Z)) ks blocks,
    NoDup (map fst agents) ->
    ascending ks ->
    Forall2 (fun blk k => forall x, In x blk -> In (x, k) agents) blocks ks ->
    forall a b p q,
      In (a, p) agents -> In (b, q) agents -> p < q ->
      In a (List.concat blocks) -> In b (List.concat blocks) ->
      precedes a b (List.concat blocks).
Proof.
  intros agents ks blocks Hnd Hasc H.
  revert Hasc. induction H as [|blk k blocks ks Hblk H IH]; intros Hasc a b p q Ha Hb Hpq Hina Hinb.
  - contradiction.
  - inversion Hasc as [|? ? Hlt Hasc']; subst.
    assert (Hlater : forall x e, In (x, e) agents -> In x (List.concat blocks) -> k < e).
    { intros x e Hxe Hx.
      destruct (@block_keys agents blocks ks H x Hx) as [k' [Hk' Hxk']].
      rewrite (@registry_functional agents x e k' Hnd Hxe Hxk'). now apply Hlt. }
    simpl in *. apply in_app_or in Hina, Hinb.
    destruct Hina as [Hina|Hina].
    + assert (p = k) by (eapply registry_functional; eauto). subst p.
      destruct Hinb as [Hinb|Hinb].
      * assert (q = k) by (eapply registry_functional; eauto). lia.
      * apply in_split in Hina as [l1 [l2 ->]].
        apply in_split in Hinb as [m1 [m2 ->]].
        exists l1, (l2 ++ m1), m2. now rewrite <- !app_assoc.
    + pose proof (Hlater a p Ha Hina) as Hkp.
      destruct Hinb as [Hinb|Hinb].
      * assert (q = k) by (eapply registry_functional; eauto). lia.
      * apply precedes_app_l. eapply IH; eauto.
Qed.

Section GrahamOrder.
Variable Env : Type.
Variable registered : Env -> list (nat * Z).
Variable agent_step : nat -> M (Random * Env) unit.

(** What an observer of the agents sees: [log] lists the ids whose
    [step()] has run to completion, in order. *)
Variable log : Env -> list nat.

(** The update of [id] returns and is recorded. *)
Definition completes (id : nat) : Prop :=
  forall w, exists w',
    agent_step id w = Ok (tt, w') /\ log (snd w') = log (snd w) ++ [id].

Lemma activate_log :
  forall ids w,
    (forall id, In id ids -> completes id) ->
    exists w', activate agent_step ids w = Ok (tt, w')
               /\ log (snd w') = log (snd w) ++ ids.
Proof.
  induction ids as [|id ids IH]; intros w Hok; simpl.
  - exists w. split; [reflexivity|now rewrite app_nil_r].
  - destruct (Hok id (or_introl eq_refl) w) as [w1 [Hstep Hlog]].
    destruct (IH w1 (fun i Hi => Hok i (or_intror Hi))) as [w2 [Hrest Hlog2]].
    exists w2. unfold bind. rewrite Hstep, Hrest. split; [reflexivity|].
    rewrite Hlog2, Hlog, <- app_assoc. reflexivity.
Qed.

Lemma run_stages_log :
  forall todo ks (g : Z -> list nat) w,
    NoDup ks -> NoDup todo -> incl todo ks ->
    (forall k id, In k todo -> In id (g k) -> completes id) ->
    exists st' w' blocks,
      run_stages agent_step todo (table ks g) w = Ok (st', w')
      /\ keys st' = ks
      /\ log (snd w') = log (snd w) ++ List.concat blocks
      /\ Forall2 (fun blk k => Permutation blk (g k)) blocks todo.
Proof.
  induction todo as [|k todo IH]; intros ks g w Hks Htodo Hincl Hok.
  - exists (table ks g), w, []. simpl. unfold ret.
    repeat split; [apply keys_table|now rewrite app_nil_r|constructor].
  - inversion Htodo as [|? ? Hnotin Htodo']; subst.
    assert (Hk : In k ks) by (apply Hincl; now left).
    cbn [run_stages]. rewrite (dict_get_table ks g k Hk).
    unfold bind at 1. unfold model_shuffle.
    pose proof (shuffle_Permutation (g k) (fst w)) as Hperm.
    destruct (shuffle (g k) (fst w)) as [shuffled r]. simpl in Hperm.
    destruct (@activate_log shuffled (r, snd w)) as [w1 [Hact Hlog1]].
    { intros id Hid. apply (Hok k id); [now left|].
      eapply Permutation_in; [exact Hperm|exact Hid]. }
    unfold bind at 1. rewrite Hact.
    rewrite dict_set_table by assumption.
    destruct (IH ks (override g k shuffled) w1 Hks Htodo')
      as [st' [w' [blocks [Hrun [Hkeys [Hlog Hblocks]]]]]].
    { intros k' Hk'. apply Hincl. now right. }
    { intros k' id Hk' Hid. apply (Hok k' id); [now right|].
      unfold override in Hid.
      destruct (Z.eqb_spec k' k) as [->|]; [contradiction|exact Hid]. }
    exists st', w', (shuffled :: blocks). rewrite Hrun.
    split; [reflexivity|split; [exact Hkeys|split]].
    + rewrite Hlog, Hlog1. simpl. now rewrite <- app_assoc.
    + constructor; [exact Hperm|].
      apply Forall2_weaken_In with (1 := Hblocks).
      intros blk k' Hk' Hp. unfold override in Hp.
      destruct (Z.eqb_spec k' k) as [->|]; [contradiction|exact Hp].
Qed.

(** C2. One call of [GrahamActivation.step] on a scheduler whose agents all
    carry an earmark in [[0, partitions)] and whose updates return: every
    registered agent is updated exactly once (the ids run form a
    permutation of the registry keys, which are distinct), an agent of a
    lower partition is done before any agent of a higher one starts (in
    particular partition [p] before [p + 1]), the step counter is then
    incremented, and what the buckets held before the call plays no role. *)
Theorem graham_step_partition_order :
  forall (self : GrahamActivation) (w : Random * Env),
    NoDup (map fst (registered (snd w))) ->
    (forall a, In a (registered (snd w)) -> 0 <= snd a < partitions self) ->
    stages self = [] \/ keys (stages self) = range (partitions self) ->
    (forall id, In id (map fst (registered (snd w))) -> completes id) ->
    exists self' w' order,
      GrahamActivation_step registered agent_step self w = Ok (self', w')
      /\ log (snd w') = log (snd w) ++ order
      /\ Permutation order (map fst (registered (snd w)))
      /\ (forall a b p q,
             In (a, p) (registered (snd w)) -> In (b, q) (registered (snd w)) ->
             p < q -> precedes a b order)
      /\ steps self' = steps self + 1
      /\ time self' = time self + 1
      /\ partitions self' = partitions self
      /\ keys (stages self') = range (partitions self).
Proof.
  intros self w Hnd Hrange Hfresh Hok.
  set (agents := registered (snd w)) in *.
  set (ks := range (partitions self)).
  assert (Hks : NoDup ks) by apply range_NoDup.
  assert (Hin : forall a, In a agents -> In (snd a) ks).
  { intros a Ha. apply range_In. now apply Hrange. }
  destruct (@run_stages_log ks ks (fun k => no_bucket k ++ ids_with k agents) w)
    as [st' [w' [blocks [Hrun [Hkeys [Hlog Hblocks]]]]]];
    [assumption|assumption|apply incl_refl| |].
  { intros k id _ Hid. apply Hok. simpl in Hid. apply ids_with_In in Hid.
    change id with (fst (id, k)). now apply in_map. }
  exists (mkGraham st' (partitions self) (steps self + 1) (time self + 1)), w',
    (List.concat blocks).
  assert (Hperm : Permutation (List.concat blocks) (map fst agents)).
  { rewrite (concat_blocks_Permutation _ Hblocks). simpl.
    now apply buckets_Permutation. }
  split; [|split; [exact Hlog|split; [exact Hperm|split; [|now simpl]]]].
  - unfold GrahamActivation_step, bind, gets, lift. fold agents.
    rewrite (reset_stages_range (partitions self) Hfresh). fold ks.
    rewrite (fill_stages_table agents no_bucket Hks Hin).
    rewrite keys_table, Hrun. reflexivity.
  - intros a b p q Ha Hb Hpq.
    apply (@concat_precedes agents ks blocks Hnd (range_ascending _)) with (p := p) (q := q);
      auto.
    + apply Forall2_weaken_In with (1 := Hblocks).
      intros blk k _ Hp x Hx. apply ids_with_In.
      eapply Permutation_in in Hx; [|exact Hp]. exact Hx.
    + eapply Permutation_in; [symmetry; exact Hperm|].
      change a with (fst (a, p)). now apply in_map.
    + eapply Permutation_in; [symmetry; exact Hperm|].
      change b with (fst (b, q)). now apply in_map.
Qed.

End GrahamOrder.

(** The scheduler observed through a log of completed updates. *)
Definition cohort : list (nat * Z) := [(0%nat, 1); (1%nat, 0); (2%nat, 1); (3%nat, 0)].

Definition record_update (id : nat) : M (Random * list nat) unit :=
  modify (fun w : Random * list nat => (fst w, snd w ++ [id])).

Lemma graham_step_partition_order_witness :
  exists self' w' order,
    GrahamActivation_step (fun _ => cohort) record_update
      (GrahamActivation_init 2) (seeded [1; 0]%nat, []) = Ok (self', w')
    /\ snd w' = [] ++ order
    /\ Permutation order (map fst cohort)
    /\ (forall a b p q, In (a, p) cohort -> In (b, q) cohort -> p < q ->
                        precedes a b order)
    /\ steps self' = 0 + 1
    /\ time self' = 0 + 1
    /\ partitions self' = 2
    /\ keys (stages self') = range 2.
Proof.
  apply (@graham_step_partition_order (list nat) (fun _ => cohort) record_update
           (fun l => l) (GrahamActivation_init 2) (seeded [1; 0]%nat, [])).
  - simpl. repeat constructor; simpl; intuition discriminate.
  - simpl. intros a Ha. repeat (destruct Ha as [<-|Ha]; [simpl; lia|]). contradiction.
  - left. reflexivity.
  - intros id _ w. exists (fst w, snd w ++ [id]). split; reflexivity.
Defined.

(** A concrete run of the same step: partition 0 (ids 1 and 3) is
    activated before partition 1 (ids 0 and 2). *)
Example graham_step_order_example :
  match GrahamActivation_step (fun _ => cohort) record_update
          (GrahamActivation_init 2) (seeded [1; 0]%nat, []) with
  | Ok (self', w') => (snd w', steps self')
  | Raise _ => ([], 0)
  end = ([1; 3; 2; 0]%nat, 1).
Proof. vm_compute. reflexivity. Qed.

(* ================================================================== *)
(** ** Earmarks outside the partitions *)

(** Filling the buckets stops at the first registered agent whose earmark
    is not a partition index, before any agent is updated. *)
Lemma graham_step_KeyError :
  forall (Env : Type) (registered : Env -> list (nat * Z))
         (agent_step : nat -> M (Random * Env) unit)
         (self : GrahamActivation) (w : Random * Env) pre id e post,
    registered (snd w) = pre ++ (id, e) :: post ->
    (forall a, In a pre -> 0 <= snd a < partitions self) ->
    ~ (0 <= e < partitions self) ->
    stages self = [] \/ keys (stages self) = range (partitions self) ->
    GrahamActivation_step registered agent_step self w = Raise (KeyError e).
Proof.
  intros Env registered agent_step self w pre id e post Hreg Hpre He Hfresh.
  unfold GrahamActivation_step, bind, gets, lift.
  rewrite (reset_stages_range (partitions self) Hfresh), Hreg.
  rewrite fill_stages_KeyError; [reflexivity|apply range_NoDup| |].
  - intros a Ha. apply range_In. now apply Hpre.
  - intro Hin. apply He. now apply range_In.
Qed.

(** C10, amended. Assigning an earmark outside [[0, partitions)] succeeds
    (the attribute then holds that value); the failure is the [KeyError]
    that [GrahamActivation.step] raises for the first such registered agent
    while it fills the buckets. *)
Theorem earmark_rejected_by_step :
  forall (self : GrahamActivation) (r : Random) (m : Model.t) pre a e post,
    Model.agents m = pre ++ Agent.set_earmark e a :: post ->
    (forall b, In b pre -> 0 <= Agent.earmark b < partitions self) ->
    ~ (0 <= e < partitions self) ->
    stages self = [] \/ keys (stages self) = range (partitions self) ->
    Agent.earmark (Agent.set_earmark e a) = e
    /\ GrahamActivation_step registry ISEpiAgent.step self (r, m) = Raise (KeyError e).
Proof.
  intros self r m pre a e post Hagents Hpre He Hfresh.
  split; [reflexivity|].
  apply graham_step_KeyError
    with (pre := map (fun b => (Agent.unique_id b, Agent.earmark b)) pre)
         (id := Agent.unique_id a)
         (post := map (fun b => (Agent.unique_id b, Agent.earmark b)) post);
    try assumption.
  - simpl. unfold registry. rewrite Hagents, map_app. reflexivity.
  - intros x Hx. apply in_map_iff in Hx as [b [<- Hb]]. simpl. now apply Hpre.
Qed.

Definition misfiled : Agent.t := Agent.set_earmark 5 (person 0 DECEASED 10 false 0).

Definition misfiled_town : Model.t := town [misfiled] [0%nat] (numpy []).

Lemma earmark_rejected_by_step_witness :
  Agent.earmark (Agent.set_earmark 5 (person 0 DECEASED 10 false 0)) = 5
  /\ GrahamActivation_step registry ISEpiAgent.step (GrahamActivation_init 2)
       (seeded [], misfiled_town) = Raise (KeyError 5).
Proof.
  apply (@earmark_rejected_by_step (GrahamActivation_init 2) (seeded []) misfiled_town
           [] (person 0 DECEASED 10 false 0) 5 []).
  - reflexivity.
  - intros b [].
  - simpl. lia.
  - left. reflexivity.
Defined.

(** C10 as stated fails: with two partitions, the earmark 5 is stored on
    the agent without complaint, the agent is registered, and the error
    appears only when [step] runs. *)
Lemma earmark_accepted_at_assignment :
  Agent.earmark misfiled = 5
  /\ registry misfiled_town = [(0%nat, 5)]
  /\ GrahamActivation_step registry ISEpiAgent.step (GrahamActivation_init 2)
       (seeded [], misfiled_town) = Raise (KeyError 5).
Proof. repeat split. Qed.

(* ================================================================== *)
(** ** Reasoning about computations that may raise *)

(** From a state satisfying [P], [c] either returns a value and a state
    related by [Q], or raises an exception satisfying [E]. *)
Definition hoare {S A} (P : S -> Prop) (c : M S A) (Q : A -> S -> Prop)
  (E : exn -> Prop) : Prop :=
  forall s, P s -> match c s with
                   | Ok (a, s') => Q a s'
                   | Raise e => E e
                   end.

Lemma hoare_bind :
  forall S A B (P : S -> Prop) (c : M S A) (R : A -> S -> Prop)
         (k : A -> M S B) (Q : B -> S -> Prop) (E : exn -> Prop),
    hoare P c R E -> (forall a, hoare (R a) (k a) Q E) -> hoare P (bind c k) Q E.
Proof.
  intros S A B P c R k Q E Hc Hk s Hs. unfold bind.
  specialize (Hc s Hs). destruct (c s) as [[a s']|e]; [|exact Hc].
  now apply Hk.
Qed.

Lemma hoare_weaken :
  forall S A (P P' : S -> Prop) (c : M S A) (Q Q' : A -> S -> Prop) (E : exn -> Prop),
    hoare P' c Q' E ->
    (forall s, P s -> P' s) -> (forall a s, Q' a s -> Q a s) ->
    hoare P c Q E.
Proof.
  intros S A P P' c Q Q' E H HP HQ s Hs. specialize (H s (HP s Hs)).
  destruct (c s) as [[a s']|e]; auto.
Qed.

Lemma hoare_when :
  forall S (c : bool) (body : M S unit) (P : S -> Prop) (Q : unit -> S -> Prop) E,
    (c = true -> hoare P body Q E) ->
    (c = false -> forall s, P s -> Q tt s) ->
    hoare P (when c body) Q E.
Proof.
  intros S c body P Q E Ht Hf. unfold when. destruct c.
  - now apply Ht.
  - intros s Hs. now apply Hf.
Qed.

(** *** The stage of one agent across the primitive operations *)

Definition stage_at (id : nat) (w : World) : option Stage :=
  option_map Agent.stage (find_agent id (Model.agents (snd w))).

(** An exception other than the fatal exit of the unknown-stage branch. *)
Definition not_exit (e : exn) : Prop :=
  match e with
  | SystemExit _ => False
  | _ => True
  end.

Lemma find_update_agent :
  forall l id id' (f : Agent.t -> Agent.t),
    (forall a, Agent.unique_id (f a) = Agent.unique_id a) ->
    find_agent id' (update_agent id f l)
    = if Nat.eqb id id' then option_map f (find_agent id' l) else find_agent id' l.
Proof.
  induction l as [|a l IH]; intros id id' f Hf; simpl.
  - now destruct (Nat.eqb id id').
  - destruct (Nat.eqb_spec (Agent.unique_id a) id) as [Ha|Ha]; simpl.
    + rewrite Hf, Ha. destruct (Nat.eqb id id'); reflexivity.
    + rewrite IH by exact Hf.
      destruct (Nat.eqb_spec (Agent.unique_id a) id') as [Ha'|Ha'].
      * destruct (Nat.eqb_spec id id') as [->|]; [contradiction|reflexivity].
      * reflexivity.
Qed.

(** An assertion that depends on the world only through the stages. *)
Definition stage_only (P : World -> Prop) : Prop :=
  forall w w', (forall id, stage_at id w' = stage_at id w) -> P w -> P w'.

(** [c] changes no agent's stage and does not take the fatal exit. *)
Definition keeps {A} (c : M World A) : Prop :=
  forall P, stage_only P -> hoare P c (fun _ w => P w) not_exit.

Lemma keeps_bind :
  forall A B (c : M World A) (k : A -> M World B),
    keeps c -> (forall a, keeps (k a)) -> keeps (bind c k).
Proof.
  intros A B c k Hc Hk P HP.
  apply hoare_bind with (R := fun _ w => P w); [now apply Hc|].
  intro a. now apply Hk.
Qed.

Lemma keeps_ret : forall A (a : A), keeps (ret a).
Proof. intros A a P _ w Hw. exact Hw. Qed.

Lemma keeps_when : forall c (body : M World unit), keeps body -> keeps (when c body).
Proof. intros [] body Hb; [exact Hb|apply keeps_ret]. Qed.

Lemma keeps_lift :
  forall A (r : result A), (forall e, r = Raise e -> not_exit e) -> keeps (lift r).
Proof.
  intros A r Hr P _ w Hw. unfold lift. destruct r as [a|e]; [exact Hw|now apply Hr].
Qed.

(** A command whose effect on the world leaves the agents' stages alone. *)
Lemma keeps_frame :
  forall A (c : M World A),
    (forall w, match c w with
               | Ok (_, w') => forall id, stage_at id w' = stage_at id w
               | Raise e => not_exit e
               end) ->
    keeps c.
Proof.
  intros A c Hc P HP w Hw. specialize (Hc w).
  destruct (c w) as [[a w']|e]; [|exact Hc]. now apply (HP w w').
Qed.

Lemma keeps_get_agent : forall id, keeps (get_agent id).
Proof.
  intro id. apply keeps_frame. intro w. unfold get_agent.
  now destruct (find_agent id (Model.agents (snd w))).
Qed.

Lemma keeps_model : forall A (f : Model.t -> A), keeps (model f).
Proof. intros A f. apply keeps_frame. intros w id. reflexivity. Qed.

Lemma keeps_set_grid :
  forall g, keeps (modify (fun w : World => (fst w, Model.set_grid g (snd w)))).
Proof. intro g. apply keeps_frame. intros w id. reflexivity. Qed.

(** A store that does not touch [stage]. *)
Lemma keeps_setattr :
  forall id (f : Agent.t -> Agent.t),
    (forall a, Agent.unique_id (f a) = Agent.unique_id a) ->
    (forall a, Agent.stage (f a) = Agent.stage a) ->
    keeps (setattr id f).
Proof.
  intros id f Hid Hstage. apply keeps_frame. intros w self.
  unfold setattr, modify, stage_at. simpl.
  rewrite find_update_agent by exact Hid.
  destruct (Nat.eqb id self); [|reflexivity].
  destruct (find_agent self (Model.agents (snd w))); simpl; [|reflexivity].
  now rewrite Hstage.
Qed.

Lemma keeps_bernoulli_rvs : forall p, keeps (bernoulli_rvs p).
Proof.
  intro p. apply keeps_frame. intro w. unfold bernoulli_rvs.
  destruct (in_unit_interval p); [intro id; reflexivity|exact I].
Qed.

Lemma keeps_poisson_rvs : forall mu, keeps (poisson_rvs mu).
Proof.
  intro mu. apply keeps_frame. intro w. unfold poisson_rvs.
  destruct (PrimFloat.leb 0 mu); [intro id; reflexivity|exact I].
Qed.

Lemma keeps_random_choice : forall A (seq : list A), keeps (random_choice seq).
Proof.
  intros A seq. apply keeps_frame. intro w. unfold random_choice.
  destruct seq; [exact I|intro id; reflexivity].
Qed.

Lemma move_agent_not_exit :
  forall g id old new e, MultiGrid.move_agent g id old new = Raise e -> not_exit e.
Proof.
  intros g id old new e. unfold MultiGrid.move_agent.
  destruct (MultiGrid.remove_first id _); [discriminate|].
  intro H. injection H as <-. exact I.
Qed.

Ltac keeps_step :=
  match goal with
  | |- keeps (bind _ _) => apply keeps_bind; [|intro]
  | |- keeps (ret _) => apply keeps_ret
  | |- keeps (when _ _) => apply keeps_when
  | |- keeps (get_agent _) => apply keeps_get_agent
  | |- keeps (model _) => apply keeps_model
  | |- keeps (setattr _ _) => apply keeps_setattr; intro; reflexivity
  | |- keeps (bernoulli_rvs _) => apply keeps_bernoulli_rvs
  | |- keeps (poisson_rvs _) => apply keeps_poisson_rvs
  | |- keeps (random_choice _) => apply keeps_random_choice
  | |- keeps (modify _) => apply keeps_set_grid
  | |- keeps (if ?c then _ else _) => destruct c
  end.

Lemma keeps_move : forall self, keeps (ISEpiAgent.move self).
Proof.
  intro self. unfold ISEpiAgent.move. repeat keeps_step.
  apply keeps_lift. apply move_agent_not_exit.
Qed.

Lemma is_contagious_raises :
  forall a, ISEpiAgent.is_contagious a = Raise (AttributeError "EXPOSED").
Proof. reflexivity. Qed.

(** As [is_contagious] raises on every agent, the scan returns only from
    an empty cell, and then has done nothing. *)
Lemma scan_returns :
  forall self cellmates w found w',
    ISEpiAgent.scan self cellmates w = Ok (found, w') ->
    cellmates = [] /\ found = false /\ w' = w.
Proof.
  intros self [|c rest] w found w' H; simpl in H.
  - injection H as <- <-. auto.
  - exfalso. unfold bind, get_agent in H.
    destruct (find_agent c (Model.agents (snd w))); discriminate H.
Qed.

Lemma keeps_scan : forall self cellmates, keeps (ISEpiAgent.scan self cellmates).
Proof.
  intros self cellmates. apply keeps_frame. intro w.
  destruct (ISEpiAgent.scan self cellmates w) as [[found w']|e] eqn:H.
  - apply scan_returns in H as [_ [_ ->]]. intro id. reflexivity.
  - destruct cellmates as [|c rest]; simpl in H; [discriminate H|].
    unfold bind, get_agent in H.
    destruct (find_agent c (Model.agents (snd w))); simpl in H;
      injection H as <-; exact I.
Qed.

(* ================================================================== *)
(** ** The stage machine of [ISEpiAgent.step] *)

(** The stage changes one call of [step] can make. *)
Definition may_become (before after : Stage) : bool :=
  match before, after with
  | SUSCEPTIBLE, SUSCEPTIBLE | SUSCEPTIBLE, INFECTED | SUSCEPTIBLE, RECOVERED => true
  | INFECTED, INFECTED | INFECTED, RECOVERED => true
  | RECOVERED, RECOVERED => true
  | DECEASED, DECEASED => true
  | _, _ => false
  end.

Ltac stage_only_tac :=
  let w := fresh "w" in let w' := fresh "w'" in let H := fresh "H" in
  unfold stage_only; intros w w' H; rewrite !H; auto.

Lemma hoare_pure_pre :
  forall S A (P : S -> Prop) (phi : Prop) (c : M S A) Q E,
    (phi -> hoare P c Q E) -> hoare (fun s => P s /\ phi) c Q E.
Proof. intros S A P phi c Q E H s [Hs Hphi]. now apply H. Qed.

Lemma get_self_stage :
  forall self s,
    hoare (fun w => stage_at self w = Some s) (get_agent self)
          (fun a w => stage_at self w = Some s /\ Agent.stage a = s) not_exit.
Proof.
  intros self s w Hw. unfold get_agent. unfold stage_at in Hw.
  destruct (find_agent self (Model.agents (snd w))) as [a|] eqn:Hfind; [|exact I].
  split; [unfold stage_at; now rewrite Hfind|].
  simpl in Hw. now injection Hw.
Qed.

Lemma keeps_at :
  forall A (c : M World A) self s,
    keeps c ->
    hoare (fun w => stage_at self w = Some s) c
          (fun _ w => stage_at self w = Some s) not_exit.
Proof. intros A c self s Hc. apply Hc. stage_only_tac. Qed.

Lemma setattr_stage_spec :
  forall self s s',
    hoare (fun w => stage_at self w = Some s) (setattr self (Agent.set_stage s'))
          (fun _ w => stage_at self w = Some s') not_exit.
Proof.
  intros self s s' w Hw. unfold setattr, modify, stage_at in *. simpl.
  rewrite find_update_agent by reflexivity. rewrite Nat.eqb_refl.
  destruct (find_agent self (Model.agents (snd w))); [reflexivity|discriminate Hw].
Qed.

Lemma step_infected_spec :
  forall self,
    hoare (fun w => stage_at self w = Some INFECTED) (ISEpiAgent.step_infected self)
          (fun _ w => stage_at self w = Some INFECTED
                      \/ stage_at self w = Some RECOVERED) not_exit.
Proof.
  intro self. unfold ISEpiAgent.step_infected.
  eapply hoare_bind; [apply get_self_stage|]. intro a.
  apply hoare_pure_pre. intros _.
  destruct (_ <? _).
  - eapply hoare_bind; [apply keeps_at; keeps_step|]. intros ?.
    eapply hoare_bind; [apply keeps_at; keeps_step|]. intro severe.
    apply hoare_when.
    + intros _ w _. exact I.
    + intros _ w Hw. now left.
  - eapply hoare_weaken; [apply setattr_stage_spec with (s := INFECTED)| |]; auto.
Qed.

Lemma step_susceptible_spec :
  forall self,
    hoare (fun w => stage_at self w = Some SUSCEPTIBLE)
          (ISEpiAgent.step_susceptible self)
          (fun _ w => stage_at self w = Some SUSCEPTIBLE
                      \/ stage_at self w = Some INFECTED) not_exit.
Proof.
  intro self. unfold ISEpiAgent.step_susceptible, ISEpiAgent.exposure.
  apply hoare_bind with
    (R := fun _ w => stage_at self w = Some SUSCEPTIBLE
                     \/ stage_at self w = Some INFECTED).
  - eapply hoare_bind; [apply keeps_at; keeps_step|]. intro a.
    eapply hoare_bind; [apply keeps_at; keeps_step|]. intro g.
    eapply hoare_bind; [apply keeps_at; apply keeps_scan|]. intro infected_contact.
    apply hoare_when; [intros _|intros _ w Hw; now left].
    eapply hoare_bind; [apply keeps_at; keeps_step|]. intro a'.
    eapply hoare_bind; [apply keeps_at; keeps_step|]. intro infect.
    apply hoare_when; [intros _|intros _ w Hw; now left].
    eapply hoare_weaken; [apply setattr_stage_spec with (s := SUSCEPTIBLE)| |]; auto.
  - intros ?.
    assert (Hrest : keeps (a0 <- get_agent self ;;
                           when (negb (Agent.isolated a0)) (ISEpiAgent.move self))).
    { repeat keeps_step. apply keeps_move. }
    apply Hrest. stage_only_tac.
Qed.

Lemma keeps_step_recovered : forall self, keeps (ISEpiAgent.step_recovered self).
Proof.
  intro self. unfold ISEpiAgent.step_recovered. repeat keeps_step. apply keeps_move.
Qed.

(** After the returning-traveller trial the agent keeps its stage, or was
    SUSCEPTIBLE and is now INFECTED. *)
Definition inbound_trial (self : nat) (a : Agent.t) : M World unit :=
  when (Stage_eqb (Agent.stage a) SUSCEPTIBLE)
    (rate <- model Model.rate_inbound ;;
     inbound <- bernoulli_rvs rate ;;
     when inbound (setattr self (Agent.set_stage INFECTED))).

Lemma inbound_trial_spec :
  forall self a s,
    Agent.stage a = s ->
    hoare (fun w => stage_at self w = Some s) (inbound_trial self a)
          (fun _ w => stage_at self w = Some s
                      \/ (s = SUSCEPTIBLE /\ stage_at self w = Some INFECTED)) not_exit.
Proof.
  intros self a s Ha. unfold inbound_trial.
  apply hoare_when; [intro Hs|intros _ w Hw; now left].
  apply Stage_eqb_eq in Hs. rewrite Ha in Hs.
  eapply hoare_bind; [apply keeps_at; keeps_step|]. intro rate.
  eapply hoare_bind; [apply keeps_at; keeps_step|]. intro inbound.
  apply hoare_when; [intros _|intros _ w Hw; now left].
  eapply hoare_weaken; [apply setattr_stage_spec with (s := s)| |]; auto.
Qed.

(** The stage changes of the branch taken after the trial. *)
Definition progresses (before after : Stage) : bool :=
  match before, after with
  | SUSCEPTIBLE, SUSCEPTIBLE | SUSCEPTIBLE, INFECTED => true
  | INFECTED, INFECTED | INFECTED, RECOVERED => true
  | RECOVERED, RECOVERED => true
  | DECEASED, DECEASED => true
  | _, _ => false
  end.

Lemma branch_spec :
  forall self a s,
    Agent.stage a = s ->
    hoare (fun w => stage_at self w = Some s)
      (if Stage_eqb (Agent.stage a) SUSCEPTIBLE then ISEpiAgent.step_susceptible self
       else if Stage_eqb (Agent.stage a) INFECTED then ISEpiAgent.step_infected self
       else if Stage_eqb (Agent.stage a) RECOVERED then ISEpiAgent.step_recovered self
       else if Stage_eqb (Agent.stage a) DECEASED then ret tt
       else raise (SystemExit "Unknown stage: aborting."))
      (fun _ w => exists s', stage_at self w = Some s' /\ progresses s s' = true)
      not_exit.
Proof.
  intros self a s ->. destruct s; simpl.
  - eapply hoare_weaken; [apply step_susceptible_spec|auto|].
    intros ? w [H|H]; eexists; (split; [exact H|reflexivity]).
  - eapply hoare_weaken; [apply step_infected_spec|auto|].
    intros ? w [H|H]; eexists; (split; [exact H|reflexivity]).
  - eapply hoare_weaken;
      [apply (@keeps_at _ _ self RECOVERED (keeps_step_recovered self))|auto|].
    intros ? w H; eexists; (split; [exact H|reflexivity]).
  - intros w H. eexists; (split; [exact H|reflexivity]).
Qed.

Lemma step_spec :
  forall self s,
    hoare (fun w => stage_at self w = Some s) (ISEpiAgent.step self)
          (fun _ w => exists s', stage_at self w = Some s' /\ may_become s s' = true)
          not_exit.
Proof.
  intros self s. unfold ISEpiAgent.step. fold (inbound_trial self).
  eapply hoare_bind; [apply get_self_stage|]. intro a.
  apply hoare_pure_pre. intro Ha.
  eapply hoare_bind; [apply (inbound_trial_spec self a Ha)|]. intros ?.
  set (Q := fun (_ : unit) (w : World) =>
              exists s', stage_at self w = Some s' /\ may_become s s' = true).
  assert (Hfrom : forall s1, s1 = s \/ (s = SUSCEPTIBLE /\ s1 = INFECTED) ->
            hoare (fun w => stage_at self w = Some s1)
              (a1 <- get_agent self ;;
               (if Stage_eqb (Agent.stage a1) SUSCEPTIBLE then ISEpiAgent.step_susceptible self
                else if Stage_eqb (Agent.stage a1) INFECTED then ISEpiAgent.step_infected self
                else if Stage_eqb (Agent.stage a1) RECOVERED then ISEpiAgent.step_recovered self
                else if Stage_eqb (Agent.stage a1) DECEASED then ret tt
                else raise (SystemExit "Unknown stage: aborting.")) ;;
               a2 <- get_agent self ;;
               setattr self (Agent.set_astep (Agent.astep a2 + 1)))
              Q not_exit).
  { intros s1 Hs1.
    eapply hoare_bind; [apply get_self_stage|]. intro a1.
    apply hoare_pure_pre. intro Ha1.
    apply hoare_bind with (R := Q).
    - eapply hoare_weaken; [apply (branch_spec self a1 Ha1)|auto|].
      intros ? w [s' [Hw Hp]]. exists s'. split; [exact Hw|].
      destruct Hs1 as [E|[E1 E2]].
      + rewrite E in Hp. destruct s, s'; try discriminate Hp; reflexivity.
      + rewrite E2 in Hp. rewrite E1. destruct s'; try discriminate Hp; reflexivity.
    - intros ?.
      assert (Hrest : keeps (a2 <- get_agent self ;;
                             setattr self (Agent.set_astep (Agent.astep a2 + 1)))).
      { repeat keeps_step. }
      apply Hrest. unfold stage_only, Q. intros w w' H [s' Hs']. exists s'. now rewrite H. }
  intros w [Hw|[Hs Hw]].
  - apply (Hfrom s); auto.
  - apply (Hfrom INFECTED); auto.
Qed.

(* ================================================================== *)
(** ** The returning-traveller trial and the contact scan *)

(** The uniform variate of the next request to the global generator. *)
Definition next_uniform (w : World) : float :=
  uniform (fst (next_draw (Model.np_random (snd w)))).

(** The trial of lines 93-95 is decided by that variate. *)
Definition inbound (w : World) : bool :=
  PrimFloat.ltb (next_uniform w) (Model.rate_inbound (snd w)).

(** The world once the trial has consumed its variate. *)
Definition after_trial (w : World) : World :=
  (fst w, Model.set_np_random (snd (next_draw (Model.np_random (snd w)))) (snd w)).

(** Line 145. *)
Definition count_step (self : nat) : M World unit :=
  a <- get_agent self ;;
  setattr self (Agent.set_astep (Agent.astep a + 1)).

Lemma step_not_inbound :
  forall self w a,
    find_agent self (Model.agents (snd w)) = Some a ->
    Agent.stage a = SUSCEPTIBLE ->
    in_unit_interval (Model.rate_inbound (snd w)) = true ->
    inbound w = false ->
    ISEpiAgent.step self w
    = (ISEpiAgent.step_susceptible self ;; count_step self) (after_trial w).
Proof.
  intros self w a Hfind Hstage Hrate Hin.
  unfold ISEpiAgent.step, bind at 1, get_agent at 1. rewrite Hfind.
  unfold bind at 1. rewrite Hstage. simpl when.
  unfold bind at 1, model at 1, gets.
  unfold bind at 1, bernoulli_rvs. rewrite Hrate.
  unfold inbound, next_uniform in Hin. simpl in Hin |- *. rewrite Hin. simpl when.
  unfold ret at 1.
  unfold bind at 1, get_agent at 1. simpl. rewrite Hfind, Hstage. reflexivity.
Qed.

(** C3. A SUSCEPTIBLE agent that survives the returning-traveller trial
    and finds an occupant [c] first in its cell: the call of
    [c.is_contagious()] raises [AttributeError], whatever the stage of [c];
    no contact is registered and no contagion trial takes place. *)
Theorem susceptible_scan_raises :
  forall self w a c rest co,
    find_agent self (Model.agents (snd w)) = Some a ->
    Agent.stage a = SUSCEPTIBLE ->
    in_unit_interval (Model.rate_inbound (snd w)) = true ->
    inbound w = false ->
    MultiGrid.get_cell_list_contents (Model.grid (snd w)) (Agent.pos a) = c :: rest ->
    find_agent c (Model.agents (snd w)) = Some co ->
    ISEpiAgent.step self w = Raise (AttributeError "EXPOSED").
Proof.
  intros self w a c rest co Hfind Hstage Hrate Hin Hcell Hco.
  rewrite (@step_not_inbound self w a Hfind Hstage Hrate Hin).
  unfold bind at 1, ISEpiAgent.step_susceptible, bind at 1, ISEpiAgent.exposure.
  unfold bind at 1, get_agent at 1. simpl. rewrite Hfind.
  unfold bind at 1, model, gets. simpl. rewrite Hcell.
  unfold bind at 1. simpl. unfold bind at 1, get_agent at 1. simpl. rewrite Hco.
  reflexivity.
Qed.

Definition infected_cellmate (g : RandomState) : Model.t :=
  town [person 0 SUSCEPTIBLE 10 false 3; person 1 INFECTED 12 false 0]
       [1; 0]%nat g.

Lemma susceptible_scan_raises_witness :
  ISEpiAgent.step 0 (seeded [], infected_cellmate (numpy [0.75%float]))
  = Raise (AttributeError "EXPOSED").
Proof.
  apply (@susceptible_scan_raises 0%nat (seeded [], infected_cellmate (numpy [0.75%float]))
           (person 0 SUSCEPTIBLE 10 false 3) 1%nat [0%nat] (person 1 INFECTED 12 false 0));
    reflexivity.
Defined.

(* ================================================================== *)
(** ** SEVERE *)

(** C7, amended. SEVERE is not a stage: the enumeration has the four
    members SUSCEPTIBLE, INFECTED, RECOVERED and DECEASED.  Stepping a
    registered agent never takes the fatal unknown-stage branch, and a step
    that returns leaves a SUSCEPTIBLE agent SUSCEPTIBLE, INFECTED or
    RECOVERED, an INFECTED agent INFECTED or RECOVERED, and a RECOVERED or
    DECEASED agent in its stage. *)
Theorem step_four_stages :
  forall self w s,
    stage_at self w = Some s ->
    (forall s' : Stage, In s' [SUSCEPTIBLE; INFECTED; RECOVERED; DECEASED])
    /\ Stage_attr "SEVERE" = Raise (AttributeError "SEVERE")
    /\ match ISEpiAgent.step self w with
       | Ok (_, w') => exists s', stage_at self w' = Some s' /\ may_become s s' = true
       | Raise e => not_exit e
       end.
Proof.
  intros self w s Hs. split; [|split].
  - intros []; simpl; auto.
  - reflexivity.
  - exact (@step_spec self s w Hs).
Qed.

(** An INFECTED agent at the end of its recovery. *)
Definition convalescent : Model.t :=
  town [Agent.set_curr_recovery 30 (person 0 INFECTED 10 false 0)] [0%nat] (numpy []).

Lemma step_four_stages_witness :
  stage_at 0 (seeded [], convalescent) = Some INFECTED
  /\ match ISEpiAgent.step 0 (seeded [], convalescent) with
     | Ok (_, w') => exists s', stage_at 0 w' = Some s' /\ may_become INFECTED s' = true
     | Raise e => not_exit e
     end.
Proof.
  split; [reflexivity|].
  apply (@step_four_stages 0%nat (seeded [], convalescent) INFECTED). reflexivity.
Defined.

Example convalescent_recovers :
  match ISEpiAgent.step 0 (seeded [], convalescent) with
  | Ok (_, w') => stage_at 0 w'
  | Raise _ => None
  end = Some RECOVERED.
Proof. reflexivity. Qed.

(** An INFECTED agent whose severity trial succeeds. *)
Definition escalating : Model.t :=
  town [person 0 INFECTED 10 false 0] [0%nat] (numpy [0.0005%float]).

(** C7 as stated fails: [Stage] has no member SEVERE, so no agent is ever
    in that stage; the escalation of line 130 raises instead of producing
    one, and no branch of [step] leads to DECEASED. *)
Lemma severe_is_not_a_stage :
  Stage_attr "SEVERE" = Raise (AttributeError "SEVERE")
  /\ map fst Stage_members = ["SUSCEPTIBLE"; "INFECTED"; "RECOVERED"; "DECEASED"]
  /\ ISEpiAgent.step 0 (seeded [], escalating) = Raise (AttributeError "SEVERE").
Proof. repeat split. Qed.

(* ================================================================== *)
(** ** Moving in the SUSCEPTIBLE branch *)

(** The world once line 95 has set the stage of [self]. *)
Definition become (self : nat) (s : Stage) (w : World) : World :=
  (fst w, Model.set_agents
            (update_agent self (Agent.set_stage s) (Model.agents (snd w))) (snd w)).

Lemma step_inbound :
  forall self w a,
    find_agent self (Model.agents (snd w)) = Some a ->
    Agent.stage a = SUSCEPTIBLE ->
    in_unit_interval (Model.rate_inbound (snd w)) = true ->
    inbound w = true ->
    ISEpiAgent.step self w
    = (ISEpiAgent.step_infected self ;; count_step self)
        (become self INFECTED (after_trial w)).
Proof.
  intros self w a Hfind Hstage Hrate Hin.
  unfold ISEpiAgent.step, bind at 1, get_agent at 1. rewrite Hfind.
  unfold bind at 1. rewrite Hstage. simpl when.
  unfold bind at 1, model at 1, gets.
  unfold bind at 1, bernoulli_rvs. rewrite Hrate.
  unfold inbound, next_uniform in Hin. simpl in Hin |- *. rewrite Hin. simpl when.
  unfold setattr at 1, modify.
  unfold bind at 1, get_agent at 1. simpl.
  rewrite find_update_agent by reflexivity. rewrite Nat.eqb_refl, Hfind. simpl.
  reflexivity.
Qed.

Lemma exposure_returns :
  forall self w w', ISEpiAgent.exposure self w = Ok (tt, w') -> w' = w.
Proof.
  intros self w w' H. unfold ISEpiAgent.exposure, bind at 1 in H.
  destruct (get_agent self w) as [[a w0]|e] eqn:Hget; [|discriminate H].
  unfold get_agent in Hget.
  destruct (find_agent self (Model.agents (snd w))); [|discriminate Hget].
  injection Hget as <- <-.
  unfold bind at 1, model, gets, bind at 1 in H.
  destruct (ISEpiAgent.scan self _ w) as [[found w1]|e] eqn:Hscan; [|discriminate H].
  apply scan_returns in Hscan as [_ [-> ->]]. simpl in H.
  now injection H.
Qed.

(** Neither the position, nor the dwelling counter, nor the grid, nor
    [model.random] has changed: no move was made or attempted. *)
Definition unmoved (self : nat) (w0 : World) (a : Agent.t) (w : World) : Prop :=
  fst w = fst w0
  /\ Model.grid (snd w) = Model.grid (snd w0)
  /\ exists a', find_agent self (Model.agents (snd w)) = Some a'
                /\ Agent.pos a' = Agent.pos a
                /\ Agent.curr_dwelling a' = Agent.curr_dwelling a.

Lemma unmoved_setattr :
  forall self w0 a (f : Agent.t -> Agent.t) E,
    (forall x, Agent.unique_id (f x) = Agent.unique_id x) ->
    (forall x, Agent.pos (f x) = Agent.pos x) ->
    (forall x, Agent.curr_dwelling (f x) = Agent.curr_dwelling x) ->
    hoare (unmoved self w0 a) (setattr self f) (fun _ => unmoved self w0 a) E.
Proof.
  intros self w0 a f E Hid Hpos Hdw w [Hr [Hg [a' [Hfind [Hp Hd]]]]].
  unfold setattr, modify, unmoved. simpl.
  rewrite find_update_agent by exact Hid. rewrite Nat.eqb_refl, Hfind. simpl.
  repeat split; try assumption.
  exists (f a'). now rewrite Hpos, Hdw.
Qed.

Lemma unmoved_get_agent :
  forall self w0 a id,
    hoare (unmoved self w0 a) (get_agent id) (fun _ => unmoved self w0 a) (fun _ => True).
Proof.
  intros self w0 a id w Hw. unfold get_agent.
  now destruct (find_agent id (Model.agents (snd w))).
Qed.

Lemma unmoved_infected_branch :
  forall self w0 a,
    hoare (unmoved self w0 a) (ISEpiAgent.step_infected self ;; count_step self)
          (fun _ => unmoved self w0 a) (fun _ => True).
Proof.
  intros self w0 a.
  apply hoare_bind with (R := fun _ => unmoved self w0 a).
  - unfold ISEpiAgent.step_infected.
    eapply hoare_bind; [apply unmoved_get_agent|]. intro a1. simpl.
    destruct (_ <? _).
    + eapply hoare_bind; [apply unmoved_setattr; reflexivity|]. intros ?.
      apply hoare_bind with (R := fun _ => unmoved self w0 a).
      * intros w Hw. unfold bernoulli_rvs.
        destruct (in_unit_interval _); [exact Hw|exact I].
      * intro severe. apply hoare_when; [|auto].
        intros _ w _. exact I.
    + apply unmoved_setattr; reflexivity.
  - intros ?. unfold count_step.
    eapply hoare_bind; [apply unmoved_get_agent|]. intro a1.
    apply unmoved_setattr; reflexivity.
Qed.

(** A non-isolated SUSCEPTIBLE agent standing on [(0, 0)] in a town whose
    cell [(0, 0)] lists [cell]. *)
Definition lone (cell : list nat) (g : RandomState) : Model.t :=
  town [person 0 SUSCEPTIBLE 10 false 3] cell g.

(** What became of agent 0: stage, dwelling counter, position, and the
    number of outputs taken from [model.random]. *)
Definition outcome (r : result (unit * World))
  : option (Stage * Z * (Z * Z) * nat) :=
  match r with
  | Ok (_, w) =>
      match find_agent 0 (Model.agents (snd w)) with
      | Some a => Some (Agent.stage a, Agent.curr_dwelling a, Agent.pos a, consumed (fst w))
      | None => None
      end
  | Raise _ => None
  end.

(** C9 as stated fails: a non-isolated agent starts the step SUSCEPTIBLE
    with three dwelling steps left and is infected by the
    returning-traveller trial; the step ends with the dwelling counter
    still at three, where [move] would have left two. *)
Lemma inbound_infection_skips_move :
  Agent.isolated (person 0 SUSCEPTIBLE 10 false 3) = false
  /\ inbound (seeded [], infected_cellmate (numpy [0.25%float; 0.5%float])) = true
  /\ outcome (ISEpiAgent.step 0
                (seeded [], infected_cellmate (numpy [0.25%float; 0.5%float])))
     = Some (INFECTED, 3, (0, 0), 0%nat)
  /\ outcome (ISEpiAgent.move 0
                (seeded [], infected_cellmate (numpy [0.25%float; 0.5%float])))
     = Some (SUSCEPTIBLE, 2, (0, 0), 0%nat).
Proof. repeat split. Qed.

(* ================================================================== *)
(** ** Reproducibility of a run *)

Definition stage_reporters : list (Model.t -> result float) :=
  [compute_susceptible; compute_infected; compute_recovered; compute_deceased].

(** The configuration, population and grid of two models coincide; only
    the state of the global NumPy generator may differ. *)
Definition same_setup (m1 m2 : Model.t) : Prop :=
  Model.agents m1 = Model.agents m2
  /\ Model.grid m1 = Model.grid m2
  /\ Model.prob_contagion m1 = Model.prob_contagion m2
  /\ Model.rate_inbound m1 = Model.rate_inbound m2
  /\ Model.prob_isolation_effective m1 = Model.prob_isolation_effective m2
  /\ Model.avg_dwell m1 = Model.avg_dwell m2
  /\ Model.num_agents m1 = Model.num_agents m2
  /\ Model.stepno m1 = Model.stepno m2.

(** C4 as stated fails: the seed fixes [model.random] only.  Two runs with
    the same seed, configuration, population and scheduler differ as soon
    as the global NumPy generator answers the returning-traveller trial
    differently: under either scheduler one run records an INFECTED agent
    while the other aborts in the contact scan, and with the agent's cell
    listing no occupant both runs complete with different trajectories. *)
Lemma seed_does_not_fix_the_trajectory :
  same_setup (lone [0%nat] (numpy [0.25%float])) (lone [0%nat] (numpy [0.75%float]))
  /\ run stage_reporters 2 (Uniform (mkUniform 0 0))
         (seeded [], lone [0%nat] (numpy [0.25%float]))
     = Ok [[INFECTED]; [INFECTED]]
  /\ run stage_reporters 2 (Uniform (mkUniform 0 0))
         (seeded [], lone [0%nat] (numpy [0.75%float]))
     = Raise (AttributeError "EXPOSED")
  /\ run stage_reporters 2 (Graham (GrahamActivation_init 1))
         (seeded [], lone [0%nat] (numpy [0.25%float]))
     = Ok [[INFECTED]; [INFECTED]]
  /\ run stage_reporters 2 (Graham (GrahamActivation_init 1))
         (seeded [], lone [0%nat] (numpy [0.75%float]))
     = Raise (AttributeError "EXPOSED")
  /\ run stage_reporters 2 (Uniform (mkUniform 0 0))
         (seeded [], lone [] (numpy [0.25%float]))
     = Ok [[INFECTED]; [INFECTED]]
  /\ run stage_reporters 2 (Uniform (mkUniform 0 0))
         (seeded [], lone [] (numpy [0.75%float]))
     = Ok [[SUSCEPTIBLE]; [SUSCEPTIBLE]].
Proof. repeat split. Qed.

(* ================================================================== *)
(** * Further properties of the kernel *)

(* ================================================================== *)
(** ** What a computation may change

    [respects R c]: whenever [c] returns, the world it started from and the
    world it leaves are related by [R].  For a reflexive and transitive [R]
    the property follows the structure of the code, one primitive at a
    time. *)

Definition respects {A} (R : World -> World -> Prop) (c : M World A) : Prop :=
  forall w, match c w with
            | Ok (_, w') => R w w'
            | Raise _ => True
            end.

(** The world after the attribute store [f] on the object [id]. *)
Definition stored (id : nat) (f : Agent.t -> Agent.t) (w : World) : World :=
  (fst w, Model.set_agents (update_agent id f (Model.agents (snd w))) (snd w)).

Section Respects.
Variable R : World -> World -> Prop.
Hypothesis R_refl : forall w, R w w.
Hypothesis R_trans : forall w1 w2 w3, R w1 w2 -> R w2 w3 -> R w1 w3.

Lemma respects_ret : forall A (a : A), respects R (ret a).
Proof. intros A a w. apply R_refl. Qed.

Lemma respects_bind :
  forall A B (c : M World A) (k : A -> M World B),
    respects R c -> (forall a, respects R (k a)) -> respects R (bind c k).
Proof.
  intros A B c k Hc Hk w. unfold bind. specialize (Hc w).
  destruct (c w) as [[a w1]|e]; [|exact I].
  specialize (Hk a w1). destruct (k a w1) as [[b w2]|e]; [|exact I].
  now apply R_trans with w1.
Qed.

Lemma respects_when :
  forall c (body : M World unit), respects R body -> respects R (when c body).
Proof. intros [] body Hb; [exact Hb|apply respects_ret]. Qed.

Lemma respects_raise : forall A e, respects R (@raise World A e).
Proof. intros A e w. exact I. Qed.

Lemma respects_lift : forall A (r : result A), respects R (lift r).
Proof. intros A [a|e] w; simpl; [apply R_refl|exact I]. Qed.

Lemma respects_get_agent : forall id, respects R (get_agent id).
Proof.
  intros id w. unfold get_agent.
  destruct (find_agent id (Model.agents (snd w))); [apply R_refl|exact I].
Qed.

Lemma respects_model : forall A (f : Model.t -> A), respects R (model f).
Proof. intros A f w. apply R_refl. Qed.

(** As the scan returns only from an empty cell, with the world as it was. *)
Lemma respects_scan :
  forall self cellmates, respects R (ISEpiAgent.scan self cellmates).
Proof.
  intros self cellmates w.
  destruct (ISEpiAgent.scan self cellmates w) as [[found w']|e] eqn:H; [|exact I].
  apply scan_returns in H as [_ [_ ->]]. apply R_refl.
Qed.

(** The effects of the primitives: a request to the NumPy generator, an
    output of [model.random], a new grid, an attribute store. *)
Hypothesis R_numpy : forall w g, R w (fst w, Model.set_np_random g (snd w)).
Hypothesis R_random : forall (w : World) r, R w (r, snd w).

Lemma respects_bernoulli_rvs : forall p, respects R (bernoulli_rvs p).
Proof.
  intros p w. unfold bernoulli_rvs.
  destruct (in_unit_interval p); [apply R_numpy|exact I].
Qed.

Lemma respects_poisson_rvs : forall mu, respects R (poisson_rvs mu).
Proof.
  intros mu w. unfold poisson_rvs.
  destruct (PrimFloat.leb 0 mu); [apply R_numpy|exact I].
Qed.

Lemma respects_random_choice : forall A (seq : list A), respects R (random_choice seq).
Proof.
  intros A seq w. unfold random_choice. destruct seq; [exact I|apply R_random].
Qed.

Variable self : nat.
Hypothesis R_stage : forall s w, R w (stored self (Agent.set_stage s) w).
Hypothesis R_curr_recovery : forall k w, R w (stored self (Agent.set_curr_recovery k) w).
Hypothesis R_flag : forall b w, R w (stored self (Agent.set_isolated_but_inefficient b) w).
Hypothesis R_astep : forall k w, R w (stored self (Agent.set_astep k) w).

Lemma respects_count_step : respects R (count_step self).
Proof.
  unfold count_step. apply respects_bind; [apply respects_get_agent|].
  intros a w. apply R_astep.
Qed.

Lemma respects_exposure : respects R (ISEpiAgent.exposure self).
Proof.
  unfold ISEpiAgent.exposure.
  apply respects_bind; [apply respects_get_agent|]. intro a.
  apply respects_bind; [apply respects_model|]. intro g.
  apply respects_bind; [apply respects_scan|]. intro infected_contact.
  apply respects_when.
  apply respects_bind; [apply respects_get_agent|]. intro a'.
  apply respects_bind; [apply respects_bernoulli_rvs|]. intro infect.
  apply respects_when. intro w. apply R_stage.
Qed.

Lemma respects_step_infected : respects R (ISEpiAgent.step_infected self).
Proof.
  unfold ISEpiAgent.step_infected.
  apply respects_bind; [apply respects_get_agent|]. intro a.
  destruct (_ <? _).
  - apply respects_bind; [intro w; apply R_curr_recovery|]. intro u1.
    apply respects_bind; [apply respects_bernoulli_rvs|]. intro severe.
    apply respects_when.
    apply respects_bind; [apply respects_lift|]. intros s w. apply R_stage.
  - intro w. apply R_stage.
Qed.

(** The branches that move take the property of [move] as given. *)
Hypothesis R_move : respects R (ISEpiAgent.move self).

Lemma respects_step_susceptible : respects R (ISEpiAgent.step_susceptible self).
Proof.
  unfold ISEpiAgent.step_susceptible.
  apply respects_bind; [apply respects_exposure|]. intro u2.
  apply respects_bind; [apply respects_get_agent|]. intro a.
  apply respects_when. exact R_move.
Qed.

Lemma respects_step_recovered : respects R (ISEpiAgent.step_recovered self).
Proof.
  unfold ISEpiAgent.step_recovered.
  apply respects_bind; [apply respects_get_agent|]. intro a.
  apply respects_bind; [apply respects_model|]. intro u3.
  apply respects_bind; [intro w; apply R_curr_recovery|]. intro u4.
  exact R_move.
Qed.

Lemma respects_step : respects R (ISEpiAgent.step self).
Proof.
  unfold ISEpiAgent.step.
  apply respects_bind; [apply respects_get_agent|]. intro a.
  apply respects_bind.
  { apply respects_when.
    apply respects_bind; [apply respects_model|]. intro rate.
    apply respects_bind; [apply respects_bernoulli_rvs|]. intro inbound.
    apply respects_when. intro w. apply R_stage. }
  intro u5.
  apply respects_bind; [apply respects_get_agent|]. intro a1.
  apply respects_bind.
  { destruct (Stage_eqb (Agent.stage a1) SUSCEPTIBLE);
      [apply respects_step_susceptible|].
    destruct (Stage_eqb (Agent.stage a1) INFECTED);
      [apply respects_step_infected|].
    destruct (Stage_eqb (Agent.stage a1) RECOVERED);
      [apply respects_step_recovered|].
    destruct (Stage_eqb (Agent.stage a1) DECEASED);
      [apply respects_ret|apply respects_raise]. }
  intro u6. apply respects_count_step.
Qed.
End Respects.

Section RespectsMove.
Variable R : World -> World -> Prop.
Hypothesis R_refl : forall w, R w w.
Hypothesis R_trans : forall w1 w2 w3, R w1 w2 -> R w2 w3 -> R w1 w3.
Hypothesis R_numpy : forall w g, R w (fst w, Model.set_np_random g (snd w)).
Hypothesis R_random : forall (w : World) r, R w (r, snd w).
Hypothesis R_grid : forall (w : World) g, R w (fst w, Model.set_grid g (snd w)).
Variable self : nat.
Hypothesis R_curr_dwelling : forall k w, R w (stored self (Agent.set_curr_dwelling k) w).
Hypothesis R_pos : forall p w, R w (stored self (Agent.set_pos p) w).

(** [move], when its grid update and its two stores are each allowed. *)
Lemma respects_move : respects R (ISEpiAgent.move self).
Proof.
  unfold ISEpiAgent.move.
  apply (respects_bind R_trans); [apply respects_get_agent; assumption|]. intro a.
  destruct (_ >? _); [intro w; apply R_curr_dwelling|].
  apply (respects_bind R_trans); [apply respects_model; assumption|]. intro g.
  apply (respects_bind R_trans); [apply respects_random_choice; assumption|]. intro new_position.
  apply (respects_bind R_trans); [apply respects_lift; assumption|]. intro g'.
  apply (respects_bind R_trans); [intro w; apply R_grid|]. intro u7.
  apply (respects_bind R_trans); [intro w; apply R_pos|]. intro u8.
  apply (respects_bind R_trans); [apply respects_model; assumption|]. intro mu.
  apply (respects_bind R_trans); [apply respects_poisson_rvs; assumption|]. intro k.
  intro w. apply R_curr_dwelling.
Qed.
End RespectsMove.

(* ================================================================== *)
(** ** What [ISEpiAgent.step] leaves alone *)

(** The attributes of an agent that no method assigns. *)
Definition fixed (a : Agent.t)
  : nat * Z * Z * Z * float * float * float * Z * bool * Z :=
  (Agent.unique_id a, Agent.incubation_time a, Agent.dwelling_time a,
   Agent.recovery_time a, Agent.prob_contagion a, Agent.mortality_value a,
   Agent.severity_value a, Agent.curr_incubation a, Agent.isolated a,
   Agent.earmark a).

(** The parameters of the model and its step number. *)
Definition config (m : Model.t) : float * float * float * float * Z * Z :=
  (Model.prob_contagion m, Model.rate_inbound m, Model.prob_isolation_effective m,
   Model.avg_dwell m, Model.num_agents m, Model.stepno m).

(** From [w] to [w'] nothing changed but the grid, the two generators and
    the assignable attributes of [self]. *)
Definition confined (self : nat) (w w' : World) : Prop :=
  registry (snd w') = registry (snd w)
  /\ config (snd w') = config (snd w)
  /\ (forall other, other <> self ->
        find_agent other (Model.agents (snd w'))
        = find_agent other (Model.agents (snd w)))
  /\ option_map fixed (find_agent self (Model.agents (snd w')))
     = option_map fixed (find_agent self (Model.agents (snd w))).

Lemma confined_refl : forall self w, confined self w w.
Proof. intros self w. repeat split. Qed.

Lemma confined_trans :
  forall self w1 w2 w3, confined self w1 w2 -> confined self w2 w3 -> confined self w1 w3.
Proof.
  intros self w1 w2 w3 [Hr1 [Hc1 [Ho1 Hf1]]] [Hr2 [Hc2 [Ho2 Hf2]]].
  repeat split; try congruence.
  intros other Hne. rewrite Ho2, Ho1; auto.
Qed.

Lemma registry_update_agent :
  forall l id (f : Agent.t -> Agent.t),
    (forall a, fixed (f a) = fixed a) ->
    map (fun a => (Agent.unique_id a, Agent.earmark a)) (update_agent id f l)
    = map (fun a => (Agent.unique_id a, Agent.earmark a)) l.
Proof.
  induction l as [|a l IH]; intros id f Hf; simpl; [reflexivity|].
  destruct (Nat.eqb (Agent.unique_id a) id); simpl.
  - specialize (Hf a). unfold fixed in Hf. injection Hf as Hid _ _ _ _ _ _ _ _ He.
    now rewrite Hid, He.
  - now rewrite IH.
Qed.

Lemma fixed_unique_id :
  forall (f : Agent.t -> Agent.t),
    (forall a, fixed (f a) = fixed a) ->
    forall a, Agent.unique_id (f a) = Agent.unique_id a.
Proof.
  intros f Hf a. specialize (Hf a). unfold fixed in Hf. now injection Hf.
Qed.

Lemma confined_stored :
  forall self (f : Agent.t -> Agent.t),
    (forall a, fixed (f a) = fixed a) ->
    forall w, confined self w (stored self f w).
Proof.
  intros self f Hf w. unfold confined, stored, registry. simpl.
  split; [now apply registry_update_agent|].
  split; [reflexivity|]. split.
  - intros other Hne. rewrite find_update_agent by (now apply fixed_unique_id).
    destruct (Nat.eqb_spec self other); [congruence|reflexivity].
  - rewrite find_update_agent by (now apply fixed_unique_id).
    rewrite Nat.eqb_refl.
    destruct (find_agent self (Model.agents (snd w))); simpl; [|reflexivity].
    now rewrite Hf.
Qed.

Lemma confined_step : forall self, respects (confined self) (ISEpiAgent.step self).
Proof.
  intro self.
  assert (Hrefl := confined_refl self).
  assert (Htrans := @confined_trans self).
  assert (Hnp : forall w g, confined self w (fst w, Model.set_np_random g (snd w)))
    by (intros; repeat split).
  assert (Hrnd : forall (w : World) r, confined self w (r, snd w))
    by (intros; repeat split).
  apply respects_step with (self := self); try assumption;
    try (intros; apply confined_stored; reflexivity).
  apply respects_move; try assumption;
    try (intros; apply confined_stored; reflexivity).
  intros; repeat split.
Qed.

(** X1. A call of [step] that returns has changed nothing but the grid,
    the two random generators and the stage, counters, position and
    inefficiency flag of the stepping agent: every other agent object, the
    ids and earmarks of the registry, the model's parameters and step
    number, and the agent's own sampled times, probabilities, incubation
    counter and isolation flag are as before. *)
Theorem step_confined :
  forall self w w',
    ISEpiAgent.step self w = Ok (tt, w') -> confined self w w'.
Proof.
  intros self w w' H. pose proof (confined_step self w) as Hc.
  now rewrite H in Hc.
Qed.

Lemma step_confined_witness :
  exists w',
    ISEpiAgent.step 0 (seeded [], infected_cellmate (numpy [0.25%float; 0.5%float]))
    = Ok (tt, w')
    /\ confined 0 (seeded [], infected_cellmate (numpy [0.25%float; 0.5%float])) w'.
Proof.
  eexists. split; [reflexivity|].
  apply (@step_confined 0%nat
           (seeded [], infected_cellmate (numpy [0.25%float; 0.5%float]))).
  reflexivity.
Defined.

(* ================================================================== *)
(** ** What a step of the model conserves *)

(** The registry and the model's parameters and step number are as before. *)
Definition conserved (w w' : World) : Prop :=
  registry (snd w') = registry (snd w) /\ config (snd w') = config (snd w).

Lemma conserved_refl : forall w, conserved w w.
Proof. intro w. split; reflexivity. Qed.

Lemma conserved_trans :
  forall w1 w2 w3, conserved w1 w2 -> conserved w2 w3 -> conserved w1 w3.
Proof. intros w1 w2 w3 [Hr1 Hc1] [Hr2 Hc2]. split; congruence. Qed.

Lemma conserved_agent_step : forall id, respects conserved (ISEpiAgent.step id).
Proof.
  intros id w. pose proof (confined_step id w) as H.
  destruct (ISEpiAgent.step id w) as [[u w']|e]; [|exact I].
  destruct H as [Hr [Hc _]]. now split.
Qed.

Lemma conserved_activate :
  forall ids, respects conserved (activate ISEpiAgent.step ids).
Proof.
  induction ids as [|id ids IH]; simpl.
  - apply respects_ret. exact conserved_refl.
  - apply (respects_bind conserved_trans); [apply conserved_agent_step|].
    intro u. exact IH.
Qed.

Lemma conserved_model_shuffle :
  forall x, respects conserved (model_shuffle (Env := Model.t) x).
Proof.
  intros x w. unfold model_shuffle.
  destruct (shuffle x (fst w)) as [x' r]. split; reflexivity.
Qed.

Lemma conserved_run_stages :
  forall ks st, respects conserved (run_stages ISEpiAgent.step ks st).
Proof.
  induction ks as [|k ks IH]; intro st; simpl.
  - apply respects_ret. exact conserved_refl.
  - destruct (dict_get k st) as [bucket|]; [|apply respects_raise].
    apply (respects_bind conserved_trans); [apply conserved_model_shuffle|].
    intro shuffled.
    apply (respects_bind conserved_trans); [apply conserved_activate|].
    intro u. apply IH.
Qed.

Lemma conserved_schedule_step :
  forall s, respects conserved (schedule_step registry ISEpiAgent.step s).
Proof.
  intros [g|u]; simpl.
  - apply (respects_bind conserved_trans); [|intro; apply respects_ret; exact conserved_refl].
    unfold GrahamActivation_step.
    apply (respects_bind conserved_trans); [intro w; apply conserved_refl|]. intro agents.
    apply (respects_bind conserved_trans); [apply respects_lift; exact conserved_refl|].
    intro st1.
    apply (respects_bind conserved_trans); [apply conserved_run_stages|].
    intro st2. apply respects_ret. exact conserved_refl.
  - apply (respects_bind conserved_trans); [|intro; apply respects_ret; exact conserved_refl].
    unfold RandomActivation_step.
    apply (respects_bind conserved_trans); [intro w; apply conserved_refl|]. intro agents.
    apply (respects_bind conserved_trans); [apply conserved_model_shuffle|].
    intro shuffled.
    apply (respects_bind conserved_trans); [apply conserved_activate|].
    intro x. apply respects_ret. exact conserved_refl.
Qed.

(** The counters of the scheduler after a step that returned. *)
Definition advanced (s s' : Schedule) : Prop :=
  match s, s' with
  | Graham g, Graham g' =>
      steps g' = steps g + 1 /\ time g' = time g + 1 /\ partitions g' = partitions g
  | Uniform u, Uniform u' => usteps u' = usteps u + 1 /\ utime u' = utime u + 1
  | _, _ => False
  end.

Lemma schedule_step_advanced :
  forall s w s' w',
    schedule_step registry ISEpiAgent.step s w = Ok (s', w') -> advanced s s'.
Proof.
  intros [g|u] w s' w' H; simpl in H; unfold bind at 1 in H.
  - unfold GrahamActivation_step, bind at 1, gets, bind at 1, lift in H.
    destruct (fill_stages _ _) as [st1|e]; [|discriminate H].
    unfold bind at 1 in H.
    destruct (run_stages _ _ _ _) as [[st2 w2]|e]; [|discriminate H].
    simpl in H. injection H as <- _. simpl. auto.
  - unfold RandomActivation_step, bind at 1, gets, bind at 1 in H.
    destruct (model_shuffle _ _) as [[x w1]|e]; [|discriminate H].
    unfold bind at 1 in H.
    destruct (activate _ _ _) as [[x2 w2]|e]; [|discriminate H].
    simpl in H. injection H as <- _. simpl. auto.
Qed.

(** X2. A call of [ISEpiModel.step] that returns has advanced [stepno] and
    the scheduler's [steps] and [time] by exactly one, under either
    scheduler and whatever the reporters; the parameters of the model and
    the ids and earmarks of the registered agents are as before. *)
Theorem model_step_advances :
  forall reporters s w s' w',
    ISEpiModel_step reporters s w = Ok (s', w') ->
    Model.stepno (snd w') = Model.stepno (snd w) + 1
    /\ advanced s s'
    /\ registry (snd w') = registry (snd w)
    /\ (Model.prob_contagion (snd w'), Model.rate_inbound (snd w'),
        Model.prob_isolation_effective (snd w'), Model.avg_dwell (snd w'),
        Model.num_agents (snd w'))
       = (Model.prob_contagion (snd w), Model.rate_inbound (snd w),
          Model.prob_isolation_effective (snd w), Model.avg_dwell (snd w),
          Model.num_agents (snd w)).
Proof.
  intros reporters s w s' w' H.
  unfold ISEpiModel_step, bind at 1, lift in H.
  destruct (collect reporters (snd w)) as [row|e]; [|discriminate H].
  unfold bind at 1 in H.
  pose proof (conserved_schedule_step s w) as Hcons.
  pose proof (@schedule_step_advanced s w) as Hadv.
  destruct (schedule_step registry ISEpiAgent.step s w) as [[s1 w1]|e];
    [|discriminate H].
  specialize (Hadv s1 w1 eq_refl). destruct Hcons as [Hreg Hcfg].
  simpl in H. injection H as <- <-. simpl.
  unfold config in Hcfg. injection Hcfg as Hp Hr Hi Hd Hn Hs.
  repeat split; try assumption; congruence.
Qed.

Lemma model_step_advances_witness :
  exists s' w',
    ISEpiModel_step stage_reporters (Graham (GrahamActivation_init 1))
      (seeded [], lone [0%nat] (numpy [0.25%float])) = Ok (s', w')
    /\ Model.stepno (snd w') = 0 + 1
    /\ advanced (Graham (GrahamActivation_init 1)) s'.
Proof.
  eexists. eexists. split; [reflexivity|].
  pose proof (@model_step_advances stage_reporters (Graham (GrahamActivation_init 1))
                (seeded [], lone [0%nat] (numpy [0.25%float])) _ _ eq_refl)
    as [Hstep [Hadv _]].
  split; [exact Hstep|exact Hadv].
Defined.

Lemma model_step_registry :
  forall reporters s w s' w',
    ISEpiModel_step reporters s w = Ok (s', w') ->
    registry (snd w') = registry (snd w).
Proof.
  intros reporters s w s' w' H.
  unfold ISEpiModel_step, bind at 1, lift in H.
  destruct (collect reporters (snd w)) as [row|e]; [|discriminate H].
  unfold bind at 1 in H.
  pose proof (conserved_schedule_step s w) as Hcons.
  destruct (schedule_step registry ISEpiAgent.step s w) as [[s1 w1]|e];
    [|discriminate H].
  destruct Hcons as [Hreg _].
  simpl in H. injection H as _ <-. exact Hreg.
Qed.

Lemma registry_length :
  forall m1 m2,
    registry m1 = registry m2 ->
    List.length (Model.agents m1) = List.length (Model.agents m2).
Proof.
  intros m1 m2 H. apply (f_equal (@List.length _)) in H.
  unfold registry in H. now rewrite !length_map in H.
Qed.

(** X3. A run of [n] steps that completes records [n] rows, and every row
    holds one stage per agent of the initial population: no agent is
    created or destroyed during a run. *)
Theorem run_rows :
  forall reporters n s w rows,
    run reporters n s w = Ok rows ->
    List.length rows = n
    /\ Forall (fun row => List.length row = List.length (Model.agents (snd w))) rows.
Proof.
  intros reporters n. induction n as [|n IH]; intros s w rows H; simpl in H.
  - injection H as <-. split; [reflexivity|constructor].
  - destruct (ISEpiModel_step reporters s w) as [[s1 w1]|e] eqn:Hstep; [|discriminate H].
    destruct (run reporters n s1 w1) as [rest|e] eqn:Hrun; [|discriminate H].
    simpl in H. injection H as <-.
    destruct (IH s1 w1 rest Hrun) as [Hlen Hrows].
    pose proof (registry_length _ _ (model_step_registry _ _ _ Hstep)) as Hsame.
    split; [simpl; now rewrite Hlen|].
    constructor.
    + unfold stages_of. now rewrite length_map.
    + rewrite <- Hsame. exact Hrows.
Qed.

Lemma run_rows_witness :
  List.length [[SUSCEPTIBLE]; [SUSCEPTIBLE]] = 2%nat
  /\ Forall (fun row : list Stage =>
               List.length row
               = List.length (Model.agents (snd (seeded [], lone [] (numpy [0.75%float])))))
            [[SUSCEPTIBLE]; [SUSCEPTIBLE]].
Proof.
  apply (@run_rows stage_reporters 2%nat (Uniform (mkUniform 0 0))
           (seeded [], lone [] (numpy [0.75%float]))).
  reflexivity.
Defined.

(* ================================================================== *)
(** ** Successive updates of one agent *)

(** [n] calls of [step] on the same agent, one after the other. *)
Fixpoint steps_of (n : nat) (self : nat) : M World unit :=
  match n with
  | O => ret tt
  | S n' => ISEpiAgent.step self ;; steps_of n' self
  end.

(** Only attributes of [self] were assigned: the grid, [model.random] and
    the NumPy generator are as before. *)
Definition quiet (self : nat) (w w' : World) : Prop :=
  fst w' = fst w
  /\ Model.grid (snd w') = Model.grid (snd w)
  /\ Model.np_random (snd w') = Model.np_random (snd w)
  /\ confined self w w'.

Lemma quiet_refl : forall self w, quiet self w w.
Proof. intros self w. repeat split. Qed.

Lemma quiet_trans :
  forall self w1 w2 w3, quiet self w1 w2 -> quiet self w2 w3 -> quiet self w1 w3.
Proof.
  intros self w1 w2 w3 [Hr1 [Hg1 [Hn1 Hc1]]] [Hr2 [Hg2 [Hn2 Hc2]]].
  repeat split; try congruence; eapply confined_trans; eassumption.
Qed.

Lemma quiet_stored :
  forall self (f : Agent.t -> Agent.t),
    (forall a, fixed (f a) = fixed a) ->
    forall w, quiet self w (stored self f w).
Proof.
  intros self f Hf w. repeat split; try reflexivity; now apply confined_stored.
Qed.

Lemma find_stored :
  forall self (f : Agent.t -> Agent.t) w a,
    (forall x, Agent.unique_id (f x) = Agent.unique_id x) ->
    find_agent self (Model.agents (snd w)) = Some a ->
    find_agent self (Model.agents (snd (stored self f w))) = Some (f a).
Proof.
  intros self f w a Hf H. unfold stored. simpl.
  rewrite find_update_agent by exact Hf. now rewrite Nat.eqb_refl, H.
Qed.

Lemma get_agent_found :
  forall self w a,
    find_agent self (Model.agents (snd w)) = Some a -> get_agent self w = Ok (a, w).
Proof. intros self w a H. unfold get_agent. now rewrite H. Qed.

(** Line 145, on a registered agent. *)
Lemma count_step_found :
  forall self w a,
    find_agent self (Model.agents (snd w)) = Some a ->
    count_step self w
    = Ok (tt, stored self (Agent.set_astep (Agent.astep a + 1)) w).
Proof.
  intros self w a H. unfold count_step, bind. now rewrite (get_agent_found _ _ H).
Qed.

(** The step of an agent that is not SUSCEPTIBLE skips the trial. *)
Lemma step_skips_trial :
  forall self w a,
    find_agent self (Model.agents (snd w)) = Some a ->
    Stage_eqb (Agent.stage a) SUSCEPTIBLE = false ->
    ISEpiAgent.step self w
    = ((if Stage_eqb (Agent.stage a) INFECTED then ISEpiAgent.step_infected self
        else if Stage_eqb (Agent.stage a) RECOVERED then ISEpiAgent.step_recovered self
        else if Stage_eqb (Agent.stage a) DECEASED then ret tt
        else raise (SystemExit "Unknown stage: aborting.")) ;;
       count_step self) w.
Proof.
  intros self w a Hfind Hs.
  unfold ISEpiAgent.step, bind at 1. rewrite (get_agent_found _ _ Hfind).
  unfold bind at 1. rewrite Hs. simpl when. unfold ret at 1.
  unfold bind at 1. rewrite (get_agent_found _ _ Hfind). rewrite Hs.
  reflexivity.
Qed.

Lemma deceased_step :
  forall self w a,
    find_agent self (Model.agents (snd w)) = Some a ->
    Agent.stage a = DECEASED ->
    ISEpiAgent.step self w
    = Ok (tt, stored self (Agent.set_astep (Agent.astep a + 1)) w).
Proof.
  intros self w a Hfind Hs.
  rewrite (@step_skips_trial self w a Hfind) by (now rewrite Hs).
  rewrite Hs. simpl. unfold bind, ret. now apply count_step_found.
Qed.

(** X4. DECEASED is terminal: [n] successive updates of a DECEASED agent
    all return and change nothing but its [astep] counter, which has
    advanced by [n]; the agent's other attributes, the grid, both
    generators and every other agent are as before. *)
Theorem deceased_is_terminal :
  forall n self w a,
    find_agent self (Model.agents (snd w)) = Some a ->
    Agent.stage a = DECEASED ->
    exists w',
      steps_of n self w = Ok (tt, w')
      /\ find_agent self (Model.agents (snd w'))
         = Some (Agent.set_astep (Agent.astep a + Z.of_nat n) a)
      /\ quiet self w w'.
Proof.
  induction n as [|n IH]; intros self w a Hfind Hs.
  - exists w. simpl. split; [reflexivity|split; [|apply quiet_refl]].
    rewrite Hfind. f_equal. destruct a; unfold Agent.set_astep; simpl.
    f_equal. lia.
  - set (w1 := stored self (Agent.set_astep (Agent.astep a + 1)) w).
    assert (Hfind1 : find_agent self (Model.agents (snd w1))
                     = Some (Agent.set_astep (Agent.astep a + 1) a))
      by (now apply find_stored).
    destruct (IH self w1 _ Hfind1 Hs) as [w' [Hrun [Hfind' Hq]]].
    exists w'. split; [|split].
    + simpl. unfold bind. rewrite (@deceased_step self w a Hfind Hs). exact Hrun.
    + rewrite Hfind'. f_equal. unfold Agent.set_astep. simpl. f_equal. lia.
    + eapply quiet_trans; [|exact Hq]. now apply quiet_stored.
Qed.

Definition graveyard : Model.t :=
  town [person 0 DECEASED 10 false 0; person 1 INFECTED 12 false 0]
       [0; 1]%nat (numpy []).

Lemma deceased_is_terminal_witness :
  exists w',
    steps_of 3 0 (seeded [], graveyard) = Ok (tt, w')
    /\ find_agent 0 (Model.agents (snd w'))
       = Some (Agent.set_astep (0 + 3) (person 0 DECEASED 10 false 0))
    /\ quiet 0 (seeded [], graveyard) w'.
Proof.
  apply (@deceased_is_terminal 3%nat 0%nat (seeded [], graveyard)
           (person 0 DECEASED 10 false 0)); reflexivity.
Defined.

(* ================================================================== *)
(** ** Dwelling *)

(** [move] on an agent whose dwelling is not exhausted. *)
Lemma move_dwells :
  forall self w a,
    find_agent self (Model.agents (snd w)) = Some a ->
    (Agent.curr_dwelling a >? 0) = true ->
    ISEpiAgent.move self w
    = Ok (tt, stored self (Agent.set_curr_dwelling (Agent.curr_dwelling a - 1)) w).
Proof.
  intros self w a Hfind Hd. unfold ISEpiAgent.move, bind.
  rewrite (get_agent_found _ _ Hfind). now rewrite Hd.
Qed.

(** The attributes of a RECOVERED agent after one step spent dwelling. *)
Definition dwelt (a : Agent.t) : Agent.t :=
  Agent.set_astep (Agent.astep a + 1)
    (Agent.set_curr_dwelling (Agent.curr_dwelling a - 1)
       (Agent.set_curr_recovery 0 a)).

Lemma recovered_dwell_step :
  forall self w a,
    find_agent self (Model.agents (snd w)) = Some a ->
    Agent.stage a = RECOVERED ->
    0 < Agent.curr_dwelling a ->
    exists w',
      ISEpiAgent.step self w = Ok (tt, w')
      /\ find_agent self (Model.agents (snd w')) = Some (dwelt a)
      /\ quiet self w w'.
Proof.
  intros self w a Hfind Hs Hd.
  rewrite (@step_skips_trial self w a Hfind) by (now rewrite Hs).
  rewrite Hs. simpl.
  set (w1 := stored self (Agent.set_curr_recovery 0) w).
  assert (H1 : find_agent self (Model.agents (snd w1))
               = Some (Agent.set_curr_recovery 0 a)) by (now apply find_stored).
  set (w2 := stored self (Agent.set_curr_dwelling (Agent.curr_dwelling a - 1)) w1).
  assert (H2 : find_agent self (Model.agents (snd w2))
               = Some (Agent.set_curr_dwelling (Agent.curr_dwelling a - 1)
                         (Agent.set_curr_recovery 0 a))) by (now apply find_stored).
  exists (stored self (Agent.set_astep (Agent.astep a + 1)) w2).
  split; [|split].
  - unfold bind at 1, ISEpiAgent.step_recovered, bind at 1.
    rewrite (get_agent_found _ _ Hfind).
    unfold bind at 1, model, gets, bind at 1, setattr, modify.
    fold (stored self (Agent.set_curr_recovery 0) w). fold w1.
    rewrite (@move_dwells self w1 _ H1) by (simpl; lia).
    simpl Agent.curr_dwelling. fold w2.
    now rewrite (@count_step_found self w2 _ H2).
  - unfold dwelt.
    apply (@find_stored self (Agent.set_astep (Agent.astep a + 1)) w2 _
             (fun x => eq_refl) H2).
  - eapply quiet_trans; [|apply quiet_stored; reflexivity].
    eapply quiet_trans; [|apply quiet_stored; reflexivity].
    apply quiet_stored; reflexivity.
Qed.

(** X5. Dwelling: a RECOVERED agent with [d] dwelling steps left stays in
    its cell for its next [n <= d] updates.  They all return, take nothing
    from either generator, leave the grid alone, and leave the agent
    RECOVERED at the same position with [d - n] dwelling steps left. *)
Theorem recovered_agent_dwells :
  forall n self w a,
    find_agent self (Model.agents (snd w)) = Some a ->
    Agent.stage a = RECOVERED ->
    Z.of_nat n <= Agent.curr_dwelling a ->
    exists w' a',
      steps_of n self w = Ok (tt, w')
      /\ find_agent self (Model.agents (snd w')) = Some a'
      /\ Agent.stage a' = RECOVERED
      /\ Agent.pos a' = Agent.pos a
      /\ Agent.curr_dwelling a' = Agent.curr_dwelling a - Z.of_nat n
      /\ Agent.astep a' = Agent.astep a + Z.of_nat n
      /\ quiet self w w'.
Proof.
  induction n as [|n IH]; intros self w a Hfind Hs Hd.
  - exists w, a. simpl. repeat split; try assumption; try lia.
  - destruct (@recovered_dwell_step self w a Hfind Hs) as [w1 [Hstep [Hfind1 Hq1]]];
      [lia|].
    destruct (IH self w1 (dwelt a) Hfind1 Hs) as [w' [a' [Hrun [Hf' [Hs' [Hp [Hdw [Hast Hq]]]]]]]].
    { simpl. lia. }
    exists w', a'. simpl steps_of. unfold bind. rewrite Hstep.
    split; [exact Hrun|]. split; [exact Hf'|]. split; [exact Hs'|].
    split; [exact Hp|]. simpl in Hdw, Hast.
    split; [lia|]. split; [lia|].
    eapply quiet_trans; eassumption.
Qed.

Definition resting : Model.t :=
  town [person 0 RECOVERED 10 false 3] [0%nat] (numpy []).

Lemma recovered_agent_dwells_witness :
  exists w' a',
    steps_of 3 0 (seeded [], resting) = Ok (tt, w')
    /\ find_agent 0 (Model.agents (snd w')) = Some a'
    /\ Agent.stage a' = RECOVERED
    /\ Agent.pos a' = (0, 0)
    /\ Agent.curr_dwelling a' = 3 - 3
    /\ Agent.astep a' = 0 + 3
    /\ quiet 0 (seeded [], resting) w'.
Proof.
  apply (@recovered_agent_dwells 3%nat 0%nat (seeded [], resting)
           (person 0 RECOVERED 10 false 3)); try reflexivity; try (simpl; lia).
Defined.

(* ================================================================== *)
(** ** The infectious period *)

(** Steps of the infectious period still to run. *)
Definition remaining (a : Agent.t) : Z :=
  Agent.incubation_time a + Agent.recovery_time a
  - (Agent.curr_incubation a + Agent.curr_recovery a).

(** The severity trial of line 129 on the next NumPy variate. *)
Definition severe_draw (w : World) (a : Agent.t) : bool :=
  PrimFloat.ltb (next_uniform w) (Agent.severity_value a).

(** The attributes of an INFECTED agent after [k] steps of illness. *)
Definition ailing (k : Z) (a : Agent.t) : Agent.t :=
  Agent.set_astep (Agent.astep a + k)
    (Agent.set_curr_recovery (Agent.curr_recovery a + k) a).

(** A Bernoulli sample inside its domain: the comparison of the next
    variate with [p], and the generator advanced by one request. *)
Lemma bernoulli_rvs_draw :
  forall p w,
    in_unit_interval p = true ->
    bernoulli_rvs p w = Ok (PrimFloat.ltb (next_uniform w) p, after_trial w).
Proof. intros p w Hp. unfold bernoulli_rvs. now rewrite Hp. Qed.

Lemma infected_branch :
  forall self w a,
    find_agent self (Model.agents (snd w)) = Some a ->
    Agent.stage a = INFECTED ->
    ISEpiAgent.step self w = (ISEpiAgent.step_infected self ;; count_step self) w.
Proof.
  intros self w a Hfind Hs.
  rewrite (@step_skips_trial self w a Hfind) by (now rewrite Hs).
  now rewrite Hs.
Qed.

Lemma infected_step :
  forall self w a,
    find_agent self (Model.agents (snd w)) = Some a ->
    Agent.stage a = INFECTED ->
    0 < remaining a ->
    in_unit_interval (Agent.severity_value a) = true ->
    severe_draw w a = false ->
    ISEpiAgent.step self w
    = Ok (tt, stored self (Agent.set_astep (Agent.astep a + 1))
                (after_trial
                   (stored self (Agent.set_curr_recovery (Agent.curr_recovery a + 1)) w))).
Proof.
  intros self w a Hfind Hs Hrem Hunit Hdraw.
  rewrite (@infected_branch self w a Hfind Hs).
  unfold bind at 1, ISEpiAgent.step_infected, bind at 1.
  rewrite (get_agent_found _ _ Hfind).
  assert (Hlt : (Agent.curr_incubation a + Agent.curr_recovery a
                 <? Agent.incubation_time a + Agent.recovery_time a) = true)
    by (apply Z.ltb_lt; unfold remaining in Hrem; lia).
  rewrite Hlt.
  unfold bind at 1, setattr at 1, modify.
  fold (stored self (Agent.set_curr_recovery (Agent.curr_recovery a + 1)) w).
  set (w1 := stored self (Agent.set_curr_recovery (Agent.curr_recovery a + 1)) w).
  unfold bind at 1. rewrite (bernoulli_rvs_draw _ w1 Hunit).
  unfold severe_draw in Hdraw.
  change (next_uniform w1) with (next_uniform w). rewrite Hdraw.
  simpl when. unfold ret.
  apply (@count_step_found self (after_trial w1)
           (Agent.set_curr_recovery (Agent.curr_recovery a + 1) a)).
  unfold after_trial. simpl. now apply find_stored.
Qed.

(** X6. The severity escalation never succeeds: when the trial of an
    INFECTED agent inside its infectious period draws below
    [severity_value], the step raises [AttributeError] on [Stage.SEVERE]
    instead of changing the agent's stage. *)
Theorem severity_escalation_raises :
  forall self w a,
    find_agent self (Model.agents (snd w)) = Some a ->
    Agent.stage a = INFECTED ->
    0 < remaining a ->
    in_unit_interval (Agent.severity_value a) = true ->
    severe_draw w a = true ->
    ISEpiAgent.step self w = Raise (AttributeError "SEVERE").
Proof.
  intros self w a Hfind Hs Hrem Hunit Hdraw.
  rewrite (@infected_branch self w a Hfind Hs).
  unfold bind at 1, ISEpiAgent.step_infected, bind at 1.
  rewrite (get_agent_found _ _ Hfind).
  assert (Hlt : (Agent.curr_incubation a + Agent.curr_recovery a
                 <? Agent.incubation_time a + Agent.recovery_time a) = true)
    by (apply Z.ltb_lt; unfold remaining in Hrem; lia).
  rewrite Hlt.
  unfold bind at 1, setattr at 1, modify.
  fold (stored self (Agent.set_curr_recovery (Agent.curr_recovery a + 1)) w).
  unfold bind at 1. rewrite (bernoulli_rvs_draw _ _ Hunit).
  unfold severe_draw in Hdraw.
  change (next_uniform (stored self _ w)) with (next_uniform w). rewrite Hdraw.
  reflexivity.
Qed.

Lemma severity_escalation_raises_witness :
  ISEpiAgent.step 0 (seeded [], escalating) = Raise (AttributeError "SEVERE").
Proof.
  apply (@severity_escalation_raises 0%nat (seeded [], escalating)
           (person 0 INFECTED 10 false 0)); reflexivity.
Defined.

Lemma ailing_next :
  forall k a, ailing k (ailing 1 a) = ailing (1 + k) a.
Proof.
  intros k a. unfold ailing, Agent.set_astep, Agent.set_curr_recovery.
  cbn -[Z.add]. f_equal; lia.
Qed.

(** After [n] requests the generator has the same variates and has
    answered [n] more of them. *)
Definition advanced_by (n : nat) (g g' : RandomState) : Prop :=
  g' = mkRandomState (variates g) (requests g + n).

Lemma infected_progress :
  forall n self w a,
    find_agent self (Model.agents (snd w)) = Some a ->
    Agent.stage a = INFECTED ->
    in_unit_interval (Agent.severity_value a) = true ->
    Z.of_nat n <= remaining a ->
    (forall i, (i < n)%nat ->
       PrimFloat.ltb
         (uniform (variates (Model.np_random (snd w))
                     (requests (Model.np_random (snd w)) + i)))
         (Agent.severity_value a) = false) ->
    exists w',
      steps_of n self w = Ok (tt, w')
      /\ find_agent self (Model.agents (snd w')) = Some (ailing (Z.of_nat n) a)
      /\ advanced_by n (Model.np_random (snd w)) (Model.np_random (snd w'))
      /\ fst w' = fst w
      /\ Model.grid (snd w') = Model.grid (snd w)
      /\ confined self w w'.
Proof.
  induction n as [|n IH]; intros self w a Hfind Hs Hunit Hrem Hdraws.
  - exists w. simpl. split; [reflexivity|]. split.
    + rewrite Hfind. f_equal. destruct a.
      unfold ailing, Agent.set_astep, Agent.set_curr_recovery.
      cbn -[Z.add Z.of_nat]. f_equal; lia.
    + split; [|repeat split].
      unfold advanced_by. destruct (Model.np_random (snd w)). simpl.
      now rewrite Nat.add_0_r.
  - assert (Hdraw : severe_draw w a = false).
    { unfold severe_draw, next_uniform, next_draw. simpl.
      rewrite <- (Hdraws 0%nat) by lia. now rewrite Nat.add_0_r. }
    pose proof (@infected_step self w a Hfind Hs ltac:(lia) Hunit Hdraw) as Hstep.
    set (w1 := stored self (Agent.set_astep (Agent.astep a + 1))
                 (after_trial
                    (stored self (Agent.set_curr_recovery (Agent.curr_recovery a + 1)) w)))
      in *.
    assert (Hfind1 : find_agent self (Model.agents (snd w1)) = Some (ailing 1 a)).
    { unfold w1, ailing.
      apply (@find_stored self (Agent.set_astep (Agent.astep a + 1)) _ _ (fun x => eq_refl)).
      unfold after_trial. simpl. now apply find_stored. }
    destruct (IH self w1 (ailing 1 a) Hfind1 Hs Hunit) as [w' [Hrun [Hf' [Hnp [Hr [Hg Hc]]]]]].
    { unfold remaining in *. simpl. lia. }
    { intros i Hi. simpl. rewrite <- (Hdraws (S i)) by lia.
      now rewrite Nat.add_succ_r. }
    exists w'. simpl steps_of. unfold bind. rewrite Hstep.
    split; [exact Hrun|]. split.
    { rewrite Hf', ailing_next. do 2 f_equal. lia. }
    split.
    { unfold advanced_by in *. rewrite Hnp. simpl. f_equal. lia. }
    split; [exact Hr|]. split; [exact Hg|].
    eapply confined_trans; [|exact Hc].
    unfold w1.
    set (w0 := stored self (Agent.set_curr_recovery (Agent.curr_recovery a + 1)) w).
    apply confined_trans with (w2 := w0); [apply confined_stored; reflexivity|].
    apply confined_trans with (w2 := after_trial w0);
      [unfold after_trial; repeat split|apply confined_stored; reflexivity].
Qed.

Lemma infected_recovers :
  forall self w a,
    find_agent self (Model.agents (snd w)) = Some a ->
    Agent.stage a = INFECTED ->
    remaining a <= 0 ->
    ISEpiAgent.step self w
    = Ok (tt, stored self (Agent.set_astep (Agent.astep a + 1))
                (stored self (Agent.set_stage RECOVERED) w)).
Proof.
  intros self w a Hfind Hs Hrem.
  rewrite (@infected_branch self w a Hfind Hs).
  unfold bind at 1, ISEpiAgent.step_infected, bind at 1.
  rewrite (get_agent_found _ _ Hfind).
  assert (Hlt : (Agent.curr_incubation a + Agent.curr_recovery a
                 <? Agent.incubation_time a + Agent.recovery_time a) = false)
    by (apply Z.ltb_ge; unfold remaining in Hrem; lia).
  rewrite Hlt. unfold setattr at 1, modify.
  fold (stored self (Agent.set_stage RECOVERED) w).
  apply (@count_step_found self _ (Agent.set_stage RECOVERED a)).
  now apply find_stored.
Qed.

(** X7. The infectious period: an INFECTED agent with [remaining] steps
    to run, whose severity trials fail, is still INFECTED after each of
    its next [k <= remaining] updates, with [curr_recovery] advanced by
    [k] and one NumPy variate consumed per update; once [k = remaining]
    the following update makes it RECOVERED and draws nothing. *)
Theorem infectious_period :
  forall k self w a,
    find_agent self (Model.agents (snd w)) = Some a ->
    Agent.stage a = INFECTED ->
    in_unit_interval (Agent.severity_value a) = true ->
    Z.of_nat k <= remaining a ->
    (forall i, (i < k)%nat ->
       PrimFloat.ltb
         (uniform (variates (Model.np_random (snd w))
                     (requests (Model.np_random (snd w)) + i)))
         (Agent.severity_value a) = false) ->
    exists w1,
      steps_of k self w = Ok (tt, w1)
      /\ find_agent self (Model.agents (snd w1)) = Some (ailing (Z.of_nat k) a)
      /\ Agent.stage (ailing (Z.of_nat k) a) = INFECTED
      /\ advanced_by k (Model.np_random (snd w)) (Model.np_random (snd w1))
      /\ (Z.of_nat k = remaining a ->
          exists w2,
            ISEpiAgent.step self w1 = Ok (tt, w2)
            /\ option_map Agent.stage (find_agent self (Model.agents (snd w2)))
               = Some RECOVERED
            /\ quiet self w1 w2).
Proof.
  intros k self w a Hfind Hs Hunit Hrem Hdraws.
  destruct (@infected_progress k self w a Hfind Hs Hunit Hrem Hdraws)
    as [w1 [Hrun [Hf1 [Hnp _]]]].
  exists w1. split; [exact Hrun|]. split; [exact Hf1|]. split; [exact Hs|].
  split; [exact Hnp|]. intro Hk.
  assert (Hdone : remaining (ailing (Z.of_nat k) a) <= 0)
    by (unfold remaining in *; simpl; lia).
  eexists. split; [apply (@infected_recovers self w1 _ Hf1 Hs Hdone)|]. split.
  - assert (H2 : find_agent self
                   (Model.agents (snd (stored self (Agent.set_stage RECOVERED) w1)))
                 = Some (Agent.set_stage RECOVERED (ailing (Z.of_nat k) a)))
      by (now apply find_stored).
    rewrite (@find_stored self
               (Agent.set_astep (Agent.astep (ailing (Z.of_nat k) a) + 1))
               _ _ (fun x => eq_refl) H2).
    reflexivity.
  - apply quiet_trans with (w2 := stored self (Agent.set_stage RECOVERED) w1);
      apply quiet_stored; reflexivity.
Qed.

(** An INFECTED agent two steps from the end of its illness. *)
Definition ill : Model.t :=
  town [Agent.set_curr_recovery 28 (person 0 INFECTED 10 false 0)] [0%nat]
       (numpy [0.5%float; 0.5%float]).

Lemma infectious_period_witness :
  exists w1,
    steps_of 2 0 (seeded [], ill) = Ok (tt, w1)
    /\ find_agent 0 (Model.agents (snd w1))
       = Some (ailing 2 (Agent.set_curr_recovery 28 (person 0 INFECTED 10 false 0)))
    /\ Agent.stage (ailing 2 (Agent.set_curr_recovery 28 (person 0 INFECTED 10 false 0)))
       = INFECTED
    /\ advanced_by 2 (numpy [0.5%float; 0.5%float]) (Model.np_random (snd w1))
    /\ (2 = remaining (Agent.set_curr_recovery 28 (person 0 INFECTED 10 false 0)) ->
        exists w2,
          ISEpiAgent.step 0 w1 = Ok (tt, w2)
          /\ option_map Agent.stage (find_agent 0 (Model.agents (snd w2)))
             = Some RECOVERED
          /\ quiet 0 w1 w2).
Proof.
  apply (@infectious_period 2%nat 0%nat (seeded [], ill)
           (Agent.set_curr_recovery 28 (person 0 INFECTED 10 false 0)));
    try reflexivity.
  intros i Hi. destruct i as [|[|i]]; [reflexivity|reflexivity|lia].
Defined.

(* ================================================================== *)
(** ** From the agents to the model

    A relation between worlds that is kept by every agent update, by a
    shuffle and by the increment of [stepno] is kept by a step of the
    model, under either scheduler. *)

Section RespectsModel.
Variable R : World -> World -> Prop.
Hypothesis R_refl : forall w, R w w.
Hypothesis R_trans : forall w1 w2 w3, R w1 w2 -> R w2 w3 -> R w1 w3.
Hypothesis R_random : forall (w : World) r, R w (r, snd w).
Hypothesis R_stepno : forall (w : World) k, R w (fst w, Model.set_stepno k (snd w)).
Hypothesis R_agent : forall id, respects R (ISEpiAgent.step id).

Lemma respects_activate :
  forall ids, respects R (activate ISEpiAgent.step ids).
Proof.
  induction ids as [|id ids IH]; simpl.
  - now apply respects_ret.
  - apply (respects_bind R_trans); [apply R_agent|]. intro u. exact IH.
Qed.

Lemma respects_model_shuffle :
  forall x, respects R (model_shuffle (Env := Model.t) x).
Proof.
  intros x w. unfold model_shuffle.
  destruct (shuffle x (fst w)) as [x' r]. apply R_random.
Qed.

Lemma respects_run_stages :
  forall ks st, respects R (run_stages ISEpiAgent.step ks st).
Proof.
  induction ks as [|k ks IH]; intro st; simpl.
  - now apply respects_ret.
  - destruct (dict_get k st) as [bucket|]; [|apply respects_raise].
    apply (respects_bind R_trans); [apply respects_model_shuffle|].
    intro shuffled.
    apply (respects_bind R_trans); [apply respects_activate|].
    intro u. apply IH.
Qed.

Lemma respects_schedule_step :
  forall s, respects R (schedule_step registry ISEpiAgent.step s).
Proof.
  intros [g|u]; simpl.
  - apply (respects_bind R_trans); [|intro; now apply respects_ret].
    unfold GrahamActivation_step.
    apply (respects_bind R_trans); [intro w; apply R_refl|]. intro agents.
    apply (respects_bind R_trans); [now apply respects_lift|].
    intro st1.
    apply (respects_bind R_trans); [apply respects_run_stages|].
    intro st2. now apply respects_ret.
  - apply (respects_bind R_trans); [|intro; now apply respects_ret].
    unfold RandomActivation_step.
    apply (respects_bind R_trans); [intro w; apply R_refl|]. intro agents.
    apply (respects_bind R_trans); [apply respects_model_shuffle|].
    intro shuffled.
    apply (respects_bind R_trans); [apply respects_activate|].
    intro x. now apply respects_ret.
Qed.

Lemma respects_model_step :
  forall reporters s, respects R (ISEpiModel_step reporters s).
Proof.
  intros reporters s. unfold ISEpiModel_step.
  apply (respects_bind R_trans).
  { intro w. unfold lift. destruct (collect reporters (snd w)); [apply R_refl|exact I]. }
  intro row.
  apply (respects_bind R_trans); [apply respects_schedule_step|]. intro s'.
  apply (respects_bind R_trans); [intro w; apply R_stepno|]. intro u.
  now apply respects_ret.
Qed.
End RespectsModel.

(* ================================================================== *)
(** ** The grid and the positions of the agents *)

Lemma pos_eqb_eq : forall p q, MultiGrid.pos_eqb p q = true <-> p = q.
Proof.
  intros [px py] [qx qy]. unfold MultiGrid.pos_eqb. simpl.
  rewrite andb_true_iff, !Z.eqb_eq. split.
  - intros [-> ->]. reflexivity.
  - intro H. injection H as -> ->. auto.
Qed.

Lemma pos_eqb_refl : forall p, MultiGrid.pos_eqb p p = true.
Proof. intro p. now apply pos_eqb_eq. Qed.

Lemma cell_set_cell :
  forall cs p q ids,
    MultiGrid.cell q (MultiGrid.set_cell p ids cs)
    = if MultiGrid.pos_eqb p q then ids else MultiGrid.cell q cs.
Proof.
  induction cs as [|[q0 old] cs IH]; intros p q ids; simpl.
  - reflexivity.
  - destruct (MultiGrid.pos_eqb q0 p) eqn:Hp; simpl.
    + apply pos_eqb_eq in Hp. subst q0.
      now destruct (MultiGrid.pos_eqb p q).
    + rewrite IH. destruct (MultiGrid.pos_eqb q0 q) eqn:Hq; [|reflexivity].
      apply pos_eqb_eq in Hq. subst q0.
      destruct (MultiGrid.pos_eqb p q) eqn:Hpq; [|reflexivity].
      apply pos_eqb_eq in Hpq. subst q. rewrite pos_eqb_refl in Hp. discriminate Hp.
Qed.

Lemma remove_first_keeps :
  forall id l l',
    MultiGrid.remove_first id l = Some l' ->
    forall x, x <> id -> In x l -> In x l'.
Proof.
  intros id l. induction l as [|y l IH]; intros l' H x Hx Hin; simpl in H.
  - discriminate H.
  - destruct (Nat.eqb_spec y id) as [->|Hy].
    + injection H as <-. destruct Hin as [<-|Hin]; [contradiction|exact Hin].
    + destruct (MultiGrid.remove_first id l) as [rest|]; [|discriminate H].
      injection H as <-. destruct Hin as [<-|Hin]; [now left|].
      right. now apply (IH rest).
Qed.

Lemma remove_first_incl :
  forall id l l',
    MultiGrid.remove_first id l = Some l' -> forall x, In x l' -> In x l.
Proof.
  intros id l. induction l as [|y l IH]; intros l' H x Hin; simpl in H.
  - discriminate H.
  - destruct (Nat.eqb y id).
    + injection H as <-. now right.
    + destruct (MultiGrid.remove_first id l) as [rest|]; [|discriminate H].
      injection H as <-. destruct Hin as [<-|Hin]; [now left|].
      right. now apply (IH rest).
Qed.

Lemma remove_first_listed :
  forall id l, In id l -> exists l', MultiGrid.remove_first id l = Some l'.
Proof.
  intros id l. induction l as [|y l IH]; intro Hin; simpl.
  - destruct Hin.
  - destruct (Nat.eqb_spec y id) as [->|Hy]; [eauto|].
    destruct Hin as [->|Hin]; [contradiction|].
    destruct (IH Hin) as [l' ->]. eauto.
Qed.

(** [move_agent]: the agent is listed in its new cell, every other
    occupant is where it was, and nobody else appears anywhere. *)
Lemma move_agent_cells :
  forall g id old new g',
    MultiGrid.move_agent g id old new = Ok g' ->
    In id (MultiGrid.get_cell_list_contents g' new)
    /\ (forall x p, x <> id ->
          In x (MultiGrid.get_cell_list_contents g p) ->
          In x (MultiGrid.get_cell_list_contents g' p))
    /\ (forall x p,
          In x (MultiGrid.get_cell_list_contents g' p) ->
          x = id \/ In x (MultiGrid.get_cell_list_contents g p)).
Proof.
  intros g id old new g' H. unfold MultiGrid.move_agent in H.
  destruct (MultiGrid.remove_first id (MultiGrid.cell old (MultiGrid.cells g)))
    as [ids|] eqn:Hrm; [|discriminate H].
  injection H as <-. unfold MultiGrid.get_cell_list_contents. cbn [MultiGrid.cells].
  split; [|split].
  - rewrite cell_set_cell, pos_eqb_refl. apply in_or_app. right. now left.
  - intros x p Hx Hin. rewrite cell_set_cell.
    assert (Hcs : In x (MultiGrid.cell p (MultiGrid.set_cell old ids (MultiGrid.cells g)))).
    { rewrite cell_set_cell. destruct (MultiGrid.pos_eqb old p) eqn:Hp; [|exact Hin].
      apply pos_eqb_eq in Hp. subst p. now apply (@remove_first_keeps _ _ _ Hrm). }
    destruct (MultiGrid.pos_eqb new p) eqn:Hn; [|exact Hcs].
    apply pos_eqb_eq in Hn. subst p. apply in_or_app. now left.
  - intros x p Hin. rewrite cell_set_cell in Hin.
    assert (Hcs : forall q,
               In x (MultiGrid.cell q (MultiGrid.set_cell old ids (MultiGrid.cells g))) ->
               In x (MultiGrid.cell q (MultiGrid.cells g))).
    { intros q Hq. rewrite cell_set_cell in Hq.
      destruct (MultiGrid.pos_eqb old q) eqn:Hp; [|exact Hq].
      apply pos_eqb_eq in Hp. subst q. now apply (@remove_first_incl _ _ _ Hrm). }
    destruct (MultiGrid.pos_eqb new p) eqn:Hn.
    + apply pos_eqb_eq in Hn. subst p. apply in_app_or in Hin as [Hin|[<-|[]]].
      * right. now apply Hcs.
      * now left.
    + right. now apply Hcs.
Qed.

Lemma dedup_incl :
  forall l seen p, In p (MultiGrid.dedup seen l) -> In p l.
Proof.
  induction l as [|q l IH]; intros seen p H; simpl in H; [exact H|].
  destruct (existsb (MultiGrid.pos_eqb q) seen).
  - right. now apply (IH seen).
  - destruct H as [<-|H]; [now left|right; now apply (IH (q :: seen))].
Qed.

(** The coordinates of a neighbourhood are wrapped already. *)
Lemma neighborhood_wrapped :
  forall g p q,
    In q (MultiGrid.get_neighborhood g p) -> MultiGrid.torus_adj g q = q.
Proof.
  intros g p q H. unfold MultiGrid.get_neighborhood in H.
  apply dedup_incl in H. apply in_map_iff in H as [d [<- _]].
  unfold MultiGrid.torus_adj. cbn [fst snd]. now rewrite !Zmod_mod.
Qed.

Lemma neighborhood_nonempty :
  forall g p, MultiGrid.get_neighborhood g p <> [].
Proof. intros g p. unfold MultiGrid.get_neighborhood. simpl. discriminate. Qed.

(** Every registered agent is listed in the cell of its position. *)
Definition placed (w : World) : Prop :=
  forall id a,
    find_agent id (Model.agents (snd w)) = Some a ->
    In id (MultiGrid.get_cell_list_contents (Model.grid (snd w)) (Agent.pos a)).

(** Every id a cell lists is the id of a registered agent. *)
Definition cells_registered (w : World) : Prop :=
  forall p c,
    In c (MultiGrid.get_cell_list_contents (Model.grid (snd w)) p) ->
    exists co, find_agent c (Model.agents (snd w)) = Some co.

(* ================================================================== *)
(** ** Relocation *)

(** The cell [self.random.choice] picks among the neighbours of [p]. *)
Definition chosen (w : World) (p : MultiGrid.Pos) : MultiGrid.Pos :=
  let nbrs := MultiGrid.get_neighborhood (Model.grid (snd w)) p in
  nth (fst (randbelow (List.length nbrs) (fst w))) nbrs p.

(** The world after [self] has gone to [chosen] on the grid [g']: one
    output of [model.random] and one NumPy request are consumed, and the
    count of the request is the new dwelling time. *)
Definition relocated (self : nat) (a : Agent.t) (g' : MultiGrid.t) (w : World) : World :=
  let nbrs := MultiGrid.get_neighborhood (Model.grid (snd w)) (Agent.pos a) in
  stored self
    (Agent.set_curr_dwelling (count (fst (next_draw (Model.np_random (snd w))))))
    (after_trial
       (stored self (Agent.set_pos (chosen w (Agent.pos a)))
          (snd (randbelow (List.length nbrs) (fst w)), Model.set_grid g' (snd w)))).

Lemma chosen_neighbour :
  forall w p, In (chosen w p) (MultiGrid.get_neighborhood (Model.grid (snd w)) p).
Proof.
  intros w p. unfold chosen. apply nth_In. unfold randbelow. cbn [fst].
  apply Nat.mod_upper_bound.
  pose proof (@neighborhood_nonempty (Model.grid (snd w)) p) as Hne.
  destruct (MultiGrid.get_neighborhood (Model.grid (snd w)) p); [contradiction|discriminate].
Qed.

(** [move] on an agent whose dwelling is exhausted. *)
Lemma move_leaves :
  forall self w a,
    find_agent self (Model.agents (snd w)) = Some a ->
    (Agent.curr_dwelling a >? 0) = false ->
    ISEpiAgent.move self w
    = match MultiGrid.move_agent (Model.grid (snd w)) self (Agent.pos a)
              (chosen w (Agent.pos a)) with
      | Raise e => Raise e
      | Ok g' =>
          if PrimFloat.leb 0 (Model.avg_dwell (snd w))
          then Ok (tt, relocated self a g' w)
          else Raise (ValueError "Domain error in arguments.")
      end.
Proof.
  intros self w a Hfind Hd.
  pose proof (chosen_neighbour w (Agent.pos a)) as Hin.
  pose proof (@neighborhood_wrapped _ _ _ Hin) as Hwrap.
  unfold relocated, chosen in *.
  unfold ISEpiAgent.move, bind at 1. rewrite (get_agent_found _ _ Hfind), Hd.
  unfold bind at 1, model at 1, gets. cbn [snd fst].
  unfold bind at 1, random_choice.
  pose proof (@neighborhood_nonempty (Model.grid (snd w)) (Agent.pos a)) as Hne.
  destruct (MultiGrid.get_neighborhood (Model.grid (snd w)) (Agent.pos a))
    as [|x rest] eqn:Hn; [contradiction|].
  unfold randbelow in *. cbn [fst snd] in *.
  set (i := Nat.modulo (raw (fst w) (consumed (fst w))) (List.length (x :: rest))) in *.
  rewrite (nth_indep (x :: rest) x (Agent.pos a)) by
    (apply Nat.mod_upper_bound; discriminate).
  rewrite Hwrap.
  unfold bind at 1, lift.
  destruct (MultiGrid.move_agent (Model.grid (snd w)) self (Agent.pos a)
              (nth i (x :: rest) (Agent.pos a))) as [g'|e]; [|reflexivity].
  unfold bind at 1, modify. unfold bind at 1, setattr at 1, modify.
  unfold bind at 1, model, gets. cbn [snd fst Model.avg_dwell Model.set_agents Model.set_grid].
  unfold bind at 1, poisson_rvs. cbn [snd fst Model.avg_dwell Model.set_agents Model.set_grid].
  destruct (PrimFloat.leb 0 (Model.avg_dwell (snd w))); reflexivity.
Qed.

(** X8. Relocation: [move] on a registered agent whose dwelling is
    exhausted, who is listed in the cell of its position, under a valid
    [avg_dwell], returns.  The agent is then at a cell of the Moore
    neighbourhood of its old position and listed there, its dwelling time
    is the count of the one NumPy request made, one output of
    [model.random] has been consumed, every other occupant of the grid is
    listed exactly where it was, and the other agents, the model's
    parameters and the agent's other attributes are as before. *)
Theorem move_relocates :
  forall self w a,
    find_agent self (Model.agents (snd w)) = Some a ->
    Agent.curr_dwelling a <= 0 ->
    In self (MultiGrid.get_cell_list_contents (Model.grid (snd w)) (Agent.pos a)) ->
    PrimFloat.leb 0 (Model.avg_dwell (snd w)) = true ->
    exists w' new,
      ISEpiAgent.move self w = Ok (tt, w')
      /\ In new (MultiGrid.get_neighborhood (Model.grid (snd w)) (Agent.pos a))
      /\ find_agent self (Model.agents (snd w'))
         = Some (Agent.set_curr_dwelling
                   (count (fst (next_draw (Model.np_random (snd w)))))
                   (Agent.set_pos new a))
      /\ In self (MultiGrid.get_cell_list_contents (Model.grid (snd w')) new)
      /\ (forall x p, x <> self ->
            (In x (MultiGrid.get_cell_list_contents (Model.grid (snd w')) p)
             <-> In x (MultiGrid.get_cell_list_contents (Model.grid (snd w)) p)))
      /\ consumed (fst w') = S (consumed (fst w))
      /\ advanced_by 1 (Model.np_random (snd w)) (Model.np_random (snd w'))
      /\ confined self w w'.
Proof.
  intros self w a Hfind Hd Hlisted Hmu.
  assert (Hd' : (Agent.curr_dwelling a >? 0) = false).
  { destruct (Z.gtb_spec (Agent.curr_dwelling a) 0); [lia|reflexivity]. }
  rewrite (move_leaves _ _ Hfind Hd'), Hmu.
  destruct (remove_first_listed _ _ Hlisted) as [ids Hrm].
  destruct (MultiGrid.move_agent (Model.grid (snd w)) self (Agent.pos a)
              (chosen w (Agent.pos a))) as [g'|e] eqn:Hmove.
  2:{ unfold MultiGrid.move_agent in Hmove.
      unfold MultiGrid.get_cell_list_contents in Hrm. rewrite Hrm in Hmove.
      discriminate Hmove. }
  destruct (move_agent_cells _ _ _ _ Hmove) as [Hnew [Hkeep Hback]].
  exists (relocated self a g' w), (chosen w (Agent.pos a)).
  split; [reflexivity|]. split; [apply chosen_neighbour|]. split.
  { unfold relocated.
    apply (@find_stored self (Agent.set_curr_dwelling _) _ _ (fun x => eq_refl)).
    unfold after_trial. cbn [snd fst Model.agents Model.set_np_random].
    apply (@find_stored self (Agent.set_pos _) (_, _) _ (fun x => eq_refl)).
    exact Hfind. }
  split; [exact Hnew|]. split.
  { intros x p Hx. split; intro H.
    - destruct (Hback x p H) as [->|H']; [contradiction|exact H'].
    - now apply Hkeep. }
  split; [reflexivity|]. split.
  { unfold advanced_by, relocated. cbn. f_equal. lia. }
  unfold relocated.
  set (w1 := (snd (randbelow
                     (List.length
                        (MultiGrid.get_neighborhood (Model.grid (snd w)) (Agent.pos a)))
                     (fst w)), Model.set_grid g' (snd w))).
  set (w2 := stored self (Agent.set_pos (chosen w (Agent.pos a))) w1).
  apply confined_trans with (w2 := w1); [repeat split|].
  apply confined_trans with (w2 := w2); [apply confined_stored; reflexivity|].
  apply confined_trans with (w2 := after_trial w2);
    [unfold after_trial; repeat split|apply confined_stored; reflexivity].
Qed.

(** A RECOVERED agent in the corner of the town, its dwelling exhausted. *)
Definition restless : Model.t :=
  town [person 0 RECOVERED 10 false 0] [0%nat] (numpy []).

Lemma move_relocates_witness :
  exists w' new,
    ISEpiAgent.move 0 (seeded [3%nat], restless) = Ok (tt, w')
    /\ In new (MultiGrid.get_neighborhood (Model.grid restless) (0, 0))
    /\ find_agent 0 (Model.agents (snd w'))
       = Some (Agent.set_curr_dwelling 3
                 (Agent.set_pos new (person 0 RECOVERED 10 false 0)))
    /\ In 0%nat (MultiGrid.get_cell_list_contents (Model.grid (snd w')) new)
    /\ (forall x p, x <> 0%nat ->
          (In x (MultiGrid.get_cell_list_contents (Model.grid (snd w')) p)
           <-> In x (MultiGrid.get_cell_list_contents (Model.grid restless) p)))
    /\ consumed (fst w') = 1%nat
    /\ advanced_by 1 (numpy []) (Model.np_random (snd w'))
    /\ confined 0 (seeded [3%nat], restless) w'.
Proof.
  apply (@move_relocates 0%nat (seeded [3%nat], restless)
           (person 0 RECOVERED 10 false 0));
    [reflexivity|simpl; lia|simpl; now left|reflexivity].
Defined.

(* ================================================================== *)
(** ** The grid stays consistent with the positions *)

(** From [w] to [w'] the agents stay listed where they stand, and the
    cells keep listing registered agents only. *)
Definition settled (w w' : World) : Prop :=
  (placed w -> placed w') /\ (cells_registered w -> cells_registered w').

Lemma settled_refl : forall w, settled w w.
Proof. intro w. split; auto. Qed.

Lemma settled_trans :
  forall w1 w2 w3, settled w1 w2 -> settled w2 w3 -> settled w1 w3.
Proof. intros w1 w2 w3 [H1 H1'] [H2 H2']. split; auto. Qed.

(** Neither property looks beyond the agents and the grid. *)
Lemma settled_scene :
  forall w w' : World,
    Model.agents (snd w') = Model.agents (snd w) ->
    Model.grid (snd w') = Model.grid (snd w) ->
    settled w w'.
Proof.
  intros w w' Ha Hg. unfold settled, placed, cells_registered.
  rewrite Ha, Hg. auto.
Qed.

(** A store that leaves the id and the position of the object alone. *)
Lemma settled_stored :
  forall self (f : Agent.t -> Agent.t),
    (forall a, Agent.unique_id (f a) = Agent.unique_id a) ->
    (forall a, Agent.pos (f a) = Agent.pos a) ->
    forall w, settled w (stored self f w).
Proof.
  intros self f Hid Hpos w. split.
  - intros Hp id a' Hf. unfold stored in *. cbn [snd Model.agents Model.grid Model.set_agents] in *.
    rewrite find_update_agent in Hf by exact Hid.
    destruct (Nat.eqb self id); [|now apply Hp].
    destruct (find_agent id (Model.agents (snd w))) as [a|] eqn:Ha; [|discriminate Hf].
    injection Hf as <-. rewrite Hpos. now apply Hp.
  - intros Hc p c Hin. unfold stored in *. cbn [snd Model.agents Model.grid Model.set_agents] in *.
    destruct (Hc p c Hin) as [co Hco].
    rewrite find_update_agent by exact Hid.
    destruct (Nat.eqb self c); rewrite Hco; simpl; eauto.
Qed.

Lemma settled_move : forall self, respects settled (ISEpiAgent.move self).
Proof.
  intros self w.
  destruct (find_agent self (Model.agents (snd w))) as [a|] eqn:Hfind.
  2:{ unfold ISEpiAgent.move, bind, get_agent. now rewrite Hfind. }
  destruct (Agent.curr_dwelling a >? 0) eqn:Hd.
  { rewrite (move_dwells _ _ Hfind Hd). apply settled_stored; reflexivity. }
  rewrite (move_leaves _ _ Hfind Hd).
  destruct (MultiGrid.move_agent (Model.grid (snd w)) self (Agent.pos a)
              (chosen w (Agent.pos a))) as [g'|e] eqn:Hmove; [|exact I].
  destruct (PrimFloat.leb 0 (Model.avg_dwell (snd w))); [|exact I].
  destruct (move_agent_cells _ _ _ _ Hmove) as [Hnew [Hkeep Hback]].
  unfold relocated.
  set (w1 := (snd (randbelow
                     (List.length
                        (MultiGrid.get_neighborhood (Model.grid (snd w)) (Agent.pos a)))
                     (fst w)), Model.set_grid g' (snd w))).
  set (w2 := stored self (Agent.set_pos (chosen w (Agent.pos a))) w1).
  apply settled_trans with (w2 := w2).
  2:{ apply settled_trans with (w2 := after_trial w2);
        [now apply settled_scene|apply settled_stored; reflexivity]. }
  split.
  - intros Hp id a' Hf. unfold w2, w1, stored in *.
    cbn [snd fst Model.agents Model.grid Model.set_agents Model.set_grid] in *.
    rewrite find_update_agent in Hf by reflexivity.
    destruct (Nat.eqb_spec self id) as [<-|Hne].
    + rewrite Hfind in Hf. injection Hf as <-. exact Hnew.
    + apply Hkeep; [congruence|]. now apply Hp.
  - intros Hc p c Hin. unfold w2, w1, stored in *.
    cbn [snd fst Model.agents Model.grid Model.set_agents Model.set_grid] in *.
    rewrite find_update_agent by reflexivity.
    assert (Hreg : exists co, find_agent c (Model.agents (snd w)) = Some co).
    { destruct (Hback c p Hin) as [->|Hin']; [eauto|now apply (Hc p)]. }
    destruct Hreg as [co Hco]. destruct (Nat.eqb self c); rewrite Hco; simpl; eauto.
Qed.

Lemma settled_step : forall self, respects settled (ISEpiAgent.step self).
Proof.
  intro self.
  apply respects_step with (self := self);
    first [ exact settled_refl
          | exact settled_trans
          | apply settled_move
          | intros; apply settled_stored; reflexivity
          | intros; now apply settled_scene ].
Qed.

(** X9. A step of the model that returns keeps the grid consistent with
    the agents, under either scheduler: if every registered agent was
    listed in the cell of its position it still is, and if the cells
    listed registered agents only they still do. *)
Theorem model_step_settled :
  forall reporters s w s' w',
    ISEpiModel_step reporters s w = Ok (s', w') ->
    (placed w -> placed w') /\ (cells_registered w -> cells_registered w').
Proof.
  intros reporters s w s' w' H.
  pose proof (@respects_model_step settled settled_refl settled_trans) as Hr.
  specialize (Hr ltac:(intros; now apply settled_scene)
                 ltac:(intros; now apply settled_scene) settled_step reporters s w).
  now rewrite H in Hr.
Qed.

Lemma graveyard_placed : placed (seeded [], graveyard).
Proof.
  intros id a H. destruct id as [|[|id]]; simpl in H;
    [injection H as <-|injection H as <-|discriminate H]; simpl; auto.
Qed.

Lemma graveyard_cells_registered : cells_registered (seeded [], graveyard).
Proof.
  intros p c Hin. unfold MultiGrid.get_cell_list_contents in Hin. simpl in Hin.
  destruct (MultiGrid.pos_eqb (0, 0) p); simpl in Hin; [|contradiction].
  destruct Hin as [<-|[<-|[]]]; eexists; reflexivity.
Qed.

Lemma model_step_settled_witness :
  exists s' w',
    ISEpiModel_step [] (Uniform (mkUniform 0 0)) (seeded [], graveyard) = Ok (s', w')
    /\ placed w' /\ cells_registered w'.
Proof.
  eexists. eexists. split; [reflexivity|].
  destruct (@model_step_settled [] (Uniform (mkUniform 0 0)) (seeded [], graveyard)
              _ _ eq_refl) as [Hp Hc].
  split; [apply Hp, graveyard_placed|apply Hc, graveyard_cells_registered].
Defined.

(* ================================================================== *)
(** ** The population, agent by agent *)

(** What an update may do to an agent object: the attributes no method
    assigns are as before, and the stage has moved along the machine. *)
Definition updated (a a' : Agent.t) : Prop :=
  fixed a' = fixed a /\ may_become (Agent.stage a) (Agent.stage a') = true.

Lemma updated_refl : forall a, updated a a.
Proof. intro a. split; [reflexivity|now destruct (Agent.stage a)]. Qed.

Lemma updated_trans : forall a b c, updated a b -> updated b c -> updated a c.
Proof.
  intros a b c [Hf1 Hs1] [Hf2 Hs2]. split; [congruence|].
  destruct (Agent.stage a), (Agent.stage b), (Agent.stage c);
    try reflexivity; discriminate.
Qed.

(** The agents of [w'] are those of [w], in the same order, each updated. *)
Definition population_updated (w w' : World) : Prop :=
  Forall2 updated (Model.agents (snd w)) (Model.agents (snd w'))
  /\ Model.num_agents (snd w') = Model.num_agents (snd w).

Lemma Forall2_updated_refl : forall l, Forall2 updated l l.
Proof. induction l; constructor; [apply updated_refl|assumption]. Qed.

Lemma Forall2_updated_trans :
  forall l1 l2 l3, Forall2 updated l1 l2 -> Forall2 updated l2 l3 -> Forall2 updated l1 l3.
Proof.
  intros l1 l2 l3 H12. revert l3.
  induction H12 as [|a b l1 l2 Hab H12 IH]; intros l3 H23;
    inversion H23; subst; constructor.
  - eapply updated_trans; eassumption.
  - now apply IH.
Qed.

Lemma population_updated_refl : forall w, population_updated w w.
Proof. intro w. split; [apply Forall2_updated_refl|reflexivity]. Qed.

Lemma population_updated_trans :
  forall w1 w2 w3,
    population_updated w1 w2 -> population_updated w2 w3 -> population_updated w1 w3.
Proof.
  intros w1 w2 w3 [H1 N1] [H2 N2].
  split; [eapply Forall2_updated_trans; eassumption|congruence].
Qed.

(** The agents of [w'] are those of [w] but for stores on the object
    [self]. *)
Definition rewritten (self : nat) (w w' : World) : Prop :=
  exists f : Agent.t -> Agent.t,
    (forall a, Agent.unique_id (f a) = Agent.unique_id a)
    /\ Model.agents (snd w') = update_agent self f (Model.agents (snd w)).

Lemma update_agent_id :
  forall self l, update_agent self (fun a => a) l = l.
Proof.
  intros self l. induction l as [|a l IH]; simpl; [reflexivity|].
  destruct (Nat.eqb (Agent.unique_id a) self); [reflexivity|now rewrite IH].
Qed.

Lemma update_agent_twice :
  forall self (f1 f2 : Agent.t -> Agent.t) l,
    (forall a, Agent.unique_id (f1 a) = Agent.unique_id a) ->
    update_agent self f2 (update_agent self f1 l)
    = update_agent self (fun a => f2 (f1 a)) l.
Proof.
  intros self f1 f2 l Hf1. induction l as [|a l IH]; simpl; [reflexivity|].
  destruct (Nat.eqb (Agent.unique_id a) self) eqn:Ha; simpl.
  - now rewrite Hf1, Ha.
  - now rewrite Ha, IH.
Qed.

Lemma rewritten_scene :
  forall self (w w' : World),
    Model.agents (snd w') = Model.agents (snd w) -> rewritten self w w'.
Proof.
  intros self w w' H. exists (fun a => a).
  split; [reflexivity|]. now rewrite update_agent_id.
Qed.

Lemma rewritten_trans :
  forall self w1 w2 w3,
    rewritten self w1 w2 -> rewritten self w2 w3 -> rewritten self w1 w3.
Proof.
  intros self w1 w2 w3 [f1 [Hf1 H1]] [f2 [Hf2 H2]].
  exists (fun a => f2 (f1 a)). split.
  - intro a. now rewrite Hf2, Hf1.
  - rewrite H2, H1. now apply update_agent_twice.
Qed.

Lemma rewritten_stored :
  forall self (f : Agent.t -> Agent.t),
    (forall a, Agent.unique_id (f a) = Agent.unique_id a) ->
    forall w, rewritten self w (stored self f w).
Proof. intros self f Hf w. exists f. split; [exact Hf|reflexivity]. Qed.

Lemma rewritten_step : forall self, respects (rewritten self) (ISEpiAgent.step self).
Proof.
  intro self.
  assert (Hrefl : forall w, rewritten self w w)
    by (intro w; now apply rewritten_scene).
  apply respects_step with (self := self);
    first [ exact Hrefl
          | exact (@rewritten_trans self)
          | intros; apply rewritten_stored; reflexivity
          | intros; now apply rewritten_scene
          | idtac ].
  apply respects_move;
    first [ exact Hrefl
          | exact (@rewritten_trans self)
          | intros; apply rewritten_stored; reflexivity
          | intros; now apply rewritten_scene ].
Qed.

Lemma update_agent_updated :
  forall self (f : Agent.t -> Agent.t) l,
    (forall a, find_agent self l = Some a -> updated a (f a)) ->
    Forall2 updated l (update_agent self f l).
Proof.
  intros self f l. induction l as [|a l IH]; intro H; simpl; [constructor|].
  simpl in H. destruct (Nat.eqb (Agent.unique_id a) self).
  - constructor; [now apply H|apply Forall2_updated_refl].
  - constructor; [apply updated_refl|now apply IH].
Qed.

(** One agent update, seen on the whole population. *)
Lemma population_updated_step :
  forall self, respects population_updated (ISEpiAgent.step self).
Proof.
  intros self w.
  pose proof (rewritten_step self w) as Hrw.
  pose proof (confined_step self w) as Hconf.
  destruct (ISEpiAgent.step self w) as [[u w']|e] eqn:Hstep; [|exact I].
  destruct Hrw as [f [Hid Hagents]].
  destruct Hconf as [_ [Hconfig [_ Hfixed]]].
  split.
  2:{ apply (f_equal (fun c => snd (fst c))) in Hconfig. exact Hconfig. }
  rewrite Hagents. apply update_agent_updated. intros a Hfind.
  assert (Hfind' : find_agent self (Model.agents (snd w')) = Some (f a)).
  { rewrite Hagents, find_update_agent by exact Hid.
    now rewrite Nat.eqb_refl, Hfind. }
  split.
  - rewrite Hfind', Hfind in Hfixed. cbn [option_map] in Hfixed. congruence.
  - assert (Hat : stage_at self w = Some (Agent.stage a))
      by (unfold stage_at; now rewrite Hfind).
    pose proof (@step_spec self (Agent.stage a) w Hat) as Hspec.
    rewrite Hstep in Hspec. destruct Hspec as [s' [Hs' Hmay]].
    unfold stage_at in Hs'. rewrite Hfind' in Hs'. simpl in Hs'.
    injection Hs' as <-. exact Hmay.
Qed.

Lemma population_updated_scene :
  forall w w' : World,
    Model.agents (snd w') = Model.agents (snd w) ->
    Model.num_agents (snd w') = Model.num_agents (snd w) ->
    population_updated w w'.
Proof.
  intros w w' Ha Hn. split; [rewrite Ha; apply Forall2_updated_refl|exact Hn].
Qed.

Lemma population_updated_model_step :
  forall reporters s w s' w',
    ISEpiModel_step reporters s w = Ok (s', w') -> population_updated w w'.
Proof.
  intros reporters s w s' w' H.
  pose proof (@respects_model_step population_updated population_updated_refl
                population_updated_trans) as Hr.
  specialize (Hr ltac:(intros; now apply population_updated_scene)
                 ltac:(intros; now apply population_updated_scene)
                 population_updated_step reporters s w).
  now rewrite H in Hr.
Qed.

(* ================================================================== *)
(** ** The census over a step of the model *)

Lemma census_updated :
  forall l l',
    Forall2 updated l l' ->
    count_type_loop l' DECEASED 0 = count_type_loop l DECEASED 0
    /\ count_type_loop l' SUSCEPTIBLE 0 <= count_type_loop l SUSCEPTIBLE 0
    /\ count_type_loop l RECOVERED 0 <= count_type_loop l' RECOVERED 0.
Proof.
  intros l l' H. induction H as [|a a' l l' [_ Hmay] _ [IHd [IHs IHr]]].
  - simpl. lia.
  - cbn [count_type_loop].
    destruct (Agent.stage a), (Agent.stage a'); try discriminate Hmay;
      cbn [Stage_eqb Stage_value Z.eqb Pos.eqb];
      rewrite ?(count_type_loop_acc l _ (0 + 1)), ?(count_type_loop_acc l' _ (0 + 1));
      lia.
Qed.

(** X10. Nobody dies and nobody is susceptible again: over a step of the
    model that returns, under either scheduler, the number of DECEASED
    agents is unchanged (so is the share [compute_deceased] reports), the
    number of SUSCEPTIBLE agents has not grown and the number of RECOVERED
    agents has not shrunk. *)
Theorem stage_census_monotone :
  forall reporters s w s' w',
    ISEpiModel_step reporters s w = Ok (s', w') ->
    count_type (snd w') DECEASED = count_type (snd w) DECEASED
    /\ count_type (snd w') SUSCEPTIBLE <= count_type (snd w) SUSCEPTIBLE
    /\ count_type (snd w) RECOVERED <= count_type (snd w') RECOVERED
    /\ compute_deceased (snd w') = compute_deceased (snd w).
Proof.
  intros reporters s w s' w' H.
  destruct (@population_updated_model_step _ _ _ _ _ H) as [Hpop Hn].
  destruct (census_updated Hpop) as [Hd [Hs Hr]].
  unfold compute_deceased, count_type.
  repeat split; try assumption. now rewrite Hd, Hn.
Qed.

Lemma stage_census_monotone_witness :
  exists s' w',
    ISEpiModel_step [] (Uniform (mkUniform 0 0)) (seeded [], graveyard) = Ok (s', w')
    /\ count_type (snd w') DECEASED = 1
    /\ count_type (snd w') SUSCEPTIBLE <= 0
    /\ 0 <= count_type (snd w') RECOVERED
    /\ compute_deceased (snd w') = compute_deceased graveyard.
Proof.
  eexists. eexists. split; [reflexivity|].
  eapply (@stage_census_monotone [] (Uniform (mkUniform 0 0)) (seeded [], graveyard)).
  reflexivity.
Defined.

(** Lines 185-192: the loop of [compute_isolated]. *)
Fixpoint compute_isolated_loop (l : list Agent.t) (count : Z) : Z :=
  match l with
  | [] => count
  | agent :: rest =>
      if Agent.isolated agent then compute_isolated_loop rest (count + 1)
      else compute_isolated_loop rest count
  end.

(** Lines 185-192. *)
Definition compute_isolated (m : Model.t) : result float :=
  int_truediv (compute_isolated_loop (Model.agents m) 0) (Model.num_agents m).

Lemma isolated_updated :
  forall l l',
    Forall2 updated l l' ->
    forall count, compute_isolated_loop l' count = compute_isolated_loop l count.
Proof.
  intros l l' H. induction H as [|a a' l l' [Hfixed _] _ IH]; intro count.
  - reflexivity.
  - cbn [compute_isolated_loop].
    assert (Hiso : Agent.isolated a' = Agent.isolated a).
    { apply (f_equal (fun x => snd (fst x))) in Hfixed. exact Hfixed. }
    rewrite Hiso. now rewrite !IH.
Qed.

(** X11. No step changes who is isolated: over a step of the model that
    returns, under either scheduler, [compute_isolated] reports the same
    share (or raises the same [ZeroDivisionError]) after as before. *)
Theorem isolated_share_constant :
  forall reporters s w s' w',
    ISEpiModel_step reporters s w = Ok (s', w') ->
    compute_isolated (snd w') = compute_isolated (snd w).
Proof.
  intros reporters s w s' w' H.
  destruct (@population_updated_model_step _ _ _ _ _ H) as [Hpop Hn].
  unfold compute_isolated. now rewrite (isolated_updated Hpop), Hn.
Qed.

(** Two agents at home, one of them isolated and ill. *)
Definition household : Model.t :=
  town [person 0 DECEASED 10 false 0; person 1 INFECTED 12 true 0]
       [0; 1]%nat (numpy []).

Lemma isolated_share_constant_witness :
  exists s' w',
    ISEpiModel_step [] (Graham (mkGraham [] 1 0 0)) (seeded [], household) = Ok (s', w')
    /\ compute_isolated (snd w') = Ok 0.5%float.
Proof.
  eexists. eexists. split; [reflexivity|].
  eapply (@isolated_share_constant [] (Graham (mkGraham [] 1 0 0)) (seeded [], household)).
  reflexivity.
Defined.

(* ================================================================== *)
(** ** A population of SUSCEPTIBLE agents on the grid *)

(** The contact scan of an agent that stands on the grid meets an
    occupant, itself if nobody else, and raises on [is_contagious]. *)
Lemma placed_susceptible_raises :
  forall self w a,
    find_agent self (Model.agents (snd w)) = Some a ->
    Agent.stage a = SUSCEPTIBLE ->
    in_unit_interval (Model.rate_inbound (snd w)) = true ->
    inbound w = false ->
    placed w -> cells_registered w ->
    ISEpiAgent.step self w = Raise (AttributeError "EXPOSED").
Proof.
  intros self w a Hfind Hstage Hrate Hin Hp Hc.
  pose proof (Hp self a Hfind) as Hlisted.
  destruct (MultiGrid.get_cell_list_contents (Model.grid (snd w)) (Agent.pos a))
    as [|c rest] eqn:Hcell; [destruct Hlisted|].
  destruct (Hc (Agent.pos a) c) as [co Hco]; [rewrite Hcell; now left|].
  rewrite (@step_not_inbound self w a Hfind Hstage Hrate Hin).
  unfold bind at 1, ISEpiAgent.step_susceptible, bind at 1, ISEpiAgent.exposure.
  unfold bind at 1, get_agent at 1. simpl. rewrite Hfind.
  unfold bind at 1, model, gets. simpl. rewrite Hcell.
  unfold bind at 1. simpl. unfold bind at 1, get_agent at 1. simpl. rewrite Hco.
  reflexivity.
Qed.

Lemma find_registered :
  forall id l,
    In id (map Agent.unique_id l) ->
    exists a, find_agent id l = Some a /\ In a l.
Proof.
  intros id l. induction l as [|a l IH]; simpl; intro H; [contradiction|].
  destruct (Nat.eqb_spec (Agent.unique_id a) id) as [Ha|Ha].
  - exists a. auto.
  - destruct H as [H|H]; [contradiction|].
    destruct (IH H) as [b [Hb Hin]]. exists b. auto.
Qed.

Lemma registry_ids :
  forall m, map fst (registry m) = map Agent.unique_id (Model.agents m).
Proof. intro m. unfold registry. now rewrite map_map. Qed.

Lemma activate_raises :
  forall e ids (w : World),
    ids <> [] ->
    (forall id, In id ids -> ISEpiAgent.step id w = Raise e) ->
    activate ISEpiAgent.step ids w = Raise e.
Proof.
  intros e [|id ids] w Hne Hfail; [contradiction|].
  simpl. unfold bind. rewrite (Hfail id) by (now left). reflexivity.
Qed.

Lemma ids_with_listed :
  forall k agents x, In (x, k) agents -> In x (ids_with k agents).
Proof.
  intros k agents x H. unfold ids_with.
  apply in_map_iff. exists (x, k). split; [reflexivity|].
  apply filter_In. split; [exact H|]. simpl. apply Z.eqb_refl.
Qed.

(** The buckets are run in key order; the empty ones pass, and the first
    agent of the first bucket that holds one is updated first. *)
Lemma run_stages_raises :
  forall e (m : Model.t) todo ks (g : Z -> list nat) r,
    NoDup ks -> NoDup todo -> incl todo ks ->
    (forall k id r', In k todo -> In id (g k) ->
       ISEpiAgent.step id (r', m) = Raise e) ->
    (exists k, In k todo /\ g k <> []) ->
    run_stages ISEpiAgent.step todo (table ks g) (r, m) = Raise e.
Proof.
  intros e m todo. induction todo as [|k todo IH];
    intros ks g r Hks Htodo Hincl Hfail [k0 [Hk0 Hne]]; [destruct Hk0|].
  inversion Htodo as [|? ? Hnotin Htodo']; subst.
  assert (Hk : In k ks) by (apply Hincl; now left).
  cbn [run_stages]. rewrite (dict_get_table ks g k Hk).
  unfold bind at 1, model_shuffle. cbn [fst snd].
  pose proof (shuffle_Permutation (g k) r) as Hperm.
  destruct (shuffle (g k) r) as [shuffled r1]. cbn [fst] in Hperm.
  destruct shuffled as [|i rest].
  - apply Permutation_nil in Hperm.
    unfold bind at 1. cbn [activate]. unfold ret.
    rewrite dict_set_table by assumption.
    apply IH; try assumption.
    + intros k' Hk'. apply Hincl. now right.
    + intros k' id r' Hk' Hid. apply (Hfail k' id r'); [now right|].
      unfold override in Hid.
      destruct (Z.eqb_spec k' k) as [->|]; [contradiction|exact Hid].
    + exists k0. destruct Hk0 as [<-|Hk0]; [contradiction|].
      split; [exact Hk0|]. unfold override.
      destruct (Z.eqb_spec k0 k) as [->|]; [contradiction|exact Hne].
  - unfold bind at 1.
    rewrite (@activate_raises e (i :: rest) (r1, m)); [reflexivity|discriminate|].
    intros id Hid. apply (Hfail k id r1); [now left|].
    eapply Permutation_in; [exact Hperm|exact Hid].
Qed.

(** X12. A population of SUSCEPTIBLE agents standing on a consistent grid
    cannot be stepped past a failed returning-traveller trial: when the
    reporters return, the population is not empty and the next NumPy
    variate is not below [rate_inbound], [ISEpiModel.step] raises
    [AttributeError] on [Stage.EXPOSED], under [RandomActivation] and,
    with earmarks in range, under [GrahamActivation]. *)
Theorem susceptible_population_step_raises :
  forall reporters s w row,
    collect reporters (snd w) = Ok row ->
    Model.agents (snd w) <> [] ->
    Forall (fun a => Agent.stage a = SUSCEPTIBLE) (Model.agents (snd w)) ->
    placed w -> cells_registered w ->
    in_unit_interval (Model.rate_inbound (snd w)) = true ->
    inbound w = false ->
    match s with
    | Graham g =>
        (stages g = [] \/ keys (stages g) = range (partitions g))
        /\ (forall a, In a (registry (snd w)) -> 0 <= snd a < partitions g)
    | Uniform _ => True
    end ->
    ISEpiModel_step reporters s w = Raise (AttributeError "EXPOSED").
Proof.
  intros reporters s w row Hrow Hne Hall Hp Hc Hrate Hin Hs.
  assert (Hfail : forall id r, In id (map fst (registry (snd w))) ->
            ISEpiAgent.step id (r, snd w) = Raise (AttributeError "EXPOSED")).
  { intros id r Hid. rewrite registry_ids in Hid.
    destruct (find_registered _ _ Hid) as [a [Hfind Ha]].
    apply (@placed_susceptible_raises id (r, snd w) a); try assumption.
    rewrite Forall_forall in Hall. now apply Hall. }
  unfold ISEpiModel_step, bind at 1, lift. rewrite Hrow.
  unfold bind at 1. destruct s as [g|u]; cbn [schedule_step].
  - destruct Hs as [Hfresh Hrange].
    set (agents := registry (snd w)) in *.
    set (ks := range (partitions g)).
    assert (Hks : NoDup ks) by apply range_NoDup.
    assert (Hearmark : forall a, In a agents -> In (snd a) ks).
    { intros a Ha. apply range_In. now apply Hrange. }
    unfold bind at 1, GrahamActivation_step, bind at 1, gets. fold agents.
    unfold bind at 1, lift.
    rewrite (reset_stages_range (partitions g) Hfresh). fold ks.
    rewrite (fill_stages_table agents no_bucket Hks Hearmark).
    rewrite keys_table. destruct w as [r m]. cbn [snd] in *.
    unfold bind at 1.
    rewrite (@run_stages_raises (AttributeError "EXPOSED") m ks ks
               (fun k => no_bucket k ++ ids_with k agents) r);
      [reflexivity|assumption|assumption|apply incl_refl| |].
    + intros k id r' _ Hid. apply Hfail. simpl in Hid.
      apply ids_with_In in Hid. change id with (fst (id, k)). now apply in_map.
    + unfold agents, registry in *.
      destruct (Model.agents m) as [|a rest]; [contradiction|].
      exists (Agent.earmark a). split.
      * apply (Hearmark (Agent.unique_id a, Agent.earmark a)). now left.
      * intro Hnil.
        assert (Hlisted : In (Agent.unique_id a)
                            (no_bucket (Agent.earmark a)
                             ++ ids_with (Agent.earmark a)
                                  (map (fun a => (Agent.unique_id a, Agent.earmark a))
                                     (a :: rest)))).
        { apply ids_with_listed. now left. }
        rewrite Hnil in Hlisted. destruct Hlisted.
  - unfold bind at 1, RandomActivation_step, bind at 1, gets.
    unfold bind at 1, model_shuffle. cbn [fst snd].
    pose proof (shuffle_Permutation (map fst (registry (snd w))) (fst w)) as Hperm.
    destruct (shuffle (map fst (registry (snd w))) (fst w)) as [shuffled r1].
    cbn [fst] in Hperm. unfold bind at 1.
    rewrite (@activate_raises (AttributeError "EXPOSED") shuffled (r1, snd w));
      [reflexivity| |].
    + intro Hnil. rewrite Hnil in Hperm. apply Permutation_nil in Hperm.
      rewrite registry_ids in Hperm.
      destruct (Model.agents (snd w)); [contradiction|discriminate Hperm].
    + intros id Hid. apply Hfail. eapply Permutation_in; [exact Hperm|exact Hid].
Qed.

Lemma susceptible_population_step_raises_witness :
  ISEpiModel_step stage_reporters (Graham (mkGraham [] 1 0 0))
    (seeded [], lone [0%nat] (numpy [0.75%float]))
  = Raise (AttributeError "EXPOSED").
Proof.
  eapply (@susceptible_population_step_raises stage_reporters
            (Graham (mkGraham [] 1 0 0))
            (seeded [], lone [0%nat] (numpy [0.75%float]))).
  - reflexivity.
  - discriminate.
  - repeat constructor.
  - intros id a H. destruct id as [|id]; simpl in H;
      [injection H as <-; simpl; auto|discriminate H].
  - intros p c Hin. unfold MultiGrid.get_cell_list_contents in Hin. simpl in Hin.
    destruct (MultiGrid.pos_eqb (0, 0) p); simpl in Hin; [|contradiction].
    destruct Hin as [<-|[]]. eexists. reflexivity.
  - reflexivity.
  - reflexivity.
  - split; [now left|]. intros a [<-|[]]. simpl. lia.
Defined.

(* ================================================================== *)
(** ** The portrayal of an agent (covidserver.py, lines 17-54) *)

(** The values a portrayal holds. *)
Inductive PyValue : Type :=
| Str (s : string)
| Int (z : Z)
| Float (f : float).

(** A [dict] with string keys, in insertion order. *)
Definition Portrayal : Type := list (string * PyValue).

(** [d[key] = v]. *)
Fixpoint setitem (key : string) (v : PyValue) (d : Portrayal) : Portrayal :=
  match d with
  | [] => [(key, v)]
  | (k, old) :: rest =>
      if String.eqb k key then (k, v) :: rest else (k, old) :: setitem key v rest
  end.

(** The body of every branch: the colour, then the layer. *)
Definition paint (colour : string) (portrayal : Portrayal) : Portrayal :=
  setitem "Layer" (Int 0) (setitem "Color" (Str colour) portrayal).

(** The [if]/[elif] chain on [agent.stage]: a test looks its member of
    [Stage] up, then compares; the branch of the first test that holds is
    taken. *)
Fixpoint stage_chain (stage : Stage) (tests : list (string * string))
  (otherwise : result Portrayal) (portrayal : Portrayal) : result Portrayal :=
  match tests with
  | [] => otherwise
  | (member, colour) :: rest =>
      rbind (Stage_attr member) (fun s =>
        if Stage_eqb stage s then Ok (paint colour portrayal)
        else stage_chain stage rest otherwise portrayal)
  end.

(** Lines 17-54.  [locked] is the outcome of reading [agent.locked]. *)
Definition agent_portrayal (agent : Agent.t) (locked : result bool)
  : result Portrayal :=
  let portrayal :=
    [("Shape", Str "circle"); ("Filled", Str "true"); ("Layer", Int 0);
     ("r", Float 0.5%float)] in
  stage_chain (Agent.stage agent)
    [("SUSCEPTIBLE", "blue"); ("EXPOSED", "red"); ("ASYMPTOMATIC", "brown");
     ("SYMPDETECTED", "yellow"); ("ASYMPDETECTED", "cyan"); ("SEVERE", "magenta");
     ("RECOVERED", "green"); ("DECEASED", "black")]
    (rbind locked (fun l =>
       if l then Ok (paint "gray" portrayal) else Ok (paint "gray" portrayal)))
    portrayal.

(** X13. Only SUSCEPTIBLE agents can be drawn: [agent_portrayal] returns
    the blue circle on layer 0 for a SUSCEPTIBLE agent and raises
    [AttributeError] on [Stage.EXPOSED] for an agent in any other stage,
    so no INFECTED, RECOVERED or DECEASED agent is ever given a colour. *)
Theorem agent_portrayal_blue_or_raises :
  forall agent locked,
    agent_portrayal agent locked
    = if Stage_eqb (Agent.stage agent) SUSCEPTIBLE
      then Ok [("Shape", Str "circle"); ("Filled", Str "true"); ("Layer", Int 0);
               ("r", Float 0.5%float); ("Color", Str "blue")]
      else Raise (AttributeError "EXPOSED").
Proof.
  intros agent locked. unfold agent_portrayal.
  destruct (Agent.stage agent); reflexivity.
Qed.

(* ================================================================== *)
(** ** When the average of contacts is defined *)

Lemma resolve_registered :
  forall ids store,
    (forall c, In c ids -> exists co, find_agent c store = Some co) ->
    exists l, ISEpiAgent.resolve ids store = Ok l.
Proof.
  induction ids as [|id ids IH]; intros store H; simpl.
  - eauto.
  - destruct (H id (or_introl eq_refl)) as [co ->].
    destruct (IH store (fun c Hc => H c (or_intror Hc))) as [l ->].
    simpl. eauto.
Qed.

Lemma interactants_defined :
  forall (w : World) agent,
    cells_registered w ->
    exists n, ISEpiAgent.interactants agent (snd w) = Ok n /\ 0 <= n.
Proof.
  intros w agent Hc. unfold ISEpiAgent.interactants.
  destruct (negb (Stage_eqb (Agent.stage agent) DECEASED)
            && negb (Stage_eqb (Agent.stage agent) RECOVERED))%bool;
    [|exists 0; split; [reflexivity|lia]].
  unfold ISEpiAgent.cellmates_of.
  destruct (@resolve_registered
              (MultiGrid.get_cell_list_contents (Model.grid (snd w)) (Agent.pos agent))
              (Model.agents (snd w)) (Hc (Agent.pos agent))) as [cell ->].
  simpl. eexists. split; [reflexivity|].
  rewrite interactants_loop_filter. lia.
Qed.

Lemma compute_contacts_loop_defined :
  forall (w : World) l count,
    cells_registered w ->
    exists count',
      compute_contacts_loop l (snd w) count = Ok count' /\ count <= count'.
Proof.
  intros w l. induction l as [|agent rest IH]; intros count Hc; simpl.
  - exists count. split; [reflexivity|lia].
  - destruct (interactants_defined agent Hc) as [n [-> Hn]]. simpl.
    destruct (IH (count + n) Hc) as [count' [-> Hle]].
    exists count'. split; [reflexivity|lia].
Qed.

(** X14. On a grid whose cells list registered agents only,
    [compute_contacts] raises [ZeroDivisionError] when the schedule holds
    no agent and otherwise returns the quotient of a count that is not
    negative by the number of agents: no lookup of a cell occupant fails. *)
Theorem compute_contacts_defined :
  forall w : World,
    cells_registered w ->
    match Model.agents (snd w) with
    | [] => compute_contacts (snd w) = Raise (ZeroDivisionError "division by zero")
    | _ :: _ =>
        exists count,
          0 <= count
          /\ compute_contacts (snd w)
             = Ok (PrimFloat.div (float_of_Z count)
                     (float_of_Z (Z.of_nat (List.length (Model.agents (snd w))))))
    end.
Proof.
  intros w Hc. unfold compute_contacts.
  destruct (@compute_contacts_loop_defined w (Model.agents (snd w)) 0 Hc)
    as [count [Hloop Hle]].
  rewrite Hloop. simpl rbind. unfold int_truediv.
  destruct (Model.agents (snd w)) as [|a rest] eqn:Hagents.
  - reflexivity.
  - exists count. split; [exact Hle|].
    destruct (Z.eqb_spec (Z.of_nat (List.length (a :: rest))) 0) as [H0|_];
      [simpl in H0; lia|reflexivity].
Qed.

Lemma compute_contacts_defined_witness :
  exists count,
    0 <= count
    /\ compute_contacts graveyard
       = Ok (PrimFloat.div (float_of_Z count) (float_of_Z 2)).
Proof.
  exact (@compute_contacts_defined (seeded [], graveyard) graveyard_cells_registered).
Defined.

(* ================================================================== *)
(** ** Whom [interactants] counts *)

Lemma find_agent_id :
  forall id l a, find_agent id l = Some a -> Agent.unique_id a = id.
Proof.
  intros id l a. induction l as [|b l IH]; simpl; intro H; [discriminate H|].
  destruct (Nat.eqb_spec (Agent.unique_id b) id) as [Hb|Hb]; [|now apply IH].
  injection H as <-. exact Hb.
Qed.

(** The objects of a cell after a store on the object [c]. *)
Lemma resolve_update_agent :
  forall ids store c (f : Agent.t -> Agent.t),
    (forall a, Agent.unique_id (f a) = Agent.unique_id a) ->
    ISEpiAgent.resolve ids (update_agent c f store)
    = rbind (ISEpiAgent.resolve ids store) (fun l =>
        Ok (map (fun a => if Nat.eqb (Agent.unique_id a) c then f a else a) l)).
Proof.
  induction ids as [|id ids IH]; intros store c f Hf; simpl; [reflexivity|].
  rewrite find_update_agent by exact Hf.
  destruct (find_agent id store) as [a|] eqn:Hfind.
  - pose proof (find_agent_id _ _ Hfind) as Hid.
    rewrite (IH store c f Hf).
    destruct (Nat.eqb_spec c id) as [->|Hne]; simpl;
      destruct (ISEpiAgent.resolve ids store) as [l|e]; simpl; try reflexivity.
    + now rewrite Hid, Nat.eqb_refl.
    + destruct (Nat.eqb_spec (Agent.unique_id a) c) as [E|_]; [congruence|reflexivity].
  - now destruct (Nat.eqb c id).
Qed.

Lemma interactants_loop_map :
  forall self (g : Agent.t -> Agent.t) cell count,
    (forall a, Agent.unique_id (g a) = Agent.unique_id a) ->
    (forall a, Agent.isolated (g a) = Agent.isolated a) ->
    ISEpiAgent.interactants_loop self (map g cell) count
    = ISEpiAgent.interactants_loop self cell count.
Proof.
  intros self g cell. induction cell as [|a cell IH]; intros count Hid Hiso; simpl.
  - reflexivity.
  - rewrite Hid, Hiso, !IH by assumption. reflexivity.
Qed.

(** X15. [interactants] never looks at the stage of the occupants it
    counts: whatever stage another agent is put in, DECEASED included,
    the count of an agent is the same. *)
Theorem interactants_ignores_stage :
  forall self m c s,
    c <> Agent.unique_id self ->
    ISEpiAgent.interactants self
      (Model.set_agents (update_agent c (Agent.set_stage s) (Model.agents m)) m)
    = ISEpiAgent.interactants self m.
Proof.
  intros self m c s _. unfold ISEpiAgent.interactants, ISEpiAgent.cellmates_of.
  cbn [Model.agents Model.grid Model.set_agents].
  destruct (negb (Stage_eqb (Agent.stage self) DECEASED)
            && negb (Stage_eqb (Agent.stage self) RECOVERED))%bool; [|reflexivity].
  rewrite resolve_update_agent by reflexivity.
  destruct (ISEpiAgent.resolve _ (Model.agents m)) as [cell|e]; simpl; [|reflexivity].
  f_equal. apply interactants_loop_map; intro a;
    destruct (Nat.eqb (Agent.unique_id a) c); reflexivity.
Qed.

Lemma interactants_ignores_stage_witness :
  ISEpiAgent.interactants (person 1 INFECTED 12 false 0)
    (Model.set_agents
       (update_agent 0 (Agent.set_stage SUSCEPTIBLE) (Model.agents graveyard))
       graveyard)
  = ISEpiAgent.interactants (person 1 INFECTED 12 false 0) graveyard.
Proof.
  apply (@interactants_ignores_stage (person 1 INFECTED 12 false 0) graveyard
           0%nat SUSCEPTIBLE).
  discriminate.
Defined.

(* ================================================================== *)
(** * The returning traveller and the move *)

(** The branch of an agent the trial has just infected leaves it INFECTED
    or RECOVERED. *)
Lemma infected_branch_stage :
  forall self,
    hoare (fun w => stage_at self w = Some INFECTED)
          (ISEpiAgent.step_infected self ;; count_step self)
          (fun _ w => stage_at self w = Some INFECTED
                      \/ stage_at self w = Some RECOVERED) not_exit.
Proof.
  intro self.
  eapply hoare_bind; [apply step_infected_spec|]. intro u.
  assert (Hk : keeps (count_step self)) by (unfold count_step; repeat keeps_step).
  apply Hk. stage_only_tac.
Qed.

(** A call of [move] that returns has counted a dwelling step down or
    taken an output of [model.random]. *)
Lemma move_leaves_a_trace :
  forall self w0 a0 w2,
    find_agent self (Model.agents (snd w0)) = Some a0 ->
    ISEpiAgent.move self w0 = Ok (tt, w2) ->
    ~ unmoved self w0 a0 w2.
Proof.
  intros self w0 a0 w2 Hfind Hmove [Hr [_ [a' [Hfind' [_ Hd]]]]].
  destruct (Agent.curr_dwelling a0 >? 0) eqn:Hdw.
  - rewrite (move_dwells _ _ Hfind Hdw) in Hmove. injection Hmove as <-.
    rewrite (@find_stored self
               (Agent.set_curr_dwelling (Agent.curr_dwelling a0 - 1))
               w0 a0 (fun x => eq_refl) Hfind) in Hfind'.
    injection Hfind' as <-. simpl in Hd. lia.
  - rewrite (move_leaves _ _ Hfind Hdw) in Hmove.
    destruct (MultiGrid.move_agent _ _ _ _) as [g'|e]; [|discriminate Hmove].
    destruct (PrimFloat.leb 0 _); [|discriminate Hmove].
    injection Hmove as <-. unfold relocated, randbelow in Hr. simpl in Hr.
    apply (f_equal consumed) in Hr. simpl in Hr. lia.
Qed.

(** C9, amended. A non-isolated agent that begins the step SUSCEPTIBLE and
    is made INFECTED by the returning-traveller trial makes no move in
    that step.  The step continues as the INFECTED branch; when it
    returns, the agent is INFECTED or RECOVERED and its position, its
    dwelling counter, the grid and [model.random] are as they were, which
    no call of [move] that returns leaves so. *)
Theorem infected_by_trial_makes_no_move :
  forall self w a,
    find_agent self (Model.agents (snd w)) = Some a ->
    Agent.stage a = SUSCEPTIBLE ->
    Agent.isolated a = false ->
    in_unit_interval (Model.rate_inbound (snd w)) = true ->
    inbound w = true ->
    ISEpiAgent.step self w
    = (ISEpiAgent.step_infected self ;; count_step self)
        (become self INFECTED (after_trial w))
    /\ (forall w',
          ISEpiAgent.step self w = Ok (tt, w') ->
          unmoved self w a w'
          /\ (stage_at self w' = Some INFECTED \/ stage_at self w' = Some RECOVERED))
    /\ (forall w0 a0 w2,
          find_agent self (Model.agents (snd w0)) = Some a0 ->
          ISEpiAgent.move self w0 = Ok (tt, w2) ->
          ~ unmoved self w0 a0 w2).
Proof.
  intros self w a Hfind Hstage Hiso Hrate Hin.
  pose proof (@step_inbound self w a Hfind Hstage Hrate Hin) as Heq.
  split; [exact Heq|]. split; [|apply move_leaves_a_trace].
  intros w' Hstep. rewrite Heq in Hstep.
  assert (Hfind1 : find_agent self (Model.agents (snd (become self INFECTED (after_trial w))))
                   = Some (Agent.set_stage INFECTED a)).
  { unfold become. simpl.
    rewrite find_update_agent by reflexivity. now rewrite Nat.eqb_refl, Hfind. }
  split.
  - assert (H0 : unmoved self w a (become self INFECTED (after_trial w))).
    { unfold unmoved. rewrite Hfind1. repeat split.
      now exists (Agent.set_stage INFECTED a). }
    pose proof (@unmoved_infected_branch self w a _ H0) as H.
    now rewrite Hstep in H.
  - assert (H0 : stage_at self (become self INFECTED (after_trial w)) = Some INFECTED)
      by (unfold stage_at; now rewrite Hfind1).
    pose proof (@infected_branch_stage self _ H0) as H.
    now rewrite Hstep in H.
Qed.

Lemma infected_by_trial_makes_no_move_witness :
  exists w',
    ISEpiAgent.step 0 (seeded [], infected_cellmate (numpy [0.25%float; 0.5%float]))
    = Ok (tt, w')
    /\ unmoved 0 (seeded [], infected_cellmate (numpy [0.25%float; 0.5%float]))
         (person 0 SUSCEPTIBLE 10 false 3) w'
    /\ (stage_at 0 w' = Some INFECTED \/ stage_at 0 w' = Some RECOVERED).
Proof.
  eexists. split; [reflexivity|].
  apply (proj1 (proj2 (@infected_by_trial_makes_no_move 0%nat
                         (seeded [], infected_cellmate (numpy [0.25%float; 0.5%float]))
                         (person 0 SUSCEPTIBLE 10 false 3)
                         eq_refl eq_refl eq_refl eq_refl eq_refl))).
  reflexivity.
Defined.

(* ================================================================== *)
(** * The two random sources

    [model.random], seeded with the model, and the process-global NumPy
    generator behind [scipy.stats].  Two runs are set side by side to see
    what each source decides. *)

(** [sim P c1 c2 Q]: from worlds related by [P], [c1] and [c2] raise the
    same exception, or return the same value in worlds related by [Q]. *)
Definition sim {A} (P : World -> World -> Prop) (c1 c2 : M World A)
  (Q : World -> World -> Prop) : Prop :=
  forall w1 w2, P w1 w2 ->
    match c1 w1, c2 w2 with
    | Ok (a1, w1'), Ok (a2, w2') => a1 = a2 /\ Q w1' w2'
    | Raise e1, Raise e2 => e1 = e2
    | _, _ => False
    end.

Lemma sim_bind :
  forall A B (P Q T : World -> World -> Prop) (c1 c2 : M World A)
         (k1 k2 : A -> M World B),
    sim P c1 c2 Q -> (forall a, sim Q (k1 a) (k2 a) T) ->
    sim P (bind c1 k1) (bind c2 k2) T.
Proof.
  intros A B P Q T c1 c2 k1 k2 Hc Hk w1 w2 HP. specialize (Hc w1 w2 HP).
  unfold bind.
  destruct (c1 w1) as [[a1 w1']|e1], (c2 w2) as [[a2 w2']|e2];
    try contradiction; [|exact Hc].
  destruct Hc as [-> HQ]. exact (Hk a2 w1' w2' HQ).
Qed.

Lemma sim_ret :
  forall A (P : World -> World -> Prop) (a : A), sim P (ret a) (ret a) P.
Proof. intros A P a w1 w2 HP. simpl. auto. Qed.

Lemma sim_raise :
  forall A (P Q : World -> World -> Prop) e, sim P (@raise World A e) (raise e) Q.
Proof. intros A P Q e w1 w2 HP. reflexivity. Qed.

Lemma sim_lift :
  forall A (P : World -> World -> Prop) (r : result A), sim P (lift r) (lift r) P.
Proof. intros A P [a|e] w1 w2 HP; simpl; auto. Qed.

Lemma sim_post :
  forall A (P Q Q' : World -> World -> Prop) (c1 c2 : M World A),
    sim P c1 c2 Q -> (forall w1 w2, Q w1 w2 -> Q' w1 w2) -> sim P c1 c2 Q'.
Proof.
  intros A P Q Q' c1 c2 Hc HQ w1 w2 HP. specialize (Hc w1 w2 HP).
  destruct (c1 w1) as [[a1 w1']|e1], (c2 w2) as [[a2 w2']|e2]; try exact Hc.
  destruct Hc as [-> H]. auto.
Qed.

Lemma sim_when :
  forall (P : World -> World -> Prop) b (body : M World unit),
    sim P body body P -> sim P (when b body) (when b body) P.
Proof. intros P [] body H; [exact H|apply sim_ret]. Qed.

(** What holds of every relation under which the two runs see the same
    agents, grid and parameters and receive the same NumPy variates. *)
Section SideBySide.
Variable R : World -> World -> Prop.
Hypothesis R_agents :
  forall w1 w2, R w1 w2 -> Model.agents (snd w1) = Model.agents (snd w2).
Hypothesis R_grid :
  forall w1 w2, R w1 w2 -> Model.grid (snd w1) = Model.grid (snd w2).
Hypothesis R_config :
  forall w1 w2, R w1 w2 -> config (snd w1) = config (snd w2).
Hypothesis R_stored :
  forall id f w1 w2, R w1 w2 -> R (stored id f w1) (stored id f w2).
Hypothesis R_draw :
  forall w1 w2, R w1 w2 ->
    fst (next_draw (Model.np_random (snd w1))) = fst (next_draw (Model.np_random (snd w2)))
    /\ R (after_trial w1) (after_trial w2).

Lemma sim_get_agent : forall id, sim R (get_agent id) (get_agent id) R.
Proof.
  intros id w1 w2 H. unfold get_agent. rewrite (R_agents H).
  destruct (find_agent id (Model.agents (snd w2))); auto.
Qed.

Lemma sim_model :
  forall A (f : Model.t -> A),
    (forall w1 w2, R w1 w2 -> f (snd w1) = f (snd w2)) ->
    sim R (model f) (model f) R.
Proof. intros A f Hf w1 w2 H. unfold model, gets. rewrite (Hf _ _ H). auto. Qed.

Lemma sim_setattr : forall id f, sim R (setattr id f) (setattr id f) R.
Proof. intros id f w1 w2 H. split; [reflexivity|]. now apply R_stored. Qed.

Lemma sim_bernoulli_rvs : forall p, sim R (bernoulli_rvs p) (bernoulli_rvs p) R.
Proof.
  intros p w1 w2 H. unfold bernoulli_rvs.
  destruct (in_unit_interval p); [|reflexivity].
  destruct (R_draw H) as [Hd HR].
  unfold next_draw in *. cbn [fst] in Hd. rewrite Hd. split; [reflexivity|exact HR].
Qed.

Lemma sim_poisson_rvs : forall mu, sim R (poisson_rvs mu) (poisson_rvs mu) R.
Proof.
  intros mu w1 w2 H. unfold poisson_rvs.
  destruct (PrimFloat.leb 0 mu); [|reflexivity].
  destruct (R_draw H) as [Hd HR].
  unfold next_draw in *. cbn [fst] in Hd. rewrite Hd. split; [reflexivity|exact HR].
Qed.

Lemma R_rate_inbound :
  forall w1 w2, R w1 w2 -> Model.rate_inbound (snd w1) = Model.rate_inbound (snd w2).
Proof. intros w1 w2 H. apply R_config in H. unfold config in H. congruence. Qed.

Lemma R_prob_isolation_effective :
  forall w1 w2, R w1 w2 ->
    Model.prob_isolation_effective (snd w1) = Model.prob_isolation_effective (snd w2).
Proof. intros w1 w2 H. apply R_config in H. unfold config in H. congruence. Qed.

Lemma R_avg_dwell :
  forall w1 w2, R w1 w2 -> Model.avg_dwell (snd w1) = Model.avg_dwell (snd w2).
Proof. intros w1 w2 H. apply R_config in H. unfold config in H. congruence. Qed.

Lemma sim_scan :
  forall self cellmates,
    sim R (ISEpiAgent.scan self cellmates) (ISEpiAgent.scan self cellmates) R.
Proof.
  intros self cellmates. induction cellmates as [|c rest IH]; simpl.
  - apply sim_ret.
  - apply sim_bind with (Q := R); [apply sim_get_agent|]. intro co.
    apply sim_bind with (Q := R); [apply sim_lift|]. intro contagious.
    destruct contagious; [|exact IH].
    apply sim_bind with (Q := R); [apply sim_raise|]. intro u.
    apply sim_bind with (Q := R); [apply sim_get_agent|]. intro a.
    destruct (Agent.isolated a); [|apply sim_ret].
    apply sim_bind with (Q := R);
      [apply sim_model; exact R_prob_isolation_effective|]. intro pe.
    apply sim_bind with (Q := R); [apply sim_bernoulli_rvs|]. intro failed.
    destruct failed; [|apply sim_ret].
    apply sim_bind with (Q := R); [apply sim_setattr|]. intro u'. apply sim_ret.
Qed.

Lemma sim_exposure :
  forall self, sim R (ISEpiAgent.exposure self) (ISEpiAgent.exposure self) R.
Proof.
  intro self. unfold ISEpiAgent.exposure.
  apply sim_bind with (Q := R); [apply sim_get_agent|]. intro a.
  apply sim_bind with (Q := R); [apply sim_model; exact R_grid|]. intro g.
  apply sim_bind with (Q := R); [apply sim_scan|]. intro infected_contact.
  apply sim_when.
  apply sim_bind with (Q := R); [apply sim_get_agent|]. intro a'.
  apply sim_bind with (Q := R); [apply sim_bernoulli_rvs|]. intro infect.
  apply sim_when. apply sim_setattr.
Qed.

Lemma sim_step_infected :
  forall self, sim R (ISEpiAgent.step_infected self) (ISEpiAgent.step_infected self) R.
Proof.
  intro self. unfold ISEpiAgent.step_infected.
  apply sim_bind with (Q := R); [apply sim_get_agent|]. intro a.
  destruct (_ <? _); [|apply sim_setattr].
  apply sim_bind with (Q := R); [apply sim_setattr|]. intro u.
  apply sim_bind with (Q := R); [apply sim_bernoulli_rvs|]. intro severe.
  apply sim_when.
  apply sim_bind with (Q := R); [apply sim_lift|]. intro s. apply sim_setattr.
Qed.

(** The whole update, given [move] and the last line of [step]: they may
    leave the two runs in a weaker relation [R']. *)
Variable R' : World -> World -> Prop.
Hypothesis R_weaker : forall w1 w2, R w1 w2 -> R' w1 w2.
Variable self : nat.
Hypothesis sim_move_given : sim R (ISEpiAgent.move self) (ISEpiAgent.move self) R'.
Hypothesis sim_count_given : sim R' (count_step self) (count_step self) R'.

Lemma sim_step : sim R (ISEpiAgent.step self) (ISEpiAgent.step self) R'.
Proof.
  unfold ISEpiAgent.step.
  apply sim_bind with (Q := R); [apply sim_get_agent|]. intro a.
  apply sim_bind with (Q := R).
  { apply sim_when.
    apply sim_bind with (Q := R); [apply sim_model; exact R_rate_inbound|]. intro rate.
    apply sim_bind with (Q := R); [apply sim_bernoulli_rvs|]. intro inbound.
    apply sim_when. apply sim_setattr. }
  intro u.
  apply sim_bind with (Q := R); [apply sim_get_agent|]. intro a1.
  apply sim_bind with (Q := R'); [|intro u'; exact sim_count_given].
  destruct (Stage_eqb (Agent.stage a1) SUSCEPTIBLE).
  { unfold ISEpiAgent.step_susceptible.
    apply sim_bind with (Q := R); [apply sim_exposure|]. intro u0.
    apply sim_bind with (Q := R); [apply sim_get_agent|]. intro a2.
    destruct (negb (Agent.isolated a2)); simpl;
      [exact sim_move_given|apply sim_post with (Q := R); [apply sim_ret|exact R_weaker]]. }
  destruct (Stage_eqb (Agent.stage a1) INFECTED).
  { apply sim_post with (Q := R); [apply sim_step_infected|exact R_weaker]. }
  destruct (Stage_eqb (Agent.stage a1) RECOVERED).
  { unfold ISEpiAgent.step_recovered.
    apply sim_bind with (Q := R); [apply sim_get_agent|]. intro a2.
    apply sim_bind with (Q := R).
    { apply sim_model. intros w1 w2 H. now rewrite (R_grid H). }
    intro cellmates.
    apply sim_bind with (Q := R); [apply sim_setattr|]. intro u1.
    exact sim_move_given. }
  destruct (Stage_eqb (Agent.stage a1) DECEASED).
  - apply sim_post with (Q := R); [apply sim_ret|exact R_weaker].
  - apply sim_raise.
Qed.
End SideBySide.

(* ================================================================== *)
(** ** The same generators in two independent runs *)

(** The two objects will give the same outputs from now on, whatever they
    gave before. *)
Definition same_outputs (r1 r2 : Random) : Prop :=
  forall k, raw r1 (consumed r1 + k) = raw r2 (consumed r2 + k).

Definition same_draws (g1 g2 : RandomState) : Prop :=
  forall k, variates g1 (requests g1 + k) = variates g2 (requests g2 + k).

(** Two worlds with the same agents, grid and parameters whose generators
    will give the same outputs. *)
Definition alike (w1 w2 : World) : Prop :=
  same_outputs (fst w1) (fst w2)
  /\ same_draws (Model.np_random (snd w1)) (Model.np_random (snd w2))
  /\ same_setup (snd w1) (snd w2).

(** A reporter that does not read the NumPy generator. *)
Definition generator_blind (f : Model.t -> result float) : Prop :=
  forall m1 m2, same_setup m1 m2 -> f m1 = f m2.

Lemma alike_agents :
  forall w1 w2, alike w1 w2 -> Model.agents (snd w1) = Model.agents (snd w2).
Proof. intros w1 w2 [_ [_ H]]. apply H. Qed.

Lemma alike_grid :
  forall w1 w2, alike w1 w2 -> Model.grid (snd w1) = Model.grid (snd w2).
Proof. intros w1 w2 [_ [_ H]]. apply H. Qed.

Lemma alike_config :
  forall w1 w2, alike w1 w2 -> config (snd w1) = config (snd w2).
Proof.
  intros w1 w2 [_ [_ H]]. unfold same_setup in H. unfold config.
  decompose [and] H. congruence.
Qed.

Lemma same_setup_agents :
  forall m1 m2 l,
    same_setup m1 m2 -> same_setup (Model.set_agents l m1) (Model.set_agents l m2).
Proof. intros m1 m2 l H. unfold same_setup in *. simpl. tauto. Qed.

Lemma same_setup_grid :
  forall m1 m2 g,
    same_setup m1 m2 -> same_setup (Model.set_grid g m1) (Model.set_grid g m2).
Proof. intros m1 m2 g H. unfold same_setup in *. simpl. tauto. Qed.

Lemma same_setup_stepno :
  forall m1 m2 k,
    same_setup m1 m2 -> same_setup (Model.set_stepno k m1) (Model.set_stepno k m2).
Proof. intros m1 m2 k H. unfold same_setup in *. simpl. tauto. Qed.

Lemma same_setup_np_random :
  forall m1 m2 g1 g2,
    same_setup m1 m2 ->
    same_setup (Model.set_np_random g1 m1) (Model.set_np_random g2 m2).
Proof. intros m1 m2 g1 g2 H. unfold same_setup in *. simpl. tauto. Qed.

Lemma alike_stored :
  forall id f w1 w2, alike w1 w2 -> alike (stored id f w1) (stored id f w2).
Proof.
  intros id f w1 w2 H. pose proof (alike_agents H) as Ha.
  destruct H as [Hr [Hg Hs]]. unfold stored.
  split; [exact Hr|split; [exact Hg|]].
  cbn [snd]. rewrite Ha. now apply same_setup_agents.
Qed.

Lemma same_draws_next :
  forall g1 g2,
    same_draws g1 g2 ->
    fst (next_draw g1) = fst (next_draw g2)
    /\ same_draws (snd (next_draw g1)) (snd (next_draw g2)).
Proof.
  intros g1 g2 H. unfold next_draw. cbn [fst snd]. split.
  - specialize (H 0%nat). now rewrite !Nat.add_0_r in H.
  - intro k. cbn [variates requests]. specialize (H (S k)).
    now rewrite !Nat.add_succ_r in H.
Qed.

Lemma alike_draw :
  forall w1 w2, alike w1 w2 ->
    fst (next_draw (Model.np_random (snd w1))) = fst (next_draw (Model.np_random (snd w2)))
    /\ alike (after_trial w1) (after_trial w2).
Proof.
  intros w1 w2 [Hr [Hg Hs]]. destruct (same_draws_next Hg) as [Hd Hn].
  split; [exact Hd|]. unfold after_trial.
  split; [exact Hr|split; [exact Hn|]].
  cbn [snd]. now apply same_setup_np_random.
Qed.

Lemma same_outputs_randbelow :
  forall n r1 r2,
    same_outputs r1 r2 ->
    fst (randbelow n r1) = fst (randbelow n r2)
    /\ same_outputs (snd (randbelow n r1)) (snd (randbelow n r2)).
Proof.
  intros n r1 r2 H. unfold randbelow. cbn [fst snd]. split.
  - specialize (H 0%nat). rewrite !Nat.add_0_r in H. now rewrite H.
  - intro k. cbn [raw consumed]. specialize (H (S k)).
    now rewrite !Nat.add_succ_r in H.
Qed.

Lemma same_outputs_shuffle_loop :
  forall A i (x : list A) r1 r2,
    same_outputs r1 r2 ->
    fst (shuffle_loop i x r1) = fst (shuffle_loop i x r2)
    /\ same_outputs (snd (shuffle_loop i x r1)) (snd (shuffle_loop i x r2)).
Proof.
  intros A i. induction i as [|i IH]; intros x r1 r2 H.
  - simpl. auto.
  - cbn [shuffle_loop].
    destruct (same_outputs_randbelow (S (S i)) H) as [Hj Hr].
    destruct (randbelow (S (S i)) r1) as [j1 r1'], (randbelow (S (S i)) r2) as [j2 r2'].
    cbn [fst snd] in Hj, Hr. subst j2. now apply IH.
Qed.

Lemma sim_random_choice :
  forall A (seq : list A), sim alike (random_choice seq) (random_choice seq) alike.
Proof.
  intros A seq w1 w2 [Hr [Hg Hs]]. unfold random_choice.
  destruct seq as [|x rest]; [reflexivity|].
  destruct (same_outputs_randbelow (List.length (x :: rest)) Hr) as [Hi Hr'].
  destruct (randbelow (List.length (x :: rest)) (fst w1)) as [i1 r1'],
           (randbelow (List.length (x :: rest)) (fst w2)) as [i2 r2'].
  cbn [fst snd] in Hi, Hr'. subst i2. split; [reflexivity|].
  split; [exact Hr'|split; [exact Hg|exact Hs]].
Qed.

Lemma sim_alike_move :
  forall self, sim alike (ISEpiAgent.move self) (ISEpiAgent.move self) alike.
Proof.
  intro self. unfold ISEpiAgent.move.
  apply sim_bind with (Q := alike); [apply sim_get_agent; exact alike_agents|].
  intro a.
  destruct (_ >? _); [apply sim_setattr; exact alike_stored|].
  apply sim_bind with (Q := alike); [apply sim_model; exact alike_grid|]. intro g.
  apply sim_bind with (Q := alike); [apply sim_random_choice|]. intro new_position.
  apply sim_bind with (Q := alike); [apply sim_lift|]. intro g'.
  apply sim_bind with (Q := alike).
  { intros w1 w2 [Hr [Hg Hs]]. split; [reflexivity|].
    split; [exact Hr|split; [exact Hg|]]. cbn [snd]. now apply same_setup_grid. }
  intro u.
  apply sim_bind with (Q := alike); [apply sim_setattr; exact alike_stored|]. intro u'.
  apply sim_bind with (Q := alike).
  { apply sim_model. apply R_avg_dwell. exact alike_config. }
  intro mu.
  apply sim_bind with (Q := alike);
    [apply sim_poisson_rvs; exact alike_draw|]. intro k.
  apply sim_setattr. exact alike_stored.
Qed.

Lemma sim_alike_step :
  forall self, sim alike (ISEpiAgent.step self) (ISEpiAgent.step self) alike.
Proof.
  intro self.
  apply sim_step with (R := alike);
    first [ exact alike_agents | exact alike_grid | exact alike_config
          | exact alike_stored | exact alike_draw | apply sim_alike_move
          | auto ].
  unfold count_step.
  apply sim_bind with (Q := alike); [apply sim_get_agent; exact alike_agents|].
  intro a. apply sim_setattr. exact alike_stored.
Qed.

Lemma sim_model_shuffle :
  forall x, sim alike (model_shuffle (Env := Model.t) x) (model_shuffle x) alike.
Proof.
  intros x w1 w2 [Hr [Hg Hs]]. unfold model_shuffle, shuffle.
  destruct (same_outputs_shuffle_loop (List.length x - 1) x Hr) as [Hx Hr'].
  destruct (shuffle_loop (List.length x - 1) x (fst w1)) as [x1 r1'],
           (shuffle_loop (List.length x - 1) x (fst w2)) as [x2 r2'].
  cbn [fst snd] in Hx, Hr'. subst x2. split; [reflexivity|].
  split; [exact Hr'|split; [exact Hg|exact Hs]].
Qed.

Lemma sim_activate :
  forall ids, sim alike (activate ISEpiAgent.step ids) (activate ISEpiAgent.step ids) alike.
Proof.
  induction ids as [|id ids IH]; simpl.
  - apply sim_ret.
  - apply sim_bind with (Q := alike); [apply sim_alike_step|]. intro u. exact IH.
Qed.

Lemma sim_run_stages :
  forall ks st,
    sim alike (run_stages ISEpiAgent.step ks st) (run_stages ISEpiAgent.step ks st) alike.
Proof.
  induction ks as [|k ks IH]; intro st; simpl.
  - apply sim_ret.
  - destruct (dict_get k st) as [bucket|]; [|apply sim_raise].
    apply sim_bind with (Q := alike); [apply sim_model_shuffle|]. intro shuffled.
    apply sim_bind with (Q := alike); [apply sim_activate|]. intro u. apply IH.
Qed.

Lemma alike_registry :
  forall w1 w2, alike w1 w2 -> registry (snd w1) = registry (snd w2).
Proof. intros w1 w2 H. unfold registry. now rewrite (alike_agents H). Qed.

Lemma sim_schedule_step :
  forall s,
    sim alike (schedule_step registry ISEpiAgent.step s)
        (schedule_step registry ISEpiAgent.step s) alike.
Proof.
  intros [g|u]; simpl.
  - apply sim_bind with (Q := alike); [|intro; apply sim_ret].
    unfold GrahamActivation_step.
    apply sim_bind with (Q := alike).
    { intros w1 w2 H. unfold gets. rewrite (alike_registry H). auto. }
    intro agents.
    apply sim_bind with (Q := alike); [apply sim_lift|]. intro st1.
    apply sim_bind with (Q := alike); [apply sim_run_stages|]. intro st2.
    apply sim_ret.
  - apply sim_bind with (Q := alike); [|intro; apply sim_ret].
    unfold RandomActivation_step.
    apply sim_bind with (Q := alike).
    { intros w1 w2 H. unfold gets. rewrite (alike_registry H). auto. }
    intro agents.
    apply sim_bind with (Q := alike); [apply sim_model_shuffle|]. intro shuffled.
    apply sim_bind with (Q := alike); [apply sim_activate|]. intro x.
    apply sim_ret.
Qed.

Lemma collect_blind :
  forall reporters m1 m2,
    Forall generator_blind reporters -> same_setup m1 m2 ->
    collect reporters m1 = collect reporters m2.
Proof.
  intros reporters m1 m2 H Hs. induction H as [|f rest Hf _ IH]; simpl.
  - reflexivity.
  - now rewrite (Hf m1 m2 Hs), IH.
Qed.

Lemma sim_model_step :
  forall reporters s,
    Forall generator_blind reporters ->
    sim alike (ISEpiModel_step reporters s) (ISEpiModel_step reporters s) alike.
Proof.
  intros reporters s Hblind. unfold ISEpiModel_step.
  apply sim_bind with (Q := alike).
  { intros w1 w2 H. pose proof H as [_ [_ Hs]].
    rewrite (collect_blind Hblind Hs). now apply sim_lift. }
  intro row.
  apply sim_bind with (Q := alike); [apply sim_schedule_step|]. intro s'.
  apply sim_bind with (Q := alike); [|intro; apply sim_ret].
  intros w1 w2 [Hr [Hg Hs]]. split; [reflexivity|].
  split; [exact Hr|split; [exact Hg|]]. cbn [snd].
  assert (Hno : Model.stepno (snd w1) = Model.stepno (snd w2)) by apply Hs.
  rewrite Hno. now apply same_setup_stepno.
Qed.

(** Runs from like worlds record the same trajectories, or abort alike. *)
Lemma run_alike :
  forall reporters n s w1 w2,
    Forall generator_blind reporters -> alike w1 w2 ->
    run reporters n s w1 = run reporters n s w2.
Proof.
  intros reporters n. induction n as [|n IH]; intros s w1 w2 Hblind H; simpl.
  - reflexivity.
  - pose proof (sim_model_step s Hblind H) as Hstep.
    destruct (ISEpiModel_step reporters s w1) as [[s1 w1']|e1],
             (ISEpiModel_step reporters s w2) as [[s2 w2']|e2];
      try contradiction; [|now rewrite Hstep].
    destruct Hstep as [-> H']. rewrite (IH s2 w1' w2' Hblind H').
    unfold stages_of. now rewrite (alike_agents H').
Qed.

(* ================================================================== *)
(** ** What the seed decides in an update, and what it does not *)

(** The agent object without its position. *)
Definition unplaced (a : Agent.t) : Agent.t := Agent.set_pos (0, 0) a.

(** The two worlds have the same model: only [model.random] may differ. *)
Definition reseeded (w1 w2 : World) : Prop := snd w1 = snd w2.

(** The two worlds have the same NumPy generator, the same parameters and
    the same agents in every attribute but their position; the grid and
    [model.random] may differ. *)
Definition same_but_place (w1 w2 : World) : Prop :=
  map unplaced (Model.agents (snd w1)) = map unplaced (Model.agents (snd w2))
  /\ Model.np_random (snd w1) = Model.np_random (snd w2)
  /\ config (snd w1) = config (snd w2).

Lemma reseeded_weaker : forall w1 w2, reseeded w1 w2 -> same_but_place w1 w2.
Proof. intros w1 w2 H. unfold reseeded in H. unfold same_but_place. now rewrite H. Qed.

Lemma map_update_agent_ext :
  forall A (g : Agent.t -> A) (f1 f2 : Agent.t -> Agent.t) id l,
    (forall a, g (f1 a) = g (f2 a)) ->
    map g (update_agent id f1 l) = map g (update_agent id f2 l).
Proof.
  intros A g f1 f2 id l H. induction l as [|a l IH]; simpl; [reflexivity|].
  destruct (Nat.eqb (Agent.unique_id a) id); simpl; [now rewrite H|now rewrite IH].
Qed.

Lemma find_unplaced :
  forall id l1 l2,
    map unplaced l1 = map unplaced l2 ->
    option_map unplaced (find_agent id l1) = option_map unplaced (find_agent id l2).
Proof.
  intros id l1. induction l1 as [|a1 l1 IH]; intros [|a2 l2] H; cbn [map] in H;
    try discriminate H; [reflexivity|].
  assert (Ha : unplaced a1 = unplaced a2) by congruence.
  assert (Hl : map unplaced l1 = map unplaced l2) by congruence.
  assert (Hid : Agent.unique_id a1 = Agent.unique_id a2)
    by (exact (f_equal Agent.unique_id Ha)).
  cbn [find_agent]. rewrite Hid.
  destruct (Nat.eqb (Agent.unique_id a2) id); cbn [option_map].
  - now rewrite Ha.
  - now apply IH.
Qed.

Lemma update_unplaced :
  forall id (f : Agent.t -> Agent.t) l1 l2,
    (forall a, unplaced (f a) = f (unplaced a)) ->
    map unplaced l1 = map unplaced l2 ->
    map unplaced (update_agent id f l1) = map unplaced (update_agent id f l2).
Proof.
  intros id f l1. induction l1 as [|a1 l1 IH]; intros [|a2 l2] Hf H; cbn [map] in H;
    try discriminate H; [reflexivity|].
  assert (Ha : unplaced a1 = unplaced a2) by congruence.
  assert (Hl : map unplaced l1 = map unplaced l2) by congruence.
  assert (Hid : Agent.unique_id a1 = Agent.unique_id a2)
    by (exact (f_equal Agent.unique_id Ha)).
  cbn [update_agent]. rewrite Hid.
  destruct (Nat.eqb (Agent.unique_id a2) id); cbn [map].
  - now rewrite !Hf, Ha, Hl.
  - now rewrite Ha, (IH l2 Hf Hl).
Qed.

(** Line 145 does not look at the position. *)
Lemma sim_count_step_unplaced :
  forall self, sim same_but_place (count_step self) (count_step self) same_but_place.
Proof.
  intros self w1 w2 [Hagents [Hnp Hconfig]].
  unfold count_step, bind, get_agent.
  pose proof (find_unplaced self _ _ Hagents) as Hfind.
  destruct (find_agent self (Model.agents (snd w1))) as [a1|],
           (find_agent self (Model.agents (snd w2))) as [a2|];
    cbn [option_map] in Hfind; try discriminate Hfind; [|reflexivity].
  assert (Ha : unplaced a1 = unplaced a2) by congruence.
  assert (Hastep : Agent.astep a1 = Agent.astep a2)
    by (exact (f_equal Agent.astep Ha)).
  unfold setattr, modify. split; [reflexivity|].
  unfold same_but_place. cbn [snd Model.agents Model.set_agents].
  split; [|split; assumption].
  rewrite Hastep. now apply update_unplaced.
Qed.

(** The seed picks the cell; whether [move] returns, what it raises, the
    dwelling time drawn and the NumPy variate consumed are the same under
    any two seeds. *)
Lemma sim_move_reseeded :
  forall self, sim reseeded (ISEpiAgent.move self) (ISEpiAgent.move self) same_but_place.
Proof.
  intros self [r1 m] [r2 m2] H. unfold reseeded in H. cbn [snd] in H. subst m2.
  destruct (find_agent self (Model.agents m)) as [a|] eqn:Hfind.
  2:{ unfold ISEpiAgent.move, bind, get_agent. cbn [snd]. now rewrite Hfind. }
  destruct (Agent.curr_dwelling a >? 0) eqn:Hd.
  { rewrite (@move_dwells self (r1, m) a Hfind Hd), (@move_dwells self (r2, m) a Hfind Hd).
    split; [reflexivity|]. now apply reseeded_weaker. }
  rewrite (@move_leaves self (r1, m) a Hfind Hd), (@move_leaves self (r2, m) a Hfind Hd).
  unfold MultiGrid.move_agent. cbn [snd fst].
  destruct (MultiGrid.remove_first self
              (MultiGrid.cell (Agent.pos a) (MultiGrid.cells (Model.grid m))))
    as [ids|]; [|reflexivity].
  destruct (PrimFloat.leb 0 (Model.avg_dwell m)); [|reflexivity].
  split; [reflexivity|]. unfold same_but_place, relocated, stored, after_trial.
  cbn [snd fst Model.agents Model.set_agents Model.set_grid Model.set_np_random
       Model.np_random].
  split; [|split; reflexivity].
  rewrite !update_agent_twice by reflexivity.
  apply map_update_agent_ext. reflexivity.
Qed.

(** The seed decides nothing in an update but the cell [move] picks. *)
Lemma step_seed_blind :
  forall self, sim reseeded (ISEpiAgent.step self) (ISEpiAgent.step self) same_but_place.
Proof.
  intro self.
  apply sim_step with (R := reseeded);
    first [ exact reseeded_weaker
          | apply sim_move_reseeded
          | apply sim_count_step_unplaced
          | idtac ].
  - intros w1 w2 H. unfold reseeded in H. now rewrite H.
  - intros w1 w2 H. unfold reseeded in H. now rewrite H.
  - intros w1 w2 H. unfold reseeded in H. now rewrite H.
  - intros id f w1 w2 H. unfold reseeded, stored in *. cbn [snd]. now rewrite H.
  - intros w1 w2 H. unfold reseeded, after_trial in *. cbn [snd]. now rewrite H.
Qed.

(* ================================================================== *)
(** ** What the NumPy generator does not decide in [move] *)

(** The two worlds have the same [model.random], the same grid and the
    same positions. *)
Definition same_place (w1 w2 : World) : Prop :=
  fst w1 = fst w2
  /\ Model.grid (snd w1) = Model.grid (snd w2)
  /\ map Agent.pos (Model.agents (snd w1)) = map Agent.pos (Model.agents (snd w2)).

(** The cell picked, the grid and the state of [model.random] after [move]
    are the same whatever the NumPy generator holds. *)
Lemma move_generator_blind :
  forall self r m g1 g2,
    match ISEpiAgent.move self (r, Model.set_np_random g1 m),
          ISEpiAgent.move self (r, Model.set_np_random g2 m) with
    | Ok (_, w1), Ok (_, w2) => same_place w1 w2
    | Raise e1, Raise e2 => e1 = e2
    | _, _ => False
    end.
Proof.
  intros self r m g1 g2.
  destruct (find_agent self (Model.agents m)) as [a|] eqn:Hfind.
  2:{ unfold ISEpiAgent.move, bind, get_agent.
      cbn [snd Model.agents Model.set_np_random]. now rewrite Hfind. }
  assert (Hf1 : find_agent self (Model.agents (snd (r, Model.set_np_random g1 m))) = Some a)
    by exact Hfind.
  assert (Hf2 : find_agent self (Model.agents (snd (r, Model.set_np_random g2 m))) = Some a)
    by exact Hfind.
  destruct (Agent.curr_dwelling a >? 0) eqn:Hd.
  { rewrite (move_dwells _ _ Hf1 Hd), (move_dwells _ _ Hf2 Hd).
    unfold same_place, stored. cbn. auto. }
  rewrite (move_leaves _ _ Hf1 Hd), (move_leaves _ _ Hf2 Hd).
  unfold chosen, MultiGrid.move_agent.
  cbn [snd fst Model.grid Model.set_np_random Model.avg_dwell].
  destruct (MultiGrid.remove_first self
              (MultiGrid.cell (Agent.pos a) (MultiGrid.cells (Model.grid m))))
    as [ids|]; [|reflexivity].
  destruct (PrimFloat.leb 0 (Model.avg_dwell m)); [|reflexivity].
  unfold same_place, relocated, stored, after_trial, chosen.
  cbn [snd fst Model.agents Model.grid Model.set_agents Model.set_grid
       Model.set_np_random Model.np_random].
  split; [reflexivity|]. split; [reflexivity|].
  rewrite !update_agent_twice by reflexivity.
  apply map_update_agent_ext. reflexivity.
Qed.

(* ================================================================== *)
(** ** Reproducibility *)

Lemma stage_reporters_blind : Forall generator_blind stage_reporters.
Proof.
  assert (H : forall s m1 m2, same_setup m1 m2 ->
                int_truediv (count_type m1 s) (Model.num_agents m1)
                = int_truediv (count_type m2 s) (Model.num_agents m2)).
  { intros s m1 m2 Hs. unfold count_type.
    assert (Ha : Model.agents m1 = Model.agents m2) by apply Hs.
    assert (Hn : Model.num_agents m1 = Model.num_agents m2) by apply Hs.
    now rewrite Ha, Hn. }
  unfold stage_reporters.
  repeat constructor; intros m1 m2 Hs; apply H; exact Hs.
Qed.

(** The schedulers with agents that do nothing: what is left is the
    schedulers' own use of the world. *)
Definition idle (id : nat) : M World unit := ret tt.

Definition model_kept (w w' : World) : Prop := snd w' = snd w.

Lemma model_kept_trans :
  forall w1 w2 w3, model_kept w1 w2 -> model_kept w2 w3 -> model_kept w1 w3.
Proof. unfold model_kept. intros w1 w2 w3 H1 H2. congruence. Qed.

Lemma idle_activate : forall ids, respects model_kept (activate idle ids).
Proof.
  induction ids as [|id ids IH]; simpl.
  - intro w. reflexivity.
  - apply (respects_bind model_kept_trans); [intro w; reflexivity|].
    intro u. exact IH.
Qed.

Lemma idle_model_shuffle :
  forall x, respects model_kept (model_shuffle (Env := Model.t) x).
Proof.
  intros x w. unfold model_shuffle.
  destruct (shuffle x (fst w)) as [x' r]. reflexivity.
Qed.

Lemma idle_run_stages :
  forall ks st, respects model_kept (run_stages idle ks st).
Proof.
  induction ks as [|k ks IH]; intro st; simpl.
  - intro w. reflexivity.
  - destruct (dict_get k st) as [bucket|]; [|intro w; exact I].
    apply (respects_bind model_kept_trans); [apply idle_model_shuffle|].
    intro shuffled.
    apply (respects_bind model_kept_trans); [apply idle_activate|].
    intro u. apply IH.
Qed.

(** The schedulers draw from [model.random] alone. *)
Lemma idle_schedule_step :
  forall s, respects model_kept (schedule_step registry idle s).
Proof.
  intros [g|u]; simpl.
  - apply (respects_bind model_kept_trans); [|intros g' w; reflexivity].
    unfold GrahamActivation_step.
    apply (respects_bind model_kept_trans); [intro w; reflexivity|]. intro agents.
    apply (respects_bind model_kept_trans).
    { intro w. unfold lift. destruct (fill_stages _ _); [reflexivity|exact I]. }
    intro st1.
    apply (respects_bind model_kept_trans); [apply idle_run_stages|].
    intros st2 w. reflexivity.
  - apply (respects_bind model_kept_trans); [|intros u' w; reflexivity].
    unfold RandomActivation_step.
    apply (respects_bind model_kept_trans); [intro w; reflexivity|]. intro agents.
    apply (respects_bind model_kept_trans); [apply idle_model_shuffle|].
    intro shuffled.
    apply (respects_bind model_kept_trans); [apply idle_activate|].
    intros x w. reflexivity.
Qed.

(** C4, amended. Two runs of [n] steps with the same configuration and
    scheduler record the same stage trajectories, or abort with the same
    exception, when the model's seeded generator and the global NumPy
    generator are each going to give the same outputs in both runs (the
    reporters not reading the NumPy generator).  The seed alone does not
    do: in an agent's update it decides nothing but the cell [move] picks,
    the stages, counters, dwelling times, exceptions and NumPy requests
    being the same under any two seeds, since every Bernoulli and Poisson
    draw is taken from the NumPy generator; that generator decides
    nothing about the cell picked, which is drawn from [model.random];
    and the schedulers themselves, shuffling with [model.random], touch
    nothing of the model, its NumPy generator included. *)
Theorem run_reproducible :
  forall reporters n (s : Schedule) (seed1 seed2 : Random) (m1 m2 : Model.t),
    Forall generator_blind reporters ->
    same_outputs seed1 seed2 ->
    same_setup m1 m2 ->
    same_draws (Model.np_random m1) (Model.np_random m2) ->
    run reporters n s (seed1, m1) = run reporters n s (seed2, m2)
    /\ (forall self r1 r2 m,
          match ISEpiAgent.step self (r1, m), ISEpiAgent.step self (r2, m) with
          | Ok (_, w1), Ok (_, w2) => same_but_place w1 w2
          | Raise e1, Raise e2 => e1 = e2
          | _, _ => False
          end)
    /\ (forall self r m g1 g2,
          match ISEpiAgent.move self (r, Model.set_np_random g1 m),
                ISEpiAgent.move self (r, Model.set_np_random g2 m) with
          | Ok (_, w1), Ok (_, w2) => same_place w1 w2
          | Raise e1, Raise e2 => e1 = e2
          | _, _ => False
          end)
    /\ (forall (s0 : Schedule) (w : World),
          match schedule_step registry idle s0 w with
          | Ok (_, w') => snd w' = snd w
          | Raise _ => True
          end).
Proof.
  intros reporters n s seed1 seed2 m1 m2 Hblind Hseed Hsetup Hnp.
  split; [|split; [|split]].
  - apply run_alike; [exact Hblind|]. split; [exact Hseed|split; [exact Hnp|exact Hsetup]].
  - intros self r1 r2 m.
    pose proof (@step_seed_blind self (r1, m) (r2, m) eq_refl) as H.
    destruct (ISEpiAgent.step self (r1, m)) as [[u1 w1]|e1],
             (ISEpiAgent.step self (r2, m)) as [[u2 w2]|e2]; try exact H.
    apply H.
  - apply move_generator_blind.
  - intros s0 w. apply idle_schedule_step.
Qed.

(** Generator objects with another past and the same future. *)
Definition reseeded_twice : Random :=
  mkRandom (fun k => nth k [9; 9; 1; 3; 0; 2]%nat 0%nat) 2.

Definition numpy_later : RandomState :=
  mkRandomState (fun k => mkDraw (nth k [0%float] 1%float) 3) 1.

(** A RECOVERED agent about to leave its cell and an INFECTED one. *)
Definition mixed_town (g : RandomState) : Model.t :=
  town [person 0 RECOVERED 10 false 0; person 1 INFECTED 12 false 0] [0; 1]%nat g.

Lemma run_reproducible_witness :
  run stage_reporters 2 (Graham (GrahamActivation_init 1))
      (seeded [1; 3; 0; 2]%nat, mixed_town (numpy []))
  = run stage_reporters 2 (Graham (GrahamActivation_init 1))
      (reseeded_twice, mixed_town numpy_later)
  /\ run stage_reporters 2 (Graham (GrahamActivation_init 1))
         (seeded [1; 3; 0; 2]%nat, mixed_town (numpy []))
     = Ok [[RECOVERED; INFECTED]; [RECOVERED; INFECTED]].
Proof.
  split; [|reflexivity].
  apply (proj1 (@run_reproducible stage_reporters 2%nat
                  (Graham (GrahamActivation_init 1))
                  (seeded [1; 3; 0; 2]%nat) reseeded_twice
                  (mixed_town (numpy [])) (mixed_town numpy_later)
                  stage_reporters_blind
                  (fun k => eq_refl)
                  (conj eq_refl (conj eq_refl (conj eq_refl (conj eq_refl
                    (conj eq_refl (conj eq_refl (conj eq_refl eq_refl)))))))
                  (fun k => eq_refl))).
Defined.
